(** * bup.js reactivity core: signals, effects and the microtask scheduler

    A shallow embedding of [src/reactivity.ts].  The module-level variables
    [currentEffect], [flushing] and [queue], and the objects the constructors
    allocate, live in an explicit [state]; every function of the module is a
    state-passing function with the name it has in the source.  Callbacks
    handed to the library (effect bodies, cleanups, updaters, the argument of
    [ignore] and [scope]) are programs over the module's public interface.
    Of [src/dom.ts] only [cleanup] of an element set is here: it calls the
    functions the binding methods registered, the disposers of their effects
    among them. *)

From stdpp Require Import base tactics numbers option list.

(** ** Values *)

(** What a JavaScript variable can hold here.  Functions are references:
    the closures of the library are named by the object they close over
    (one getter and one setter per signal, one disposer per effect, one
    [dispose] per [scope] call), the callbacks of the caller by their index
    in the table of allocated closures. *)
Inductive jsval :=
| VUndef
| VNum (n : Z)
| VClos (c : nat)
| VGetter (s : nat)
| VSetter (s : nat)
| VDisposer (e : nat)
| VScopeDispose (c : nat)
| VScopeHook (c : nat).

#[global] Instance jsval_eq_dec : EqDecision jsval.
Proof. solve_decision. Defined.

(** [typeof v === "function"] *)
Definition is_function (v : jsval) : bool :=
  match v with
  | VUndef | VNum _ => false
  | _ => true
  end.

(** Truthiness, for [cleanup && ...]. *)
Definition truthy (v : jsval) : bool :=
  match v with
  | VUndef => false
  | VNum n => negb (n =? 0)%Z
  | _ => true
  end.

(** [Object.is] on these values: equal primitives, or the same reference. *)
Definition object_is (a b : jsval) : bool := bool_decide (a = b).

(** ** Callbacks *)

(** The code of a callback: what it does through the public interface of the
    module, each operation binding its result for the rest of the code. *)
Inductive prog :=
| Ret (v : jsval)
| Throw (v : jsval)
| MkFun (body : jsval → prog) (k : jsval → prog)
| Call (f arg : jsval) (k : jsval → prog)
| NewSignal (init : jsval) (k : jsval → jsval → prog)
| NewEffect (fn : jsval) (k : jsval → prog)
| Ignore (fn : jsval) (k : jsval → prog)
| Scope (fn : jsval) (k : jsval → prog)
| TryCatch (body : prog) (handler : jsval → prog) (k : jsval → prog).

(** ** The heap *)

(** [interface Signal<T>]; a JavaScript [Set] iterates in insertion order, so
    it is a duplicate-free list. *)
Record Signal := mkSignal {
  value : jsval;
  subs : list nat
}.

(** [interface Effect]; [run] is the function [run] below, closed over the
    effect itself, and [fn] the body it closes over. *)
Record Effect := mkEffect {
  fn : jsval;
  deps : list nat;
  cleanups : list jsval
}.

(** History of the execution, newest event first.  Nothing reads it. *)
Inductive event :=
| EvRead (ctx : option nat) (s : nat)
| EvReset (e : nat)
| EvBody (e : nat)
| EvCleanup (e : nat) (c : jsval)
| EvDispose (e : nat)
| EvJob (e : nat)
| EvApply (f : jsval).

#[global] Instance event_eq_dec : EqDecision event.
Proof. solve_decision. Defined.

Record state := mkState {
  currentEffect : option nat;
  signals : list Signal;
  effects : list Effect;
  closures : list (jsval → prog);
  scopes : list (list jsval);
  flushing : bool;
  queue : list nat;
  microtasks : nat;
  log : list event
}.

Definition init : state := mkState None [] [] [] [] false [] 0 [].

Inductive outcome :=
| Normal (v : jsval)
| Thrown (v : jsval).

(** [None]: the call stack (or the iteration budget of a loop) ran out. *)
Definition result := option (state * outcome).

Definition ret (v : jsval) (st : state) : result := Some (st, Normal v).
Definition throw (v : jsval) (st : state) : result := Some (st, Thrown v).

Definition bind (r : result) (k : jsval → state → result) : result :=
  match r with
  | Some (st, Normal v) => k v st
  | Some (st, Thrown v) => Some (st, Thrown v)
  | None => None
  end.

(** [try { ... } finally { after }] where [after] does not throw. *)
Definition finally (r : result) (after : state → state) : result :=
  match r with
  | Some (st, o) => Some (after st, o)
  | None => None
  end.

(** ** Field updates *)

Definition set_currentEffect (c : option nat) (st : state) : state :=
  mkState c (signals st) (effects st) (closures st) (scopes st)
          (flushing st) (queue st) (microtasks st) (log st).

Definition upd_signals (f : list Signal → list Signal) (st : state) : state :=
  mkState (currentEffect st) (f (signals st)) (effects st) (closures st) (scopes st)
          (flushing st) (queue st) (microtasks st) (log st).

Definition upd_effects (f : list Effect → list Effect) (st : state) : state :=
  mkState (currentEffect st) (signals st) (f (effects st)) (closures st) (scopes st)
          (flushing st) (queue st) (microtasks st) (log st).

Definition upd_closures (f : list (jsval → prog) → list (jsval → prog)) (st : state) : state :=
  mkState (currentEffect st) (signals st) (effects st) (f (closures st)) (scopes st)
          (flushing st) (queue st) (microtasks st) (log st).

Definition upd_scopes (f : list (list jsval) → list (list jsval)) (st : state) : state :=
  mkState (currentEffect st) (signals st) (effects st) (closures st) (f (scopes st))
          (flushing st) (queue st) (microtasks st) (log st).

Definition set_flushing (b : bool) (st : state) : state :=
  mkState (currentEffect st) (signals st) (effects st) (closures st) (scopes st)
          b (queue st) (microtasks st) (log st).

Definition upd_queue (f : list nat → list nat) (st : state) : state :=
  mkState (currentEffect st) (signals st) (effects st) (closures st) (scopes st)
          (flushing st) (f (queue st)) (microtasks st) (log st).

Definition upd_microtasks (f : nat → nat) (st : state) : state :=
  mkState (currentEffect st) (signals st) (effects st) (closures st) (scopes st)
          (flushing st) (queue st) (f (microtasks st)) (log st).

Definition record (ev : event) (st : state) : state :=
  mkState (currentEffect st) (signals st) (effects st) (closures st) (scopes st)
          (flushing st) (queue st) (microtasks st) (ev :: log st).

(** [Set.prototype.add] and [Set.prototype.delete]. *)
Definition set_add (x : nat) (l : list nat) : list nat :=
  if decide (x ∈ l) then l else l ++ [x].

Definition set_delete (x : nat) (l : list nat) : list nat :=
  filter (λ y, y ≠ x) l.

Definition subs_of (s : nat) (st : state) : list nat :=
  from_option subs [] (signals st !! s).

Definition value_of (s : nat) (st : state) : jsval :=
  from_option value VUndef (signals st !! s).

Definition deps_of (e : nat) (st : state) : list nat :=
  from_option deps [] (effects st !! e).

Definition cleanups_of (e : nat) (st : state) : list jsval :=
  from_option cleanups [] (effects st !! e).

Definition scope_cleanups (c : nat) (st : state) : list jsval :=
  default [] (scopes st !! c).

Definition upd_subs (s : nat) (f : list nat → list nat) : state → state :=
  upd_signals (alter (λ sg, mkSignal (value sg) (f (subs sg))) s).

Definition set_value (s : nat) (v : jsval) : state → state :=
  upd_signals (alter (λ sg, mkSignal v (subs sg)) s).

Definition upd_deps (e : nat) (f : list nat → list nat) : state → state :=
  upd_effects (alter (λ ef, mkEffect (fn ef) (f (deps ef)) (cleanups ef)) e).

Definition upd_cleanups (e : nat) (f : list jsval → list jsval) : state → state :=
  upd_effects (alter (λ ef, mkEffect (fn ef) (deps ef) (f (cleanups ef))) e).

Definition upd_scope (c : nat) (f : list jsval → list jsval) : state → state :=
  upd_scopes (alter f c).

(** ** The scheduler *)

(** [function schedule(job)]; every job ever scheduled is the [run] of an
    effect, so the queue holds effects. *)
Definition schedule (job : nat) (st : state) : state :=
  let st1 := if decide (job ∈ queue st) then st else upd_queue (λ q, q ++ [job]) st in
  if flushing st1 then st1
  else upd_microtasks S (set_flushing true st1).

(** [signal.subs.forEach(sub => schedule(sub.run))] *)
Definition notify (s : nat) (st : state) : state :=
  foldl (λ st sub, schedule sub st) st (subs_of s st).

(** ** Signals *)

(** [signal(initialValue)]: the new object; its getter and setter are
    [VGetter s] and [VSetter s] for [s] the index it gets. *)
Definition signal (initialValue : jsval) (st : state) : state :=
  upd_signals (λ l, l ++ [mkSignal initialValue []]) st.

(** [const getter = () => ...] of signal [s]. *)
Definition getter (s : nat) (st : state) : result :=
  match signals st !! s with
  | None => throw VUndef st
  | Some sg =>
      let st1 :=
        match currentEffect st with
        | Some e => upd_deps e (set_add s) (upd_subs s (set_add e) st)
        | None => st
        end in
      ret (value sg) (record (EvRead (currentEffect st) s) st1)
  end.

Section WithCall.

(** Calling a function value from inside the module, one stack frame
    further down. *)
Variable call : jsval → jsval → state → result.

(** [arr.forEach(f => f())] over an array nobody changes meanwhile. *)
Fixpoint call_each (before : jsval → state → state) (fs : list jsval) (st : state) : result :=
  match fs with
  | [] => ret VUndef st
  | f :: fs' => bind (call f VUndef (before f st)) (λ _ st', call_each before fs' st')
  end.

(** [const setter = (nextValue) => ...] of signal [s]. *)
Definition candidate (s : nat) (nextValue : jsval) (st : state) : result :=
  if is_function nextValue then call nextValue (value_of s st) st
  else ret nextValue st.

Definition setter (s : nat) (nextValue : jsval) (st : state) : result :=
  match signals st !! s with
  | None => throw VUndef st
  | Some _ =>
      bind (candidate s nextValue st) (λ newValue st1,
        if object_is (value_of s st1) newValue then ret VUndef st1
        else
          ret VUndef (notify s (set_value s newValue st1)))
  end.

(** [effect.deps.forEach(signal => signal.subs.delete(effect))] *)
Definition unsubscribe (e : nat) (st : state) : state :=
  foldl (λ st s, upd_subs s (set_delete e) st) st (deps_of e st).

(** The [run] closure of effect [e]. *)
Definition run (e : nat) (st : state) : result :=
  match effects st !! e with
  | None => throw VUndef st
  | Some ef =>
      bind (call_each (λ c, record (EvCleanup e c)) (cleanups ef) st) (λ _ st1,
        let st2 := upd_cleanups e (λ _, []) st1 in
        let st3 := unsubscribe e st2 in
        let st4 := record (EvReset e) (upd_deps e (λ _, []) st3) in
        let prevEffect := currentEffect st4 in
        let st5 := record (EvBody e) (set_currentEffect (Some e) st4) in
        finally
          (bind (call (fn ef) VUndef st5) (λ cleanup st6,
             if truthy cleanup && is_function cleanup
             then ret VUndef (upd_cleanups e (λ l, l ++ [cleanup]) st6)
             else ret VUndef st6))
          (set_currentEffect prevEffect))
  end.

(** The function [effect] returns. *)
Definition dispose (e : nat) (st : state) : result :=
  match effects st !! e with
  | None => throw VUndef st
  | Some ef =>
      bind (call_each (λ _, id) (cleanups ef) st) (λ _ st1,
        ret VUndef (record (EvDispose e) (unsubscribe e st1)))
  end.

(** [effect(fn)] *)
Definition effect (fn : jsval) (st : state) : result :=
  let e := length (effects st) in
  let st1 := upd_effects (λ l, l ++ [mkEffect fn [] []]) st in
  bind (run e st1) (λ _ st2, ret (VDisposer e) st2).

(** [ignore(fn)] *)
Definition ignore (fn : jsval) (st : state) : result :=
  let prevEffect := currentEffect st in
  finally (call fn VUndef (set_currentEffect None st))
          (set_currentEffect prevEffect).

(** [cleanups.forEach(cleanup => cleanup())] over the private array of a
    [scope] call, which [dispose] itself truncates: the bound is taken on
    entry and an index that is no longer in the array is skipped. *)
Fixpoint scope_each (c : nat) (n i : nat) (st : state) : result :=
  match n with
  | 0 => ret VUndef st
  | S n' =>
      match scope_cleanups c st !! i with
      | Some f => bind (call f VUndef st) (λ _ st', scope_each c n' (S i) st')
      | None => scope_each c n' (S i) st
      end
  end.

(** [const dispose = () => ...] of the [scope] call [c]. *)
Definition scope_dispose (c : nat) (st : state) : result :=
  match scopes st !! c with
  | None => throw VUndef st
  | Some l =>
      bind (scope_each c (length l) 0 st) (λ _ st1,
        ret VUndef (upd_scope c (λ _, []) st1))
  end.

(** [() => { currentEffect?.cleanups.forEach(cleanup => cleanup()) }] *)
Definition scope_hook (st : state) : result :=
  match currentEffect st with
  | None => ret VUndef st
  | Some e => call_each (λ _, id) (cleanups_of e st) st
  end.

(** [scope(fn)] *)
Definition scope (fn : jsval) (st : state) : result :=
  let prevEffect := currentEffect st in
  let st0 := set_currentEffect None st in
  let c := length (scopes st0) in
  let st1 := upd_scopes (λ l, l ++ [[]]) st0 in
  finally
    (bind (call fn (VScopeDispose c) st1) (λ result st2,
       let st3 :=
         match currentEffect st2 with
         | Some _ => upd_scope c (λ l, l ++ [VScopeHook c]) st2
         | None => st2
         end in
       ret result st3))
    (set_currentEffect prevEffect).

(** Running the code of a callback. *)
Fixpoint exec (p : prog) (st : state) : result :=
  match p with
  | Ret v => ret v st
  | Throw v => throw v st
  | MkFun body k =>
      exec (k (VClos (length (closures st)))) (upd_closures (λ l, l ++ [body]) st)
  | Call f arg k =>
      match call f arg st with
      | Some (st', Normal v) => exec (k v) st'
      | other => other
      end
  | NewSignal initialValue k =>
      let s := length (signals st) in
      exec (k (VGetter s) (VSetter s)) (signal initialValue st)
  | NewEffect fn k =>
      match effect fn st with
      | Some (st', Normal v) => exec (k v) st'
      | other => other
      end
  | Ignore fn k =>
      match ignore fn st with
      | Some (st', Normal v) => exec (k v) st'
      | other => other
      end
  | Scope fn k =>
      match scope fn st with
      | Some (st', Normal v) => exec (k v) st'
      | other => other
      end
  | TryCatch body handler k =>
      match exec body st with
      | Some (st', Normal v) => exec (k v) st'
      | Some (st', Thrown v) =>
          match exec (handler v) st' with
          | Some (st'', Normal v') => exec (k v') st''
          | other => other
          end
      | None => None
      end
  end.

(** What calling the function value [f] with argument [arg] does. *)
Definition apply (f arg : jsval) (st : state) : result :=
  let st := record (EvApply f) st in
  match f with
  | VClos c =>
      match closures st !! c with
      | Some body => exec (body arg) st
      | None => throw VUndef st
      end
  | VGetter s => getter s st
  | VSetter s => setter s arg st
  | VDisposer e => dispose e st
  | VScopeDispose c => scope_dispose c st
  | VScopeHook _ => scope_hook st
  | VUndef | VNum _ => throw VUndef st
  end.

End WithCall.

(** A call with room for [fuel] nested stack frames. *)
Fixpoint call (fuel : nat) (f arg : jsval) (st : state) : result :=
  match fuel with
  | 0 => None
  | S n => apply (call n) f arg st
  end.

(** [computed(fn)], written with the interface it is written with in the
    source: a signal, and an effect whose body is [() => { setter(fn()) }]. *)
Definition computed (fn : jsval) (k : jsval → prog) : prog :=
  NewSignal VUndef (λ getter setter,
    MkFun (λ _, Call fn VUndef (λ r, Call setter r (λ _, Ret VUndef))) (λ body,
      NewEffect body (λ _, k getter))).

(** [function flush()]: the loop from index [i] on, [n] bounding the number
    of iterations. *)
Fixpoint flush_from (fuel : nat) (n i : nat) (st : state) : result :=
  match queue st !! i with
  | None => ret VUndef st
  | Some job =>
      match n with
      | 0 => None
      | S n' =>
          bind (run (call fuel) job (record (EvJob job) st)) (λ _ st',
            flush_from fuel n' (S i) st')
      end
  end.

Definition flush (fuel : nat) (st : state) : result :=
  bind (flush_from fuel fuel 0 st) (λ _ st1,
    ret VUndef (set_flushing false (upd_queue (λ _, []) st1))).

(** The microtask checkpoint: a [flush] handed to [queueMicrotask] runs. *)
Definition microtask (fuel : nat) (st : state) : result :=
  match microtasks st with
  | 0 => ret VUndef st
  | S m => flush fuel (upd_microtasks (λ _, m) st)
  end.

(** ** Executions *)

(** [push_cleanup e (Some c)] is [effect.cleanups.push(c)] of effect [e]. *)
Definition push_cleanup (e : nat) (oc : option jsval) (st : state) : state :=
  match oc with
  | Some c => upd_cleanups e (λ l, l ++ [c]) st
  | None => st
  end.

(** The state in which the body of a just constructed effect starts. *)
Definition enter_effect (fn : jsval) (st : state) : state :=
  let e := length (effects st) in
  record (EvBody e) (set_currentEffect (Some e)
    (record (EvReset e) (upd_effects (λ l, l ++ [mkEffect fn [] []]) st))).

(** What the code of a callback can do to the state: every change a call
    into the module makes is a sequence of these.  An effect is only ever
    run from here at its construction; its later runs are the scheduler's. *)
Inductive trans : state → state → Prop :=
| trans_refl st : trans st st
| trans_trans st1 st2 st3 : trans st1 st2 → trans st2 st3 → trans st1 st3
| trans_apply f st : trans st (record (EvApply f) st)
| trans_closure body st : trans st (upd_closures (λ l, l ++ [body]) st)
| trans_signal v st : trans st (signal v st)
| trans_read_untracked s st :
    currentEffect st = None →
    trans st (record (EvRead None s) st)
| trans_read_tracked e s st :
    currentEffect st = Some e → is_Some (signals st !! s) →
    trans st (record (EvRead (Some e) s)
                (upd_deps e (set_add s) (upd_subs s (set_add e) st)))
| trans_write s v st : trans st (set_value s v st)
| trans_notify s st : trans st (notify s st)
| trans_dispose e st : trans st (record (EvDispose e) (unsubscribe e st))
| trans_scope_clear c st : trans st (upd_scope c (λ _, []) st)
| trans_ignore st st' :
    trans (set_currentEffect None st) st' →
    trans st (set_currentEffect (currentEffect st) st')
| trans_scope st st' :
    trans (upd_scopes (λ l, l ++ [[]]) (set_currentEffect None st)) st' →
    trans st (set_currentEffect (currentEffect st) st')
| trans_effect f oc st st' :
    trans (enter_effect f st) st' →
    trans st (set_currentEffect (currentEffect st)
                (push_cleanup (length (effects st)) oc st')).

(** The top level of the program: tasks that run callback code, the
    microtask that runs [flush]. *)
Inductive reachable : state → Prop :=
| reach_init : reachable init
| reach_task fuel p st st' o :
    reachable st → exec (call fuel) p st = Some (st', o) → reachable st'
| reach_microtask fuel st st' o :
    reachable st → microtask fuel st = Some (st', o) → reachable st'.

(** The subscription of [e] to [s] as the history has it: the last thing
    that happened to it is a read of [s] by [e], not a reset of [e] for a
    new run nor a disposal of [e]. *)
Fixpoint subscribed (e s : nat) (l : list event) : bool :=
  match l with
  | [] => false
  | EvRead (Some e') s' :: l' =>
      if decide (e' = e ∧ s' = s) then true else subscribed e s l'
  | EvReset e' :: l' | EvDispose e' :: l' =>
      if decide (e' = e) then false else subscribed e s l'
  | _ :: l' => subscribed e s l'
  end.

(** [s] was read by [e] during its most recent run: after its last reset. *)
Fixpoint tracked (e s : nat) (l : list event) : bool :=
  match l with
  | [] => false
  | EvRead (Some e') s' :: l' =>
      if decide (e' = e ∧ s' = s) then true else tracked e s l'
  | EvReset e' :: l' =>
      if decide (e' = e) then false else tracked e s l'
  | _ :: l' => tracked e s l'
  end.

(** The jobs [flush] invoked, oldest first. *)
Definition jobs_of (l : list event) : list nat :=
  rev (omap (λ ev, match ev with EvJob e => Some e | _ => None end) l).


(** ** Loops, step by step *)

(** [fs.forEach(f => f())] call by call: the functions of the array are
    called one after the other, each in the state the call before it left,
    until the array is through or a call throws. *)
Inductive each_called (call : jsval → jsval → state → result)
    (before : jsval → state → state) : list jsval → state → state → outcome → Prop :=
| each_done st : each_called call before [] st st (Normal VUndef)
| each_next f fs st st1 v st2 o :
    call f VUndef (before f st) = Some (st1, Normal v) →
    each_called call before fs st1 st2 o →
    each_called call before (f :: fs) st st2 o
| each_thrown f fs st st1 v :
    call f VUndef (before f st) = Some (st1, Thrown v) →
    each_called call before (f :: fs) st st1 (Thrown v).

(** The loop of [flush] job by job, from index [i] of the queue: the job at
    the index is invoked and the loop goes on at the next index in the state
    the job left, until the index is past the end of the queue as it stands
    then, or a job throws.  [jobs] are the jobs invoked, in order. *)
Inductive pass (fuel : nat) : nat → state → list nat → state → outcome → Prop :=
| pass_done i st :
    queue st !! i = None → pass fuel i st [] st (Normal VUndef)
| pass_next i st job st1 v jobs st2 o :
    queue st !! i = Some job →
    run (call fuel) job (record (EvJob job) st) = Some (st1, Normal v) →
    pass fuel (S i) st1 jobs st2 o →
    pass fuel i st (job :: jobs) st2 o
| pass_thrown i st job st1 v :
    queue st !! i = Some job →
    run (call fuel) job (record (EvJob job) st) = Some (st1, Thrown v) →
    pass fuel i st [job] st1 (Thrown v).

(** The state a [flush] that completes leaves. *)
Definition flushed (st : state) : state :=
  set_flushing false (upd_queue (λ _, []) st).

(** ** Invariants *)

(** [st'] has the objects of [st], and the effects of [st] with their body
    and cleanups. *)
Definition extends (st st' : state) : Prop :=
  length (signals st) ≤ length (signals st')
  ∧ length (effects st) ≤ length (effects st')
  ∧ closures st `prefix_of` closures st'
  ∧ length (scopes st) ≤ length (scopes st')
  ∧ ∀ e ef, effects st !! e = Some ef →
      ∃ ef', effects st' !! e = Some ef' ∧ fn ef' = fn ef ∧ cleanups ef' = cleanups ef.

(** The history and the graph agree, and speak of allocated objects. *)
Record consistent (st : state) : Prop := {
  ctx_alloc : ∀ e, currentEffect st = Some e → e < length (effects st);
  log_alloc : ∀ e s, EvRead (Some e) s ∈ log st →
                e < length (effects st) ∧ s < length (signals st);
  log_subs : ∀ e s, e ∈ subs_of s st ↔ subscribed e s (log st) = true;
  log_deps : ∀ e s, s ∈ deps_of e st ↔ tracked e s (log st) = true
}.

(** The events the code of a callback started in [st] can add to the history:
    tracked reads are by the effect running in [st] or by an effect constructed
    since, resets and bodies are of effects constructed since, and no job and
    no cleanup of a run is among them. *)
Definition allowed (st : state) (ev : event) : Prop :=
  match ev with
  | EvRead (Some e) _ => currentEffect st = Some e ∨ length (effects st) ≤ e
  | EvReset e | EvBody e => length (effects st) ≤ e
  | EvCleanup _ _ | EvJob _ => False
  | _ => True
  end.

(** The scheduler at rest or with exactly one flush arranged or under way. *)
Definition sched_ok (st : state) : Prop :=
  NoDup (queue st)
  ∧ microtasks st ≤ 1
  ∧ (flushing st = false → microtasks st = 0 ∧ queue st = []).

(** What callback code can do to the scheduler: append to the queue, and
    arrange a flush if none is arranged or under way. *)
Definition sched_step (st st' : state) : Prop :=
  queue st `prefix_of` queue st'
  ∧ (flushing st = true → flushing st' = true ∧ microtasks st' = microtasks st)
  ∧ (sched_ok st → sched_ok st').

(** [effect.cleanups = []; effect.deps.forEach(...); effect.deps.clear()]
    of [run]. *)
Definition reset (e : nat) (st : state) : state :=
  record (EvReset e) (upd_deps e (λ _, []) (unsubscribe e (upd_cleanups e (λ _, []) st))).

(** The cleanup a run registers: the function its body returned, if any. *)
Definition settle (o : outcome) : option jsval :=
  match o with
  | Normal c => if truthy c && is_function c then Some c else None
  | Thrown _ => None
  end.

(** How a run ends when its body ended with [o]. *)
Definition run_outcome (o : outcome) : outcome :=
  match o with
  | Normal _ => Normal VUndef
  | Thrown v => Thrown v
  end.

(** The state in which the body of effect [e] starts on a run. *)
Definition enter_run (e : nat) (st : state) : state :=
  record (EvBody e) (set_currentEffect (Some e) (reset e st)).

(** What the scheduler and the runs it makes do to the state. *)
Inductive strans : state → state → Prop :=
| strans_lift st st' : trans st st' → strans st st'
| strans_trans st1 st2 st3 : strans st1 st2 → strans st2 st3 → strans st1 st3
| strans_cleanup e c st : strans st (record (EvCleanup e c) st)
| strans_run e oc st st' :
    is_Some (effects st !! e) →
    trans (enter_run e st) st' →
    strans st (set_currentEffect (currentEffect st) (push_cleanup e oc st'))
| strans_job e st : e ∈ queue st → strans st (record (EvJob e) st)
| strans_flushed st : strans st (set_flushing false (upd_queue (λ _, []) st))
| strans_microtask m st :
    microtasks st = S m → strans st (upd_microtasks (λ _, m) st).

(** The history grew by events among which [flush] invoked no job. *)
Definition no_jobs (st st' : state) : Prop :=
  ∃ evs, log st' = evs ++ log st ∧ jobs_of evs = [].

(** What happens after [st]: tasks, and microtask checkpoints. *)
Inductive later : state → state → Prop :=
| later_refl st : later st st
| later_task fuel p st st' st'' o :
    later st st' → exec (call fuel) p st' = Some (st'', o) → later st st''
| later_microtask fuel st st' st'' o :
    later st st' → microtask fuel st' = Some (st'', o) → later st st''.

(** The scheduler after a [flush] that threw: the flag is set and no flush
    is arranged. *)
Definition stuck (st : state) : Prop :=
  flushing st = true ∧ microtasks st = 0.

(** Effect [e] is out of the graph and out of the scheduler: not running,
    not queued, subscribed to nothing. *)
Definition dormant (e : nat) (st : state) : Prop :=
  e < length (effects st)
  ∧ currentEffect st ≠ Some e
  ∧ (e ∉ queue st)
  ∧ ∀ s, e ∉ subs_of s st.

(** The history grew by events among which [e] was not invoked as a job and
    its body was not called. *)
Definition quiet (e : nat) (st st' : state) : Prop :=
  ∃ evs, log st' = evs ++ log st ∧ (EvJob e ∉ evs) ∧ (EvBody e ∉ evs).

(** The history that a piece of the execution added holds no call of the
    body of [e] and no read by [e]. *)
Definition unread (e : nat) (st st' : state) : Prop :=
  ∃ evs, log st' = evs ++ log st ∧ (EvBody e ∉ evs) ∧ ∀ s, EvRead (Some e) s ∉ evs.

(** What the setter of [s] does with an argument that is not a function. *)
Definition written (s : nat) (v : jsval) (st : state) : state :=
  if object_is (value_of s st) v then st else notify s (set_value s v st).


(** The state without its history. *)
Definition forget (st : state) : state :=
  mkState (currentEffect st) (signals st) (effects st) (closures st) (scopes st)
          (flushing st) (queue st) (microtasks st) [].

Definition forget_result (r : result) : result :=
  match r with
  | Some (st, o) => Some (forget st, o)
  | None => None
  end.

(** [r'] is [r] or [r] ran out of stack. *)
Definition result_le (r r' : result) : Prop :=
  ∀ x, r = Some x → r' = Some x.


(** The subscriber and dependency sets hold no element twice. *)
Definition sets_ok (st : state) : Prop :=
  (∀ s, NoDup (subs_of s st)) ∧ (∀ e, NoDup (deps_of e st)).

(** The queue holds effects that exist. *)
Definition queue_alloc (st : state) : Prop :=
  ∀ e, e ∈ queue st → e < length (effects st).

(** [ElementSet.prototype.cleanup] of [dom.ts]:
    [this.cleanups.forEach(fn => fn())], over the array of functions that the
    binding methods of the set pushed, which nothing shortens. *)
Definition cleanup (fuel : nat) (cleanups : list jsval) (st : state) : result :=
  call_each (call fuel) (λ _, id) cleanups st.

(** ** Sample programs *)

(** The state and the outcome of a run of the model that did not run out of
    stack. *)
Definition state_of (r : result) : state :=
  match r with Some (st, _) => st | None => init end.

Definition outcome_of (r : result) : option outcome :=
  match r with Some (_, o) => Some o | None => None end.

(** [const [n, setN] = signal(0); const d = effect(() => { n() })] *)
Definition counter : prog :=
  NewSignal (VNum 0) (λ n setN,
    MkFun (λ _, Call n VUndef (λ _, Ret VUndef)) (λ body,
      NewEffect body (λ d, Ret d))).

Definition counter_state : state := state_of (exec (call 3) counter init).

(** An effect that throws once [n] is not 0, a second effect on [n], then
    [setN(1)]. *)
Definition throwing : prog :=
  NewSignal (VNum 0) (λ n setN,
    MkFun (λ _, Call n VUndef (λ v, match v with VNum 0 => Ret VUndef | _ => Throw v end)) (λ body,
      NewEffect body (λ _,
        MkFun (λ _, Call n VUndef (λ _, Ret VUndef)) (λ body2,
          NewEffect body2 (λ _, Call setN (VNum 1) Ret))))).

Definition throwing_state : state := state_of (exec (call 3) throwing init).

(** [setN(1); d()] *)
Definition write_then_dispose : prog :=
  Call (VSetter 0) (VNum 1) (λ _, Call (VDisposer 0) VUndef Ret).

(** [const f0 = () => 1, g = () => 2; const [get, set] = signal(f0)]: a
    signal whose values are functions. *)
Definition fn_signal : prog :=
  MkFun (λ _, Ret (VNum 1)) (λ f0,
    MkFun (λ _, Ret (VNum 2)) (λ g,
      NewSignal f0 (λ _ _, Ret g))).



(** [effect(() => { n(); return c })] with [c = () => {}], then [setN(1)]. *)
Definition with_cleanup : prog :=
  NewSignal (VNum 0) (λ n setN,
    MkFun (λ _, Ret VUndef) (λ c,
      MkFun (λ _, Call n VUndef (λ _, Ret c)) (λ body,
        NewEffect body (λ _, Call setN (VNum 1) Ret)))).


(** [effect(body); const f = () => { effect(body) }] *)
Definition scoped : prog :=
  NewSignal (VNum 0) (λ n _,
    MkFun (λ _, Call n VUndef (λ _, Ret VUndef)) (λ body,
      NewEffect body (λ _,
        MkFun (λ _, NewEffect body (λ _, Ret VUndef)) (λ f, Ret f)))).

(** [const [n, setN] = signal(0); effect(() => {}); effect(() => { n() })] *)
Definition idle_effect : prog :=
  NewSignal (VNum 0) (λ n setN,
    MkFun (λ _, Ret VUndef) (λ idle,
      NewEffect idle (λ _,
        MkFun (λ _, Call n VUndef (λ _, Ret VUndef)) (λ body,
          NewEffect body (λ _, Ret VUndef))))).

(** [scope(dispose => dispose)] *)
Definition scope_kept : prog :=
  MkFun (λ dispose, Ret dispose) (λ f, Scope f Ret).

(** [const [n] = signal(0); const body = () => { n(); throw 7 }] *)
Definition failing_body : prog :=
  NewSignal (VNum 0) (λ n _,
    MkFun (λ _, Call n VUndef (λ _, Throw (VNum 7))) (λ body, Ret body)).

(** [(x, y) => x + y] on numbers. *)
Definition sum (x y : jsval) : jsval :=
  match x, y with
  | VNum a, VNum b => VNum (a + b)
  | _, _ => VUndef
  end.

(** [const [a, setA] = signal(0); const [b, setB] = signal(0);
    effect(() => { setB(a()) }); effect(() => { b() }); setA(1)] *)
Definition chain : prog :=
  NewSignal (VNum 0) (λ a setA,
    NewSignal (VNum 0) (λ b setB,
      MkFun (λ _, Call a VUndef (λ v, Call setB v (λ _, Ret VUndef))) (λ copy,
        NewEffect copy (λ _,
          MkFun (λ _, Call b VUndef (λ _, Ret VUndef)) (λ watch,
            NewEffect watch (λ _, Call setA (VNum 1) Ret)))))).


(** [const c = computed(() => a() + b()); effect(() => { setB(a()) });
    setA(1)] *)
Definition stale_sum : prog :=
  NewSignal (VNum 0) (λ a setA,
    NewSignal (VNum 0) (λ b setB,
      MkFun (λ _, Call a VUndef (λ x, Call b VUndef (λ y, Ret (sum x y)))) (λ derive,
        computed derive (λ c,
          MkFun (λ _, Call a VUndef (λ v, Call setB v (λ _, Ret VUndef))) (λ copy,
            NewEffect copy (λ _, Call setA (VNum 1) Ret)))))).

(** [const [n] = signal(0); const c = () => {};
    const d = effect(() => { n(); return c })] *)
Definition cleaning : prog :=
  NewSignal (VNum 0) (λ n _,
    MkFun (λ _, Ret VUndef) (λ c,
      MkFun (λ _, Call n VUndef (λ _, Ret c)) (λ body,
        NewEffect body (λ d, Ret d)))).

(** [const d = effect(() => { if (n() !== 0) { d(); n() } }); setN(1)] *)
Definition self_disposing : prog :=
  NewSignal (VNum 0) (λ n setN,
    MkFun (λ _, Call n VUndef (λ v,
             match v with
             | VNum 0 => Ret VUndef
             | _ => Call (VDisposer 0) VUndef (λ _, Call n VUndef (λ _, Ret VUndef))
             end)) (λ body,
      NewEffect body (λ _, Call setN (VNum 1) Ret))).


(** * Properties *)

(** ** Sets as lists *)

Lemma elem_of_set_add (x y : nat) (l : list nat) :
  y ∈ set_add x l ↔ y = x ∨ y ∈ l.
Proof.
  unfold set_add. case_decide.
  - split; [by right | by intros [-> | ?]].
  - rewrite elem_of_app, list_elem_of_singleton. tauto.
Qed.

Lemma elem_of_set_delete (x y : nat) (l : list nat) :
  y ∈ set_delete x l ↔ y ≠ x ∧ y ∈ l.
Proof. unfold set_delete. by rewrite list_elem_of_filter. Qed.

Lemma NoDup_set_add (x : nat) (l : list nat) : NoDup l → NoDup (set_add x l).
Proof.
  intros Hl. unfold set_add. case_decide; [done |].
  apply NoDup_app. split_and!; [done | | apply NoDup_singleton].
  intros y Hy Hx. apply list_elem_of_singleton in Hx. by subst.
Qed.

(** ** What the loops of the module leave alone *)

Lemma foldl_frame {A B} (proj : state → A) (f : state → B → state) (l : list B) (st : state) :
  (∀ st x, proj (f st x) = proj st) → proj (foldl f st l) = proj st.
Proof.
  intros Hf. revert st. induction l as [| x l IH]; intros st; simpl; [done |].
  by rewrite IH.
Qed.

Lemma schedule_frame (job : nat) (st : state) :
  currentEffect (schedule job st) = currentEffect st
  ∧ signals (schedule job st) = signals st
  ∧ effects (schedule job st) = effects st
  ∧ closures (schedule job st) = closures st
  ∧ scopes (schedule job st) = scopes st
  ∧ log (schedule job st) = log st.
Proof. unfold schedule. repeat case_decide; repeat case_match; done. Qed.

Lemma notify_frame (s : nat) (st : state) :
  currentEffect (notify s st) = currentEffect st
  ∧ signals (notify s st) = signals st
  ∧ effects (notify s st) = effects st
  ∧ closures (notify s st) = closures st
  ∧ scopes (notify s st) = scopes st
  ∧ log (notify s st) = log st.
Proof.
  unfold notify.
  split_and!; apply (foldl_frame _ (λ st sub, schedule sub st)); intros; apply schedule_frame.
Qed.

Lemma unsubscribe_frame (e : nat) (st : state) :
  currentEffect (unsubscribe e st) = currentEffect st
  ∧ effects (unsubscribe e st) = effects st
  ∧ closures (unsubscribe e st) = closures st
  ∧ scopes (unsubscribe e st) = scopes st
  ∧ flushing (unsubscribe e st) = flushing st
  ∧ queue (unsubscribe e st) = queue st
  ∧ microtasks (unsubscribe e st) = microtasks st
  ∧ log (unsubscribe e st) = log st.
Proof.
  unfold unsubscribe.
  split_and!; by apply (foldl_frame _ (λ st s, upd_subs s (set_delete e) st)).
Qed.

Lemma unsubscribe_length (e : nat) (st : state) :
  length (signals (unsubscribe e st)) = length (signals st).
Proof.
  unfold unsubscribe.
  apply (foldl_frame (λ st, length (signals st)) (λ st s, upd_subs s (set_delete e) st)).
  intros st' x. simpl. by rewrite length_alter.
Qed.

(** ** The tracking context is restored *)

Lemma trans_currentEffect (st st' : state) :
  trans st st' → currentEffect st' = currentEffect st.
Proof.
  induction 1; simpl; try done.
  - congruence.
  - apply notify_frame.
  - apply unsubscribe_frame.
Qed.

(** ** Every call into the module is an execution *)

Lemma upd_effects_same (f : list Effect → list Effect) (st : state) :
  f (effects st) = effects st → upd_effects f st = st.
Proof. destruct st; unfold upd_effects; simpl; intros ->; done. Qed.

Lemma alter_fresh {A} (f : A → A) (l : list A) (x : A) :
  alter f (length l) (l ++ [x]) = l ++ [f x].
Proof.
  induction l as [| y l IH]; simpl; [done |].
  by rewrite <- IH.
Qed.

Lemma bind_Some (r : result) (k : jsval → state → result) (st' : state) (o : outcome) :
  bind r k = Some (st', o) →
  (∃ st1 v, r = Some (st1, Normal v) ∧ k v st1 = Some (st', o))
  ∨ (∃ v, r = Some (st', Thrown v) ∧ o = Thrown v).
Proof.
  destruct r as [[st1 [v | v]] |]; simpl; intros H; [left | right |]; try done.
  - eauto.
  - inversion H; subst. eauto.
Qed.

Lemma finally_Some (r : result) (after : state → state) (st' : state) (o : outcome) :
  finally r after = Some (st', o) →
  ∃ st1, r = Some (st1, o) ∧ st' = after st1.
Proof.
  destruct r as [[st1 o1] |]; simpl; intros H; [| done].
  inversion H; subst. eauto.
Qed.

Section Executions.

Variable call : jsval → jsval → state → result.
Hypothesis call_trans : ∀ f arg st st' o,
  call f arg st = Some (st', o) → trans st st'.

Lemma call_each_trans before fs st st' o :
  (∀ f st, trans st (before f st)) →
  call_each call before fs st = Some (st', o) → trans st st'.
Proof.
  intros Hb. revert st. induction fs as [| f fs IH]; intros st; simpl.
  - intros [= <- <-]. apply trans_refl.
  - intros [(st1 & v & H1 & H2) | (v & H1 & ->)]%bind_Some.
    + eapply trans_trans; [apply Hb |].
      eapply trans_trans; [eapply call_trans, H1 | by apply IH].
    + eapply trans_trans; [apply Hb | eapply call_trans, H1].
Qed.

Lemma getter_trans s st st' o :
  getter s st = Some (st', o) → trans st st'.
Proof.
  unfold getter. destruct (signals st !! s) as [sg |] eqn:Hs.
  - intros [= <- <-]. destruct (currentEffect st) as [e |] eqn:Hc.
    + by apply trans_read_tracked.
    + by apply trans_read_untracked.
  - intros [= <- <-]. apply trans_refl.
Qed.

Lemma setter_trans s nextValue st st' o :
  setter call s nextValue st = Some (st', o) → trans st st'.
Proof.
  unfold setter. destruct (signals st !! s) as [sg |].
  - assert (∀ st1 o1, candidate call s nextValue st = Some (st1, o1) → trans st st1) as Hc.
    { unfold candidate. destruct (is_function nextValue).
      - intros ??; apply call_trans.
      - intros ?? [= <- <-]. apply trans_refl. }
    intros [(st1 & v & H1 & H2) | (v & H1 & ->)]%bind_Some; [| by eapply Hc].
    apply Hc in H1. destruct (object_is _ _); injection H2 as <- <-; [done |].
    eapply trans_trans; [apply H1 |].
    eapply trans_trans; [apply trans_write | apply trans_notify].
  - intros [= <- <-]. apply trans_refl.
Qed.

Lemma dispose_trans e st st' o :
  dispose call e st = Some (st', o) → trans st st'.
Proof.
  unfold dispose. destruct (effects st !! e) as [ef |] eqn:He.
  - intros [(st1 & v & H1 & H2) | (v & H1 & ->)]%bind_Some.
    + injection H2 as <- <-.
      apply call_each_trans in H1 as Ht; [| intros; apply trans_refl].
      eapply trans_trans; [apply Ht | apply trans_dispose].
    + apply call_each_trans in H1; [done | intros; apply trans_refl].
  - intros [= <- <-]. apply trans_refl.
Qed.

Lemma effect_trans fn st st' o :
  effect call fn st = Some (st', o) → trans st st'.
Proof.
  unfold effect, run.
  set (e := length (effects st)).
  set (st1 := upd_effects (λ l, l ++ [mkEffect fn [] []]) st).
  assert (effects st1 !! e = Some (mkEffect fn [] [])) as ->.
  { subst e st1. simpl. by rewrite lookup_app_r, Nat.sub_diag. }
  simpl call_each. unfold ret at 1. simpl bind at 2.
  assert (upd_cleanups e (λ _, []) st1 = st1) as ->.
  { apply upd_effects_same. subst e st1. simpl. by rewrite alter_fresh. }
  assert (unsubscribe e st1 = st1) as ->.
  { unfold unsubscribe, deps_of. subst e st1. simpl.
    by rewrite lookup_app_r, Nat.sub_diag. }
  assert (upd_deps e (λ _, []) st1 = st1) as ->.
  { apply upd_effects_same. subst e st1. simpl. by rewrite alter_fresh. }
  change (record (EvBody e) _) with (enter_effect fn st).
  simpl currentEffect.
  intros [(st2 & v & H1 & H2) | (v & H1 & ->)]%bind_Some.
  - injection H2 as <- <-.
    apply finally_Some in H1 as (st3 & H1 & ->).
    apply bind_Some in H1 as [(st4 & c & H1 & H2) | (c & H1 & ?)]; [| done].
    apply call_trans in H1.
    destruct (truthy c && is_function c); injection H2 as <-.
    + by apply (trans_effect fn (Some c)).
    + by apply (trans_effect fn None).
  - apply finally_Some in H1 as (st3 & H1 & ->).
    apply bind_Some in H1 as [(st4 & c & H1 & H2) | (c & H1 & ?)].
    + by destruct (truthy c && is_function c).
    + apply call_trans in H1. by apply (trans_effect fn None).
Qed.

Lemma ignore_trans fn st st' o :
  ignore call fn st = Some (st', o) → trans st st'.
Proof.
  unfold ignore. intros (st1 & H1 & ->)%finally_Some.
  apply trans_ignore. by eapply call_trans.
Qed.

Lemma scope_trans fn st st' o :
  scope call fn st = Some (st', o) → trans st st'.
Proof.
  unfold scope. intros (st1 & H1 & ->)%finally_Some.
  apply bind_Some in H1 as [(st2 & v & H1 & H2) | (v & H1 & ?)].
  - apply call_trans in H1 as Ht.
    apply trans_currentEffect in Ht as Hc. simpl in Hc, H2.
    rewrite Hc in H2. injection H2 as <- <-.
    by apply trans_scope.
  - apply trans_scope. by eapply call_trans.
Qed.

Lemma scope_each_trans c n i st st' o :
  scope_each call c n i st = Some (st', o) → trans st st'.
Proof.
  revert i st. induction n as [| n IH]; intros i st; simpl.
  - intros [= <- <-]. apply trans_refl.
  - destruct (scope_cleanups c st !! i) as [f |]; [| apply IH].
    intros [(st1 & v & H1 & H2) | (v & H1 & ->)]%bind_Some.
    + eapply trans_trans; [by eapply call_trans | by eapply IH].
    + by eapply call_trans.
Qed.

Lemma scope_dispose_trans c st st' o :
  scope_dispose call c st = Some (st', o) → trans st st'.
Proof.
  unfold scope_dispose. destruct (scopes st !! c) as [l |].
  - intros [(st1 & v & H1 & H2) | (v & H1 & ->)]%bind_Some.
    + injection H2 as <- <-.
      eapply trans_trans; [by eapply scope_each_trans | apply trans_scope_clear].
    + by eapply scope_each_trans.
  - intros [= <- <-]. apply trans_refl.
Qed.

Lemma scope_hook_trans st st' o :
  scope_hook call st = Some (st', o) → trans st st'.
Proof.
  unfold scope_hook. destruct (currentEffect st) as [e |].
  - intros H. eapply call_each_trans; [| done]. intros; apply trans_refl.
  - intros [= <- <-]. apply trans_refl.
Qed.

Lemma exec_trans p st st' o :
  exec call p st = Some (st', o) → trans st st'.
Proof.
  revert st st' o.
  induction p as [v | v | body _ k IH | f arg k IH | v k IH | fn k IH | fn k IH | fn k IH
                 | body IHb handler IHh k IHk]; intros st st' o; simpl.
  - intros [= <- <-]. apply trans_refl.
  - intros [= <- <-]. apply trans_refl.
  - intros H. eapply trans_trans; [apply trans_closure | by eapply IH].
  - destruct (call f arg st) as [[st1 [v | v]] |] eqn:Hc; [| | done].
    + intros H. eapply trans_trans; [by eapply call_trans | by eapply IH].
    + intros [= <- <-]. by eapply call_trans.
  - intros H. eapply trans_trans; [apply trans_signal | by eapply IH].
  - destruct (effect call fn st) as [[st1 [v | v]] |] eqn:Hc; [| | done].
    + intros H. eapply trans_trans; [by eapply effect_trans | by eapply IH].
    + intros [= <- <-]. by eapply effect_trans.
  - destruct (ignore call fn st) as [[st1 [v | v]] |] eqn:Hc; [| | done].
    + intros H. eapply trans_trans; [by eapply ignore_trans | by eapply IH].
    + intros [= <- <-]. by eapply ignore_trans.
  - destruct (scope call fn st) as [[st1 [v | v]] |] eqn:Hc; [| | done].
    + intros H. eapply trans_trans; [by eapply scope_trans | by eapply IH].
    + intros [= <- <-]. by eapply scope_trans.
  - destruct (exec call body st) as [[st1 [v | v]] |] eqn:Hb; [| | done].
    + intros H. eapply trans_trans; [by eapply IHb | by eapply IHk].
    + destruct (exec call (handler v) st1) as [[st2 [v' | v']] |] eqn:Hh; [| | done].
      * intros H. eapply trans_trans; [by eapply IHb |].
        eapply trans_trans; [by eapply IHh | by eapply IHk].
      * intros [= <- <-]. eapply trans_trans; [by eapply IHb | by eapply IHh].
Qed.

Lemma apply_trans f arg st st' o :
  apply call f arg st = Some (st', o) → trans st st'.
Proof.
  unfold apply. intros H.
  eapply trans_trans; [apply (trans_apply f) |].
  destruct f; simpl in H.
  - injection H as <- <-. apply trans_refl.
  - injection H as <- <-. apply trans_refl.
  - destruct (closures st !! c) as [body |].
    + by eapply exec_trans.
    + injection H as <- <-. apply trans_refl.
  - by eapply getter_trans.
  - by eapply setter_trans.
  - by eapply dispose_trans.
  - by eapply scope_dispose_trans.
  - by eapply scope_hook_trans.
Qed.

End Executions.

Lemma call_trans fuel f arg st st' o :
  call fuel f arg st = Some (st', o) → trans st st'.
Proof.
  revert f arg st st' o. induction fuel as [| n IH]; intros f arg st st' o; simpl; [done |].
  by apply apply_trans.
Qed.

Lemma task_trans fuel p st st' o :
  exec (call fuel) p st = Some (st', o) → trans st st'.
Proof. apply exec_trans. intros ?????. apply call_trans. Qed.

(** ** Reading the heap after an update *)

Lemma subs_of_upd_subs s s' f st :
  subs_of s' (upd_subs s f st) =
  if decide (s = s' ∧ s < length (signals st)) then f (subs_of s' st) else subs_of s' st.
Proof.
  unfold subs_of, upd_subs. simpl. case_decide as Hd.
  - destruct Hd as [<- Hlt]. rewrite list_lookup_alter_eq.
    apply lookup_lt_is_Some in Hlt as [sg ->]. done.
  - destruct (decide (s = s')) as [<- | Hne].
    + rewrite list_lookup_alter_eq.
      rewrite (lookup_ge_None_2 (signals st) s) by lia. done.
    + by rewrite list_lookup_alter_ne.
Qed.

Lemma deps_of_upd_deps e e' f st :
  deps_of e' (upd_deps e f st) =
  if decide (e = e' ∧ e < length (effects st)) then f (deps_of e' st) else deps_of e' st.
Proof.
  unfold deps_of, upd_deps. simpl. case_decide as Hd.
  - destruct Hd as [<- Hlt]. rewrite list_lookup_alter_eq.
    apply lookup_lt_is_Some in Hlt as [ef ->]. done.
  - destruct (decide (e = e')) as [<- | Hne].
    + rewrite list_lookup_alter_eq.
      rewrite (lookup_ge_None_2 (effects st) e) by lia. done.
    + by rewrite list_lookup_alter_ne.
Qed.


Lemma deps_of_upd_cleanups e e' f st :
  deps_of e' (upd_cleanups e f st) = deps_of e' st.
Proof.
  unfold deps_of, upd_cleanups. simpl.
  destruct (decide (e = e')) as [<- | Hne].
  - rewrite list_lookup_alter_eq. by destruct (effects st !! e).
  - by rewrite list_lookup_alter_ne.
Qed.

Lemma cleanups_of_upd_deps e e' f st :
  cleanups_of e' (upd_deps e f st) = cleanups_of e' st.
Proof.
  unfold cleanups_of, upd_deps. simpl.
  destruct (decide (e = e')) as [<- | Hne].
  - rewrite list_lookup_alter_eq. by destruct (effects st !! e).
  - by rewrite list_lookup_alter_ne.
Qed.

Lemma deps_of_unsubscribe e e' st : deps_of e' (unsubscribe e st) = deps_of e' st.
Proof. unfold deps_of. by destruct (unsubscribe_frame e st) as (_ & -> & _). Qed.

Lemma cleanups_of_unsubscribe e e' st : cleanups_of e' (unsubscribe e st) = cleanups_of e' st.
Proof. unfold cleanups_of. by destruct (unsubscribe_frame e st) as (_ & -> & _). Qed.

(** Push the reads of the heap through the updates of other tables. *)
Ltac below_signals st :=
  lazymatch st with
  | record _ ?st0 => below_signals st0
  | set_currentEffect _ ?st0 => below_signals st0
  | upd_effects _ ?st0 => below_signals st0
  | upd_deps _ _ ?st0 => below_signals st0
  | upd_cleanups _ _ ?st0 => below_signals st0
  | push_cleanup _ _ ?st0 => below_signals st0
  | upd_closures _ ?st0 => below_signals st0
  | upd_scopes _ ?st0 => below_signals st0
  | upd_scope _ _ ?st0 => below_signals st0
  | set_flushing _ ?st0 => below_signals st0
  | upd_queue _ ?st0 => below_signals st0
  | upd_microtasks _ ?st0 => below_signals st0
  | _ => st
  end.

Ltac below_effects st :=
  lazymatch st with
  | record _ ?st0 => below_effects st0
  | set_currentEffect _ ?st0 => below_effects st0
  | upd_signals _ ?st0 => below_effects st0
  | upd_subs _ _ ?st0 => below_effects st0
  | set_value _ _ ?st0 => below_effects st0
  | signal _ ?st0 => below_effects st0
  | upd_closures _ ?st0 => below_effects st0
  | upd_scopes _ ?st0 => below_effects st0
  | upd_scope _ _ ?st0 => below_effects st0
  | set_flushing _ ?st0 => below_effects st0
  | upd_queue _ ?st0 => below_effects st0
  | upd_microtasks _ ?st0 => below_effects st0
  | _ => st
  end.

Ltac heap :=
  repeat first
    [ rewrite deps_of_upd_cleanups
    | rewrite cleanups_of_upd_deps
    | rewrite deps_of_unsubscribe
    | rewrite cleanups_of_unsubscribe
    | match goal with
      | |- context [subs_of ?s ?st] =>
          let st0 := below_signals st in
          progress change (subs_of s st) with (subs_of s st0)
      | |- context [value_of ?s ?st] =>
          let st0 := below_signals st in
          progress change (value_of s st) with (value_of s st0)
      | |- context [deps_of ?e ?st] =>
          let st0 := below_effects st in
          progress change (deps_of e st) with (deps_of e st0)
      | |- context [cleanups_of ?e ?st] =>
          let st0 := below_effects st in
          progress change (cleanups_of e st) with (cleanups_of e st0)
      end ].

Lemma subs_of_unsubscribe e e' s st :
  e' ∈ subs_of s (unsubscribe e st) ↔
  e' ∈ subs_of s st ∧ ¬ (e' = e ∧ s ∈ deps_of e st).
Proof.
  unfold unsubscribe. generalize (deps_of e st) as l. intros l. revert st.
  induction l as [| s0 l IH]; intros st; simpl.
  - rewrite elem_of_nil. tauto.
  - rewrite IH, subs_of_upd_subs, elem_of_cons. case_decide as Hd.
    + destruct Hd as [-> _]. rewrite elem_of_set_delete. clear IH. intuition auto.
    + destruct (decide (s0 = s)) as [-> | Hne]; [| clear IH; intuition auto].
      assert (subs_of s st = []) as ->.
      { unfold subs_of. rewrite lookup_ge_None_2; [done | lia]. }
      rewrite elem_of_nil. tauto.
Qed.

(** ** Objects are never freed, and the body and cleanups of an effect are
    the business of its own runs *)

Lemma extends_refl st : extends st st.
Proof. unfold extends. split_and!; eauto. Qed.

Lemma extends_trans st1 st2 st3 : extends st1 st2 → extends st2 st3 → extends st1 st3.
Proof.
  intros (? & ? & ? & ? & Ha) (? & ? & ? & ? & Hb).
  split_and!; [lia | lia | by etrans | lia |].
  intros e ef (ef' & He' & <- & <-)%Ha. by apply Hb.
Qed.

Lemma extends_effects_same st st' :
  signals st = signals st' ∨ length (signals st) ≤ length (signals st') →
  effects st' = effects st → closures st' = closures st → scopes st' = scopes st →
  extends st st'.
Proof.
  intros Hs He Hc Hsc. unfold extends. rewrite He, Hc, Hsc.
  split_and!; eauto. destruct Hs as [-> | ?]; done.
Qed.

Lemma extends_upd_deps e f st : extends st (upd_deps e f st).
Proof.
  split_and!; simpl; try done.
  - by rewrite length_alter.
  - intros e' ef He. destruct (decide (e = e')) as [<- | Hne].
    + rewrite list_lookup_alter_eq, He. simpl. eauto.
    + rewrite list_lookup_alter_ne by done. eauto.
Qed.

Lemma extends_fresh_cleanups st1 st' n f :
  length (effects st1) ≤ n → extends st1 st' → extends st1 (upd_cleanups n f st').
Proof.
  intros Hn (? & ? & ? & ? & H). split_and!; simpl; try done.
  - by rewrite length_alter.
  - intros e ef He. apply lookup_lt_Some in He as Hlt.
    rewrite list_lookup_alter_ne by lia. by apply H.
Qed.

Lemma extends_alloc_effect ef st : extends st (upd_effects (λ l, l ++ [ef]) st).
Proof.
  split_and!; simpl; try done.
  - rewrite length_app. lia.
  - intros e ef' He. rewrite lookup_app_l_Some with (x := ef'); eauto.
Qed.

Lemma trans_extends st st' : trans st st' → extends st st'.
Proof.
  induction 1.
  - apply extends_refl.
  - by eapply extends_trans.
  - by apply extends_effects_same; [left | ..].
  - split_and!; simpl; eauto. by apply prefix_app_r.
  - split_and!; simpl; eauto. rewrite length_app. lia.
  - by apply extends_effects_same; [left | ..].
  - eapply extends_trans; [| apply (extends_effects_same (upd_deps e (set_add s) (upd_subs s (set_add e) st)));
                             [by left | done..]].
    eapply extends_trans; [| apply extends_upd_deps].
    apply extends_effects_same; [right; simpl; by rewrite length_alter | done..].
  - apply extends_effects_same; [right; simpl; by rewrite length_alter | done..].
  - destruct (notify_frame s st) as (? & ? & ? & ? & ? & ?).
    by apply extends_effects_same; [left | ..].
  - destruct (unsubscribe_frame e st) as (? & ? & ? & ? & _).
    apply extends_effects_same; [right | done..]. simpl.
    by rewrite unsubscribe_length.
  - split_and!; simpl; eauto. by rewrite length_alter.
  - eapply extends_trans; [| apply (extends_effects_same st'); [by left | done..]].
    eapply extends_trans; [| apply IHtrans].
    by apply extends_effects_same; [left | ..].
  - eapply extends_trans; [| apply (extends_effects_same st'); [by left | done..]].
    eapply extends_trans; [| apply IHtrans].
    split_and!; simpl; eauto. rewrite length_app. lia.
  - assert (extends st (enter_effect f st)) as He.
    { eapply extends_trans; [apply (extends_alloc_effect (mkEffect f [] [])) |].
      by apply extends_effects_same; [left | ..]. }
    eapply extends_trans;
      [| apply (extends_effects_same (push_cleanup (length (effects st)) oc st')); [by left | done..]].
    destruct oc as [c |]; simpl.
    + apply extends_fresh_cleanups; [done | by eapply extends_trans].
    + by eapply extends_trans.
Qed.

(** ** The history of an execution *)

Lemma subscribed_elem_of e s l : subscribed e s l = true → EvRead (Some e) s ∈ l.
Proof.
  induction l as [| ev l IH]; simpl; [done |].
  destruct ev as [[e' |] s' | e' | e' | e' c | e' | e' | f]; try (intros ?%IH; by right).
  - case_decide as Hd; [destruct Hd as [-> ->]; left | intros ?%IH; by right].
  - case_decide; [done | intros ?%IH; by right].
  - case_decide; [done | intros ?%IH; by right].
Qed.

Lemma tracked_elem_of e s l : tracked e s l = true → EvRead (Some e) s ∈ l.
Proof.
  induction l as [| ev l IH]; simpl; [done |].
  destruct ev as [[e' |] s' | e' | e' | e' c | e' | e' | f]; try (intros ?%IH; by right).
  - case_decide as Hd; [destruct Hd as [-> ->]; left | intros ?%IH; by right].
  - case_decide; [done | intros ?%IH; by right].
Qed.

Lemma subscribed_tracked e s l : subscribed e s l = true → tracked e s l = true.
Proof.
  induction l as [| ev l IH]; simpl; [done |].
  destruct ev as [[e' |] s' | e' | e' | e' c | e' | e' | f]; try done.
  - by case_decide.
  - by case_decide.
  - by case_decide.
Qed.

Lemma consistent_subs_deps st e s :
  consistent st → e ∈ subs_of s st → s ∈ deps_of e st.
Proof.
  intros Hc Hs. apply (log_deps _ Hc), subscribed_tracked. by apply (log_subs _ Hc).
Qed.

(** A state that differs where the invariant does not look. *)
Lemma consistent_frame st st' :
  currentEffect st' = currentEffect st →
  length (effects st') = length (effects st) →
  length (signals st') = length (signals st) →
  log st' = log st →
  (∀ s, subs_of s st' = subs_of s st) →
  (∀ e, deps_of e st' = deps_of e st) →
  consistent st → consistent st'.
Proof.
  intros Hc He Hs Hl Hsubs Hdeps [H1 H2 H3 H4].
  split; rewrite ?Hc, ?He, ?Hs, ?Hl; try done.
  - intros e s. rewrite Hsubs. apply H3.
  - intros e s. rewrite Hdeps. apply H4.
Qed.

Lemma consistent_set_currentEffect c st :
  (∀ e, c = Some e → e < length (effects st)) →
  consistent st → consistent (set_currentEffect c st).
Proof. intros Hc [H1 H2 H3 H4]. split; done. Qed.

Lemma consistent_record st ev :
  match ev with EvRead (Some _) _ | EvReset _ | EvDispose _ => False | _ => True end →
  consistent st → consistent (record ev st).
Proof.
  intros Hev [H1 H2 H3 H4]. split; simpl; try done.
  - intros e s [Heq | Hin]%elem_of_cons; [by subst | by apply H2].
  - intros e s. rewrite (H3 e s). by destruct ev as [[?|] ?| | | | | |].
  - intros e s. rewrite (H4 e s). by destruct ev as [[?|] ?| | | | | |].
Qed.

Lemma subs_of_alloc_signal sg s st :
  subs_of s (upd_signals (λ l, l ++ [sg]) st) =
  if decide (s = length (signals st)) then subs sg else subs_of s st.
Proof.
  unfold subs_of. simpl. case_decide as Hd.
  - subst. by rewrite lookup_app_r, Nat.sub_diag.
  - destruct (decide (s < length (signals st))).
    + by rewrite lookup_app_l.
    + rewrite !lookup_ge_None_2; [done | lia |]. rewrite length_app. simpl. lia.
Qed.

Lemma deps_of_alloc_effect ef e st :
  deps_of e (upd_effects (λ l, l ++ [ef]) st) =
  if decide (e = length (effects st)) then deps ef else deps_of e st.
Proof.
  unfold deps_of. simpl. case_decide as Hd.
  - subst. by rewrite lookup_app_r, Nat.sub_diag.
  - destruct (decide (e < length (effects st))).
    + by rewrite lookup_app_l.
    + rewrite !lookup_ge_None_2; [done | lia |]. rewrite length_app. simpl. lia.
Qed.

Lemma consistent_signal v st : consistent st → consistent (signal v st).
Proof.
  intros [H1 H2 H3 H4]. split; simpl; try done.
  - intros e s [? ?]%H2. rewrite length_app. simpl. lia.
  - intros e s. unfold signal. rewrite subs_of_alloc_signal. simpl signals.
    case_decide; [| apply H3].
    subst. simpl. rewrite elem_of_nil. split; [done |].
    intros [_ ?]%subscribed_elem_of%H2. lia.
Qed.

Lemma consistent_enter_effect f st : consistent st → consistent (enter_effect f st).
Proof.
  intros [H1 H2 H3 H4]. unfold enter_effect. split; simpl.
  - intros e [= <-]. rewrite length_app. simpl. lia.
  - intros e s [? | [? | [? ?]%H2]%elem_of_cons]%elem_of_cons; try done.
    rewrite length_app. simpl. lia.
  - intros e s. case_decide as Hd; [| apply H3].
    subst. split; [| done]. intros [? _]%H3%subscribed_elem_of%H2. lia.
  - intros e s. heap.
    rewrite deps_of_alloc_effect. case_decide as Hd.
    + subst. rewrite decide_True by done. simpl. by rewrite elem_of_nil.
    + rewrite decide_False by done. apply H4.
Qed.

Lemma consistent_read_tracked e s st :
  currentEffect st = Some e → is_Some (signals st !! s) →
  consistent st →
  consistent (record (EvRead (Some e) s) (upd_deps e (set_add s) (upd_subs s (set_add e) st))).
Proof.
  intros Hc Hs [H1 H2 H3 H4].
  apply H1 in Hc as He. apply lookup_lt_is_Some in Hs.
  split; simpl.
  - intros e'. rewrite !length_alter. apply H1.
  - intros e' s'. rewrite !length_alter.
    intros [[= -> ->] | ?%H2]%elem_of_cons; done.
  - intros e' s'. heap.
    rewrite subs_of_upd_subs. case_decide as Hd1; case_decide as Hd2.
    + rewrite elem_of_set_add. destruct Hd2 as [-> _]. split; auto.
    + rewrite elem_of_set_add, (H3 e' s'). destruct Hd1 as [-> _].
      split; [intros [-> | ?]; [exfalso; by apply Hd2 | done] | by right].
    + destruct Hd2 as [-> ->]. exfalso. by apply Hd1.
    + apply H3.
  - intros e' s'. heap.
    rewrite deps_of_upd_deps. heap. simpl effects.
    case_decide as Hd1; case_decide as Hd2.
    + rewrite elem_of_set_add. destruct Hd2 as [_ ->]. split; auto.
    + rewrite elem_of_set_add, (H4 e' s'). destruct Hd1 as [-> _].
      split; [intros [-> | ?]; [exfalso; by apply Hd2 | done] | by right].
    + destruct Hd2 as [-> ->]. exfalso. by apply Hd1.
    + apply H4.
Qed.

Lemma consistent_dispose e st :
  consistent st → consistent (record (EvDispose e) (unsubscribe e st)).
Proof.
  intros Hc. pose proof Hc as [H1 H2 H3 H4].
  destruct (unsubscribe_frame e st) as (Hf1 & Hf2 & _ & _ & _ & _ & _ & Hf8).
  split; simpl; rewrite ?Hf1, ?Hf2, ?Hf8, ?unsubscribe_length; try done.
  - intros e' s [? | ?%H2]%elem_of_cons; done.
  - intros e' s. heap.
    rewrite subs_of_unsubscribe. case_decide as Hd.
    + subst e'. split; [| done]. intros [Hs Hn]. exfalso. apply Hn. split; [done |].
      by apply consistent_subs_deps.
    + rewrite (H3 e' s). split; [tauto | intros ?; split; [done | intros [? _]; by subst]].
  - intros e' s. heap. apply H4.
Qed.

Lemma consistent_restore st st0 st' :
  extends st0 st' → (∀ e, currentEffect st = Some e → e < length (effects st0)) →
  consistent st' → consistent (set_currentEffect (currentEffect st) st').
Proof.
  intros (_ & Hlen & _) Hc H. apply consistent_set_currentEffect; [| done].
  intros e ?%Hc. lia.
Qed.

Lemma trans_consistent st st' : trans st st' → consistent st → consistent st'.
Proof.
  induction 1 as [st | st1 st2 st3 _ IH1 _ IH2 | f st | body st | v st | s st Hc
                 | e s st Hc Hs | s v st | s st | e st | c st | st st' Ht IH | st st' Ht IH
                 | f oc st st' Ht IH]; intros Hcons.
  - done.
  - auto.
  - by apply consistent_record.
  - revert Hcons. by apply consistent_frame.
  - by apply consistent_signal.
  - by apply consistent_record.
  - by apply consistent_read_tracked.
  - revert Hcons. apply consistent_frame; try done.
    + simpl. by rewrite length_alter.
    + intros s'. unfold subs_of, set_value. simpl.
      destruct (decide (s = s')) as [<- | Hne].
      * rewrite list_lookup_alter_eq. by destruct (signals st !! s).
      * by rewrite list_lookup_alter_ne.
  - destruct (notify_frame s st) as (? & Hs & He & _ & _ & ?).
    revert Hcons. apply consistent_frame; try done; try congruence.
    + intros s'. unfold subs_of. by rewrite Hs.
    + intros e'. unfold deps_of. by rewrite He.
  - by apply consistent_dispose.
  - revert Hcons. by apply consistent_frame.
  - apply trans_extends in Ht as Hext.
    eapply consistent_restore; [apply Hext | apply Hcons |].
    apply IH. by apply consistent_set_currentEffect.
  - apply trans_extends in Ht as Hext.
    eapply consistent_restore; [apply Hext | apply Hcons |].
    apply IH. eapply consistent_frame; [..| apply (consistent_set_currentEffect None st); [done | apply Hcons]]; done.
  - apply trans_extends in Ht as Hext.
    assert (consistent (push_cleanup (length (effects st)) oc st')) as Hp.
    { assert (consistent st') as Hc' by by apply IH, consistent_enter_effect.
      destruct oc as [c |]; [| done]. revert Hc'. simpl.
      apply consistent_frame; try done.
      - simpl. by rewrite length_alter.
      - intros e. apply deps_of_upd_cleanups. }
    apply consistent_set_currentEffect; [| done].
    intros e ?%(ctx_alloc _ Hcons). destruct Hext as (_ & Hlen & _).
    simpl in Hlen. rewrite length_app in Hlen.
    destruct oc; simpl; rewrite ?length_alter; lia.
Qed.

Lemma consistent_init : consistent init.
Proof.
  split; simpl; try done.
  - intros e s ?%elem_of_nil. done.
  - intros e s. unfold subs_of. simpl. by rewrite elem_of_nil.
  - intros e s. unfold deps_of. simpl. by rewrite elem_of_nil.
Qed.

Lemma allowed_weaken st st' ev :
  (∀ e, currentEffect st' = Some e → currentEffect st = Some e ∨ length (effects st) ≤ e) →
  length (effects st) ≤ length (effects st') →
  allowed st' ev → allowed st ev.
Proof.
  intros Hc Hlen. destruct ev as [[e |] s | e | e | e c | e | e | f]; simpl; try done; try lia.
  intros [?%Hc | ?]; [done | right; lia].
Qed.

Lemma trans_log st st' :
  trans st st' → ∃ evs, log st' = evs ++ log st ∧ Forall (allowed st) evs.
Proof.
  induction 1 as [st | st1 st2 st3 Ht1 IH1 Ht2 IH2 | f st | body st | v st | s st Hc
                 | e s st Hc Hs | s v st | s st | e st | c st | st st' Ht IH | st st' Ht IH
                 | f oc st st' Ht IH].
  - by exists [].
  - destruct IH1 as (evs1 & Hl1 & H1), IH2 as (evs2 & Hl2 & H2).
    exists (evs2 ++ evs1). split; [by rewrite Hl2, Hl1, app_assoc |].
    apply Forall_app. split; [| done].
    eapply Forall_impl; [apply H2 |]. intros ev. apply allowed_weaken.
    + intros e. rewrite (trans_currentEffect _ _ Ht1). by left.
    + apply trans_extends in Ht1. apply Ht1.
  - exists [EvApply f]. split; [done |]. by apply Forall_singleton.
  - by exists [].
  - by exists [].
  - exists [EvRead None s]. split; [done |]. by apply Forall_singleton.
  - exists [EvRead (Some e) s]. split; [done |]. apply Forall_singleton. by left.
  - by exists [].
  - exists []. split; [apply notify_frame | done].
  - exists [EvDispose e]. split; [| by apply Forall_singleton].
    simpl. f_equal. apply unsubscribe_frame.
  - by exists [].
  - destruct IH as (evs & Hl & H). exists evs. split; [done |].
    eapply Forall_impl; [apply H |]. intros ev. by apply allowed_weaken.
  - destruct IH as (evs & Hl & H). exists evs. split; [done |].
    eapply Forall_impl; [apply H |]. intros ev. by apply allowed_weaken.
  - destruct IH as (evs & Hl & H).
    exists (evs ++ [EvBody (length (effects st)); EvReset (length (effects st))]). split.
    + destruct oc; simpl; rewrite Hl; simpl; by rewrite <- app_assoc.
    + apply Forall_app. split.
      * eapply Forall_impl; [apply H |]. intros ev. apply allowed_weaken; simpl.
        -- intros e [= <-]. by right.
        -- rewrite length_app. lia.
      * repeat constructor; simpl; lia.
Qed.

(** ** What callback code does to the scheduler *)

Lemma schedule_queue job st :
  queue (schedule job st) = if decide (job ∈ queue st) then queue st else queue st ++ [job].
Proof. unfold schedule. repeat case_decide; repeat case_match; done. Qed.

Lemma schedule_flushing job st : flushing (schedule job st) = true.
Proof.
  unfold schedule. case_decide; simpl; destruct (flushing st) eqn:Hf; simpl; try done.
Qed.

Lemma schedule_microtasks job st :
  microtasks (schedule job st) = if flushing st then microtasks st else S (microtasks st).
Proof. unfold schedule. case_decide; simpl; by destruct (flushing st). Qed.

Lemma sched_step_refl st : sched_step st st.
Proof. by split_and!. Qed.

Lemma sched_step_trans st1 st2 st3 :
  sched_step st1 st2 → sched_step st2 st3 → sched_step st1 st3.
Proof.
  intros (Ha1 & Ha2 & Ha3) (Hb1 & Hb2 & Hb3). split_and!.
  - by etrans.
  - intros [Hf ?]%Ha2. apply Hb2 in Hf as [? ?]. split; [done | congruence].
  - auto.
Qed.

Lemma sched_step_same st st' :
  queue st' = queue st → flushing st' = flushing st → microtasks st' = microtasks st →
  sched_step st st'.
Proof.
  intros Hq Hf Hm. unfold sched_step, sched_ok. rewrite Hq, Hf, Hm. by split_and!.
Qed.

Lemma sched_step_schedule job st : sched_step st (schedule job st).
Proof.
  unfold sched_step, sched_ok.
  rewrite schedule_queue, schedule_flushing, schedule_microtasks. split_and!.
  - case_decide; [done | by apply prefix_app_r].
  - by intros ->.
  - intros (Hnd & Hm & Hrest). split_and!; [| | done].
    + case_decide; [done |]. apply NoDup_app. split_and!; [done | | apply NoDup_singleton].
      intros x Hx ->%list_elem_of_singleton. done.
    + destruct (flushing st); [done |]. destruct Hrest as [-> _]; [done | lia].
Qed.

Lemma sched_step_notify s st : sched_step st (notify s st).
Proof.
  unfold notify. generalize (subs_of s st) as l. intros l. revert st.
  induction l as [| e l IH]; intros st; simpl; [apply sched_step_refl |].
  eapply sched_step_trans; [apply sched_step_schedule | apply IH].
Qed.

Lemma trans_sched_step st st' : trans st st' → sched_step st st'.
Proof.
  induction 1 as [st | st1 st2 st3 Ht1 IH1 Ht2 IH2 | f st | body st | v st | s st Hc
                 | e s st Hc Hs | s v st | s st | e st | c st | st st' Ht IH | st st' Ht IH
                 | f oc st st' Ht IH];
    try (by apply sched_step_same).
  - by eapply sched_step_trans.
  - apply sched_step_notify.
  - apply sched_step_same; simpl; apply unsubscribe_frame.
  - eapply sched_step_trans; [| by apply (sched_step_same st')].
    eapply sched_step_trans; [| apply IH]. by apply sched_step_same.
  - eapply sched_step_trans; [| by apply (sched_step_same st')].
    eapply sched_step_trans; [| apply IH]. by apply sched_step_same.
  - eapply sched_step_trans; [| apply (sched_step_same st'); by destruct oc].
    eapply sched_step_trans; [| apply IH]. by apply sched_step_same.
Qed.

(** ** The shape of a run *)

Lemma reset_currentEffect e st : currentEffect (reset e st) = currentEffect st.
Proof. unfold reset. simpl. by destruct (unsubscribe_frame e (upd_cleanups e (λ _, []) st)) as [-> _]. Qed.

Section Run.

Variable call : jsval → jsval → state → result.

Lemma run_unfold e st ef :
  effects st !! e = Some ef →
  run call e st =
  bind (call_each call (λ c, record (EvCleanup e c)) (cleanups ef) st) (λ _ st1,
    finally
      (bind (call (fn ef) VUndef (enter_run e st1)) (λ cleanup st6,
         ret VUndef (push_cleanup e (settle (Normal cleanup)) st6)))
      (set_currentEffect (currentEffect st1))).
Proof.
  intros He. unfold run. rewrite He.
  destruct (call_each _ _ _ _) as [[st1 [v | v]] |]; simpl; try done.
  fold (reset e st1). fold (enter_run e st1).
  destruct (unsubscribe_frame e (upd_cleanups e (λ _, []) st1)) as [-> _]. simpl.
  destruct (call _ _ (enter_run e st1)) as [[st6 [c | c]] |]; simpl; try done.
  by destruct (truthy c && is_function c).
Qed.

Lemma run_inv e st st' o :
  run call e st = Some (st', o) →
  (effects st !! e = None ∧ st' = st ∧ o = Thrown VUndef)
  ∨ ∃ ef, effects st !! e = Some ef ∧
     ((∃ v, call_each call (λ c, record (EvCleanup e c)) (cleanups ef) st
              = Some (st', Thrown v) ∧ o = Thrown v)
      ∨ ∃ st1 u st6 o6,
          call_each call (λ c, record (EvCleanup e c)) (cleanups ef) st
            = Some (st1, Normal u)
          ∧ call (fn ef) VUndef (enter_run e st1) = Some (st6, o6)
          ∧ st' = set_currentEffect (currentEffect st1) (push_cleanup e (settle o6) st6)
          ∧ o = run_outcome o6).
Proof.
  destruct (effects st !! e) as [ef |] eqn:He.
  - rewrite (run_unfold _ _ _ He). intros H. right. exists ef. split; [done |].
    apply bind_Some in H as [(st1 & u & H1 & H2) | (v & H1 & ->)]; [right | left; eauto].
    apply finally_Some in H2 as (st7 & H2 & ->).
    apply bind_Some in H2 as [(st6 & c & H2 & H3) | (v & H2 & ->)].
    + injection H3 as <- <-. by exists st1, u, st6, (Normal c).
    + by exists st1, u, st7, (Thrown v).
  - unfold run. rewrite He. intros [= <- <-]. by left.
Qed.

(** Whatever holds along callback code and along the step before each
    call holds along [forEach]. *)
Lemma call_each_rel (R : state → state → Prop) before fs st st' o :
  (∀ st, R st st) →
  (∀ st1 st2 st3, R st1 st2 → R st2 st3 → R st1 st3) →
  (∀ f st, R st (before f st)) →
  (∀ f arg st st' o, call f arg st = Some (st', o) → R st st') →
  call_each call before fs st = Some (st', o) → R st st'.
Proof.
  intros Hrefl Htrans Hb Hcall. revert st.
  induction fs as [| f fs IH]; intros st; simpl.
  - by intros [= <- <-].
  - intros [(st1 & v & H1 & H2) | (v & H1 & ->)]%bind_Some.
    + eapply Htrans; [apply Hb |]. eapply Htrans; [by eapply Hcall | by apply IH].
    + eapply Htrans; [apply Hb | by eapply Hcall].
Qed.

End Run.

(** ** The scheduler's steps *)

Lemma strans_refl st : strans st st.
Proof. apply strans_lift, trans_refl. Qed.

Lemma run_cleanups_strans fuel e fs st st' o :
  call_each (call fuel) (λ c, record (EvCleanup e c)) fs st = Some (st', o) → strans st st'.
Proof.
  apply call_each_rel.
  - apply strans_refl.
  - apply strans_trans.
  - intros. apply strans_cleanup.
  - intros ????? ?%call_trans. by apply strans_lift.
Qed.

Lemma run_cleanups_frame fuel e fs st st' o :
  call_each (call fuel) (λ c, record (EvCleanup e c)) fs st = Some (st', o) →
  extends st st' ∧ currentEffect st' = currentEffect st ∧ sched_step st st'.
Proof.
  intros H. split_and!.
  - revert H. apply call_each_rel.
    + apply extends_refl.
    + apply extends_trans.
    + intros. by apply extends_effects_same; [left | ..].
    + intros ????? ?%call_trans. by apply trans_extends.
  - revert H. apply (call_each_rel _ (λ st st', currentEffect st' = currentEffect st)).
    + done.
    + congruence.
    + done.
    + intros ????? ?%call_trans. by apply trans_currentEffect.
  - revert H. apply call_each_rel.
    + apply sched_step_refl.
    + apply sched_step_trans.
    + intros. by apply sched_step_same.
    + intros ????? ?%call_trans. by apply trans_sched_step.
Qed.

Lemma run_strans fuel e st st' o :
  run (call fuel) e st = Some (st', o) → strans st st'.
Proof.
  intros [(_ & -> & _) | (ef & He & [(v & H1 & _) | (st1 & u & st6 & o6 & H1 & H2 & -> & _)])]%run_inv.
  - apply strans_refl.
  - by eapply run_cleanups_strans.
  - eapply strans_trans; [by eapply run_cleanups_strans |].
    apply strans_run; [| by eapply call_trans].
    apply run_cleanups_frame in H1 as ((_ & _ & _ & _ & Hef) & _).
    destruct (Hef _ _ He) as (ef' & Hef' & _). by rewrite Hef'.
Qed.

Lemma flush_from_strans fuel n i st st' o :
  flush_from fuel n i st = Some (st', o) → strans st st'.
Proof.
  revert i st. induction n as [| n IH]; intros i st; simpl.
  - destruct (queue st !! i); [done |]. intros [= <- <-]. apply strans_refl.
  - destruct (queue st !! i) as [job |] eqn:Hq; [| intros [= <- <-]; apply strans_refl].
    intros [(st1 & v & H1 & H2) | (v & H1 & ->)]%bind_Some.
    + eapply strans_trans; [apply (strans_job job); by eapply list_elem_of_lookup_2 |].
      eapply strans_trans; [by eapply run_strans | by eapply IH].
    + eapply strans_trans; [apply (strans_job job); by eapply list_elem_of_lookup_2 |].
      by eapply run_strans.
Qed.

Lemma flush_strans fuel st st' o : flush fuel st = Some (st', o) → strans st st'.
Proof.
  unfold flush. intros [(st1 & v & H1 & H2) | (v & H1 & ->)]%bind_Some.
  - injection H2 as <- <-.
    eapply strans_trans; [by eapply flush_from_strans | apply strans_flushed].
  - by eapply flush_from_strans.
Qed.

Lemma microtask_strans fuel st st' o : microtask fuel st = Some (st', o) → strans st st'.
Proof.
  unfold microtask. destruct (microtasks st) as [| m] eqn:Hm.
  - intros [= <- <-]. apply strans_refl.
  - intros H. eapply strans_trans; [by apply (strans_microtask m) | by eapply flush_strans].
Qed.

Lemma reachable_strans st : reachable st → strans init st.
Proof.
  induction 1 as [| fuel p st st' o _ IH H | fuel st st' o _ IH H].
  - apply strans_refl.
  - eapply strans_trans; [apply IH |]. by eapply strans_lift, task_trans.
  - eapply strans_trans; [apply IH |]. by eapply microtask_strans.
Qed.

(** ** The invariant holds along the scheduler's steps *)

Lemma consistent_reset e st : consistent st → consistent (reset e st).
Proof.
  intros Hc. pose proof Hc as [H1 H2 H3 H4]. unfold reset.
  destruct (unsubscribe_frame e (upd_cleanups e (λ _, []) st))
    as (Hf1 & Hf2 & _ & _ & _ & _ & _ & Hf8).
  split; simpl; rewrite ?Hf1, ?Hf2, ?Hf8, ?unsubscribe_length; simpl; rewrite ?length_alter.
  - done.
  - intros e' s [? | ?%H2]%elem_of_cons; done.
  - intros e' s. heap.
    rewrite subs_of_unsubscribe. heap. case_decide as Hd.
    + subst e'. split; [| done]. intros [Hs Hn]. exfalso. apply Hn. split; [done |].
      by apply consistent_subs_deps.
    + rewrite (H3 e' s). split; [tauto | intros ?; split; [done | intros [? _]; by subst]].
  - intros e' s. heap. rewrite deps_of_upd_deps. case_decide as Hd1; case_decide as Hd2.
    + by rewrite elem_of_nil.
    + destruct Hd1 as [? _]. done.
    + subst e'. heap.
      assert (deps_of e st = []) as ->; [| by rewrite elem_of_nil].
      unfold deps_of. rewrite lookup_ge_None_2; [done |].
      apply Nat.nlt_ge. intros Hlt. apply Hd1. split; [done |].
      rewrite Hf2. simpl. by rewrite length_alter.
    + heap. apply H4.
Qed.

Lemma consistent_enter_run e st :
  is_Some (effects st !! e) → consistent st → consistent (enter_run e st).
Proof.
  intros He%lookup_lt_is_Some Hc. unfold enter_run.
  apply consistent_record; [done |].
  apply consistent_set_currentEffect; [| by apply consistent_reset].
  intros e' [= <-]. unfold reset. simpl.
  destruct (unsubscribe_frame e (upd_cleanups e (λ _, []) st)) as (_ & -> & _).
  simpl. by rewrite !length_alter.
Qed.

Lemma consistent_push_cleanup e oc st : consistent st → consistent (push_cleanup e oc st).
Proof.
  destruct oc as [c |]; [| done]. simpl. apply consistent_frame; try done.
  - simpl. by rewrite length_alter.
  - intros e'. apply deps_of_upd_cleanups.
Qed.

Lemma extends_enter_run_length e st : length (effects (enter_run e st)) = length (effects st).
Proof.
  unfold enter_run, reset. simpl.
  destruct (unsubscribe_frame e (upd_cleanups e (λ _, []) st)) as (_ & -> & _).
  simpl. by rewrite !length_alter.
Qed.

Lemma strans_consistent st st' : strans st st' → consistent st → consistent st'.
Proof.
  induction 1 as [st st' Ht | st1 st2 st3 _ IH1 _ IH2 | e c st | e oc st st' He Ht
                 | e st Hq | st | m st Hm]; intros Hc.
  - by eapply trans_consistent.
  - auto.
  - by apply consistent_record.
  - apply trans_extends in Ht as Hext.
    apply consistent_set_currentEffect.
    + intros e' ?%(ctx_alloc _ Hc). destruct Hext as (_ & Hlen & _).
      rewrite extends_enter_run_length in Hlen.
      destruct oc; simpl; rewrite ?length_alter; lia.
    + apply consistent_push_cleanup. eapply trans_consistent; [done |].
      by apply consistent_enter_run.
  - by apply consistent_record.
  - revert Hc. by apply consistent_frame.
  - revert Hc. by apply consistent_frame.
Qed.

Lemma strans_currentEffect st st' : strans st st' → currentEffect st' = currentEffect st.
Proof.
  induction 1; simpl; try done.
  - by apply trans_currentEffect.
  - congruence.
Qed.

(** ** The graph in every reachable state *)

Lemma reachable_consistent st : reachable st → consistent st.
Proof. intros H%reachable_strans. eapply strans_consistent; [done | apply consistent_init]. Qed.

Lemma reachable_currentEffect st : reachable st → currentEffect st = None.
Proof. intros H%reachable_strans. by apply strans_currentEffect in H. Qed.

(** ** The scheduler *)

Lemma jobs_of_app l1 l2 : jobs_of (l1 ++ l2) = jobs_of l2 ++ jobs_of l1.
Proof. unfold jobs_of. by rewrite omap_app, rev_app_distr. Qed.

Lemma jobs_of_allowed st evs : Forall (allowed st) evs → jobs_of evs = [].
Proof.
  unfold jobs_of. induction 1 as [| ev evs Hev _ IH]; [done |].
  destruct ev; simpl in *; try done.
Qed.

Lemma no_jobs_refl st : no_jobs st st.
Proof. by exists []. Qed.

Lemma no_jobs_trans st1 st2 st3 : no_jobs st1 st2 → no_jobs st2 st3 → no_jobs st1 st3.
Proof.
  intros (evs1 & Hl1 & Hj1) (evs2 & Hl2 & Hj2). exists (evs2 ++ evs1). split.
  - by rewrite Hl2, Hl1, app_assoc.
  - by rewrite jobs_of_app, Hj1, Hj2.
Qed.

Lemma no_jobs_same st st' : log st' = log st → no_jobs st st'.
Proof. intros Hl. by exists []. Qed.

Lemma trans_no_jobs st st' : trans st st' → no_jobs st st'.
Proof.
  intros (evs & Hl & Hall)%trans_log. exists evs. split; [done |].
  by eapply jobs_of_allowed.
Qed.

Lemma run_cleanups_no_jobs fuel e fs st st' o :
  call_each (call fuel) (λ c, record (EvCleanup e c)) fs st = Some (st', o) → no_jobs st st'.
Proof.
  apply call_each_rel.
  - apply no_jobs_refl.
  - apply no_jobs_trans.
  - intros f st0. by exists [EvCleanup e f].
  - intros ????? ?%call_trans. by apply trans_no_jobs.
Qed.

Lemma enter_run_sched e st :
  queue (enter_run e st) = queue st
  ∧ flushing (enter_run e st) = flushing st
  ∧ microtasks (enter_run e st) = microtasks st.
Proof.
  unfold enter_run, reset. simpl.
  destruct (unsubscribe_frame e (upd_cleanups e (λ _, []) st)) as (_ & _ & _ & _ & -> & -> & -> & _).
  done.
Qed.

Lemma enter_run_log e st : log (enter_run e st) = EvBody e :: EvReset e :: log st.
Proof.
  unfold enter_run, reset. simpl.
  by destruct (unsubscribe_frame e (upd_cleanups e (λ _, []) st)) as (_ & _ & _ & _ & _ & _ & _ & ->).
Qed.

Lemma run_sched_step fuel e st st' o :
  run (call fuel) e st = Some (st', o) → sched_step st st'.
Proof.
  intros [(_ & -> & _) | (ef & He & [(v & H1 & _) | (st1 & u & st6 & o6 & H1 & H2 & -> & _)])]%run_inv.
  - apply sched_step_refl.
  - by apply run_cleanups_frame in H1 as (_ & _ & H1).
  - apply run_cleanups_frame in H1 as (_ & _ & H1).
    eapply sched_step_trans; [apply H1 |].
    eapply sched_step_trans; [apply sched_step_same; apply enter_run_sched |].
    eapply sched_step_trans; [eapply trans_sched_step, call_trans, H2 |].
    apply sched_step_same; by destruct (settle o6).
Qed.

Lemma run_no_jobs fuel e st st' o :
  run (call fuel) e st = Some (st', o) → no_jobs st st'.
Proof.
  intros [(_ & -> & _) | (ef & He & [(v & H1 & _) | (st1 & u & st6 & o6 & H1 & H2 & -> & _)])]%run_inv.
  - apply no_jobs_refl.
  - by apply run_cleanups_no_jobs in H1.
  - apply run_cleanups_no_jobs in H1.
    eapply no_jobs_trans; [apply H1 |].
    eapply no_jobs_trans; [exists [EvBody e; EvReset e]; split; [apply enter_run_log | done] |].
    eapply no_jobs_trans; [eapply trans_no_jobs, call_trans, H2 |].
    apply no_jobs_same; by destruct (settle o6).
Qed.

(** One pass of the loop of [flush] from index [i]: the queue only grows at
    its end; if the pass completes, the jobs it invoked are the queue from
    [i] on as it stands at the end, in order; if a job throws, they are the
    queue from [i] up to that job. *)
Lemma flush_from_pass fuel n i st st' o :
  flush_from fuel n i st = Some (st', o) →
  sched_step st st'
  ∧ ∃ evs, log st' = evs ++ log st
      ∧ match o with
        | Normal _ => jobs_of evs = drop i (queue st')
        | Thrown _ => ∃ ran job rest,
            jobs_of evs = ran ++ [job] ∧ drop i (queue st') = ran ++ job :: rest
        end.
Proof.
  revert i st. induction n as [| n IH]; intros i st; simpl.
  - destruct (queue st !! i) eqn:Hq; [done |]. intros [= <- <-].
    split; [apply sched_step_refl |]. exists []. split; [done |].
    apply lookup_ge_None in Hq. by rewrite drop_ge.
  - destruct (queue st !! i) as [job |] eqn:Hq.
    + intros [(st1 & v & H1 & H2) | (v & H1 & ->)]%bind_Some.
      * apply run_sched_step in H1 as Hs1. apply run_no_jobs in H1 as (evs1 & Hl1 & Hj1).
        apply IH in H2 as (Hs2 & evs2 & Hl2 & Ho).
        assert (sched_step st st') as Hs.
        { eapply sched_step_trans; [| apply Hs2].
          eapply sched_step_trans; [| apply Hs1]. by apply sched_step_same. }
        split; [done |]. exists (evs2 ++ evs1 ++ [EvJob job]). split.
        { rewrite Hl2, Hl1. simpl. by rewrite <- !app_assoc. }
        assert (queue st' !! i = Some job) as Hq'.
        { destruct Hs as (Hpre & _). by eapply prefix_lookup_Some. }
        rewrite !jobs_of_app, Hj1. simpl.
        rewrite (drop_S _ _ _ Hq').
        destruct o as [w | w].
        -- by rewrite Ho.
        -- destruct Ho as (ran & job' & rest & -> & ->).
           by exists (job :: ran), job', rest.
      * apply run_sched_step in H1 as Hs1. apply run_no_jobs in H1 as (evs1 & Hl1 & Hj1).
        assert (sched_step st st') as Hs.
        { eapply sched_step_trans; [| apply Hs1]. by apply sched_step_same. }
        split; [done |]. exists (evs1 ++ [EvJob job]). split.
        { rewrite Hl1. simpl. by rewrite <- !app_assoc. }
        assert (queue st' !! i = Some job) as Hq'.
        { destruct Hs as (Hpre & _). by eapply prefix_lookup_Some. }
        rewrite !jobs_of_app, Hj1. simpl.
        rewrite (drop_S _ _ _ Hq'). by exists [], job, (drop (S i) (queue st')).
    + intros [= <- <-]. split; [apply sched_step_refl |]. exists []. split; [done |].
      apply lookup_ge_None in Hq. by rewrite drop_ge.
Qed.

Lemma microtask_sched_ok fuel st st' o :
  sched_ok st → microtask fuel st = Some (st', o) → sched_ok st'.
Proof.
  intros Hok. unfold microtask. destruct (microtasks st) as [| m] eqn:Hm.
  { by intros [= <- <-]. }
  destruct Hok as (Hnd & Hle & Hrest).
  assert (m = 0) as -> by lia.
  assert (flushing st = true) as Hf.
  { destruct (flushing st); [done |]. destruct Hrest as [? _]; [done | lia]. }
  set (st0 := upd_microtasks (λ _, 0) st).
  assert (sched_ok st0) as Hok0.
  { split_and!; simpl; [done | lia |]. by rewrite Hf. }
  unfold flush. intros [(st1 & v & H1 & H2) | (v & H1 & ->)]%bind_Some.
  - injection H2 as <- <-.
    apply flush_from_pass in H1 as ((_ & Hkeep & _) & _).
    destruct (Hkeep Hf) as [_ Hm1]. simpl in Hm1.
    split_and!; simpl; [apply NoDup_nil_2 | lia | done].
  - apply flush_from_pass in H1 as ((_ & _ & Hkeep) & _). auto.
Qed.

Lemma reachable_sched_ok st : reachable st → sched_ok st.
Proof.
  induction 1 as [| fuel p st st' o _ IH H | fuel st st' o _ IH H].
  - split_and!; simpl; [apply NoDup_nil_2 | lia | done].
  - apply task_trans, trans_sched_step in H as (_ & _ & H). auto.
  - by eapply microtask_sched_ok.
Qed.

Lemma later_stuck st st' :
  later st st' → stuck st →
  stuck st' ∧ queue st `prefix_of` queue st' ∧ jobs_of (log st') = jobs_of (log st).
Proof.
  induction 1 as [st | fuel p st st' st'' o _ IH H | fuel st st' st'' o _ IH H]; intros Hst.
  - done.
  - destruct (IH Hst) as ((Hf & Hm) & Hpre & Hj).
    apply task_trans in H.
    apply trans_no_jobs in H as Hnj. destruct Hnj as (evs & Hl & Hevs).
    apply trans_sched_step in H as (Hpre' & Hkeep & _).
    destruct (Hkeep Hf) as [Hf' Hm']. split_and!.
    + split; [done | congruence].
    + by etrans.
    + by rewrite Hl, jobs_of_app, Hevs, app_nil_r.
  - destruct (IH Hst) as ((Hf & Hm) & Hpre & Hj).
    unfold microtask in H. rewrite Hm in H. by injection H as <- <-.
Qed.

(** ** Loops, call by call *)

Lemma call_each_called call before fs st st' o :
  call_each call before fs st = Some (st', o) ↔ each_called call before fs st st' o.
Proof.
  split.
  - revert st. induction fs as [| f fs IH]; intros st; simpl.
    + intros [= <- <-]. constructor.
    + intros [(st1 & v & H1 & H2) | (v & H1 & ->)]%bind_Some.
      * eapply each_next; [done | by apply IH].
      * by eapply each_thrown.
  - induction 1 as [st | f fs st st1 v st2 o H1 _ IH | f fs st st1 v H1]; simpl.
    + done.
    + by rewrite H1.
    + by rewrite H1.
Qed.

Lemma flush_from_passed fuel n i st st1 o :
  flush_from fuel n i st = Some (st1, o) →
  ∃ jobs, pass fuel i st jobs st1 o ∧ length jobs ≤ n.
Proof.
  revert i st. induction n as [| n IH]; intros i st; simpl.
  - destruct (queue st !! i) eqn:Hq; [done |]. intros [= <- <-].
    exists []. split; [by constructor | done].
  - destruct (queue st !! i) as [job |] eqn:Hq.
    + intros [(st' & v & H1 & H2) | (v & H1 & ->)]%bind_Some.
      * apply IH in H2 as (jobs & Hp & Hlen). exists (job :: jobs).
        split; [by eapply pass_next | simpl; lia].
      * exists [job]. split; [by eapply pass_thrown | simpl; lia].
    + intros [= <- <-]. exists []. split; [by constructor | simpl; lia].
Qed.

Lemma pass_flush_from fuel n i st jobs st1 o :
  pass fuel i st jobs st1 o → length jobs ≤ n →
  flush_from fuel n i st = Some (st1, o).
Proof.
  intros Hp. revert n.
  induction Hp as [i st Hq | i st job st1 v jobs st2 o Hq H1 _ IH | i st job st1 v Hq H1];
    intros n Hlen.
  - destruct n; simpl; by rewrite Hq.
  - destruct n as [| n]; simpl in *; [lia |]. rewrite Hq, H1. simpl. apply IH. lia.
  - destruct n as [| n]; simpl in *; [lia |]. by rewrite Hq, H1.
Qed.

Lemma pass_strans fuel i st jobs st1 o : pass fuel i st jobs st1 o → strans st st1.
Proof.
  intros Hp. eapply (flush_from_strans fuel (length jobs)). by eapply pass_flush_from.
Qed.

Lemma pass_returns fuel i st jobs st1 v :
  pass fuel i st jobs st1 (Normal v) → v = VUndef.
Proof.
  intros Hp. remember (Normal v) as o eqn:Ho.
  induction Hp; [by injection Ho as <- | auto | done].
Qed.

(** What a pass invoked: the queue only grows at its end meanwhile; a pass
    that completes has invoked the whole queue from [i] on as it stands at
    the end, in order, and a pass that a job ended has invoked the queue from
    [i] up to that job. *)
Lemma pass_jobs fuel i st jobs st1 o :
  pass fuel i st jobs st1 o →
  sched_step st st1
  ∧ (∃ evs, log st1 = evs ++ log st ∧ jobs_of evs = jobs)
  ∧ match o with
    | Normal _ => jobs = drop i (queue st1)
    | Thrown v => ∃ ran job rest stj,
        jobs = ran ++ [job] ∧ drop i (queue st1) = ran ++ job :: rest
        ∧ queue stj !! (i + length ran) = Some job
        ∧ run (call fuel) job (record (EvJob job) stj) = Some (st1, Thrown v)
    end.
Proof.
  induction 1 as [i st Hq | i st job st1 v jobs st2 o Hq H1 Hp IH | i st job st1 v Hq H1].
  - split_and!; [apply sched_step_refl | by exists [] |].
    apply lookup_ge_None in Hq. by rewrite drop_ge.
  - destruct IH as (Hs2 & (evs2 & Hl2 & Hj2) & Ho).
    apply run_sched_step in H1 as Hs1. apply run_no_jobs in H1 as Hnj.
    destruct Hnj as (evs1 & Hl1 & Hj1).
    assert (sched_step st st2) as Hs.
    { eapply sched_step_trans; [| apply Hs2].
      eapply sched_step_trans; [| apply Hs1]. by apply sched_step_same. }
    assert (queue st2 !! i = Some job) as Hq'.
    { destruct Hs as (Hpre & _). by eapply prefix_lookup_Some. }
    split_and!; [done | |].
    + exists (evs2 ++ evs1 ++ [EvJob job]). split.
      * rewrite Hl2, Hl1. simpl. by rewrite <- !app_assoc.
      * rewrite !jobs_of_app, Hj1, Hj2. done.
    + rewrite (drop_S _ _ _ Hq'). destruct o as [w | w].
      * by rewrite Ho.
      * destruct Ho as (ran & job' & rest & stj & -> & -> & Hqj & Hrun).
        exists (job :: ran), job', rest, stj. split_and!; try done.
        simpl. by rewrite <- Nat.add_succ_comm.
  - apply run_sched_step in H1 as Hs1. apply run_no_jobs in H1 as Hnj.
    destruct Hnj as (evs1 & Hl1 & Hj1).
    assert (sched_step st st1) as Hs.
    { eapply sched_step_trans; [| apply Hs1]. by apply sched_step_same. }
    assert (queue st1 !! i = Some job) as Hq'.
    { destruct Hs as (Hpre & _). by eapply prefix_lookup_Some. }
    split_and!; [done | |].
    + exists (evs1 ++ [EvJob job]). split.
      * rewrite Hl1. simpl. by rewrite <- !app_assoc.
      * by rewrite !jobs_of_app, Hj1.
    + exists [], job, (drop (S i) (queue st1)), st. split_and!; try done.
      * by rewrite (drop_S _ _ _ Hq').
      * simpl. by rewrite Nat.add_0_r.
Qed.

(** The jobs of a pass that completes: those that were queued from [i] on
    when it started, then those appended to the queue while it ran. *)
Lemma pass_appended fuel i st jobs st1 v :
  pass fuel i st jobs st1 (Normal v) → i ≤ length (queue st) →
  ∃ added, queue st1 = queue st ++ added ∧ jobs = drop i (queue st) ++ added.
Proof.
  intros (([added Hadd] & _) & _ & Hj)%pass_jobs Hi.
  exists added. split; [done |]. rewrite Hj, Hadd.
  rewrite drop_app_le by done. done.
Qed.

Lemma pass_pending fuel i st jobs st1 v e :
  pass fuel i st jobs st1 (Normal v) → e ∈ drop i (queue st) → e ∈ jobs.
Proof.
  intros Hp He.
  destruct (decide (i ≤ length (queue st))) as [Hi | Hi].
  - destruct (pass_appended _ _ _ _ _ _ Hp Hi) as (added & _ & ->).
    apply elem_of_app. by left.
  - rewrite drop_ge in He by lia. by apply elem_of_nil in He.
Qed.

(** ** What a run returns *)

Lemma each_called_frame fuel e fs st st' o :
  each_called (call fuel) (λ c, record (EvCleanup e c)) fs st st' o →
  extends st st' ∧ currentEffect st' = currentEffect st ∧ sched_step st st'.
Proof. intros H%call_each_called. by eapply run_cleanups_frame. Qed.

Lemma run_returns fuel e ef st st1 u st6 o6 :
  effects st !! e = Some ef →
  each_called (call fuel) (λ c, record (EvCleanup e c)) (cleanups ef) st st1 (Normal u) →
  call fuel (fn ef) VUndef (enter_run e st1) = Some (st6, o6) →
  run (call fuel) e st
  = Some (set_currentEffect (currentEffect st) (push_cleanup e (settle o6) st6),
          run_outcome o6).
Proof.
  intros He H1 H2. apply each_called_frame in H1 as Hf. destruct Hf as (_ & Hctx & _).
  apply call_each_called in H1.
  rewrite (run_unfold _ _ _ _ He), H1. simpl. rewrite H2, Hctx.
  by destruct o6 as [c | c].
Qed.



Lemma flush_passed fuel st st' v :
  flush fuel st = Some (st', Normal v) →
  ∃ st1, pass fuel 0 st (queue st1) st1 (Normal VUndef)
    ∧ length (queue st1) ≤ fuel ∧ st' = flushed st1 ∧ v = VUndef.
Proof.
  unfold flush. intros [(st1 & w & H1 & H2) | (w & H1 & ?)]%bind_Some; [| done].
  injection H2 as <- <-.
  apply flush_from_passed in H1 as (jobs & Hp & Hlen).
  apply pass_returns in Hp as Hw. subst w.
  apply pass_jobs in Hp as Hj. destruct Hj as (_ & _ & Hj). rewrite drop_0 in Hj. subst jobs.
  by exists st1.
Qed.

Lemma pass_flush fuel st jobs st1 v :
  pass fuel 0 st jobs st1 (Normal v) → length jobs ≤ fuel →
  flush fuel st = Some (flushed st1, Normal VUndef).
Proof.
  intros Hp Hlen. unfold flush. by rewrite (pass_flush_from _ _ _ _ _ _ _ Hp Hlen).
Qed.

(** C3. [schedule(job)] appends the job to the queue only if it is not in
    it already, so that the queue never holds a job twice, and arranges a
    flush only when the flag is unset, which in every reachable state means
    that none is arranged and none is under way.  The loop of [flush] is the
    pass job by job: it looks the queue up again at every index, so that a
    pass that completes has invoked, in the order of the queue, the jobs that
    were queued when it started and then the jobs that were appended while
    it ran, each by a call of its run in the state the job before it left;
    the pass arranges no flush.  [flush] returns when the pass has, leaving
    the queue empty and the flag unset. *)
Theorem scheduler_contract :
  (∀ job st,
     queue (schedule job st) =
       (if decide (job ∈ queue st) then queue st else queue st ++ [job])
     ∧ microtasks (schedule job st) =
         (if flushing st then microtasks st else S (microtasks st))
     ∧ flushing (schedule job st) = true)
  ∧ (∀ st, reachable st →
       NoDup (queue st) ∧ microtasks st ≤ 1
       ∧ (flushing st = false → microtasks st = 0 ∧ queue st = []))
  ∧ (∀ fuel n i st st1 o,
       flush_from fuel n i st = Some (st1, o) ↔
       ∃ jobs, pass fuel i st jobs st1 o ∧ length jobs ≤ n)
  ∧ (∀ fuel i st jobs st1 v,
       pass fuel i st jobs st1 (Normal v) → i ≤ length (queue st) →
       (∃ added, queue st1 = queue st ++ added ∧ jobs = drop i (queue st) ++ added)
       ∧ (sched_ok st → NoDup (queue st1))
       ∧ (flushing st = true → flushing st1 = true ∧ microtasks st1 = microtasks st)
       ∧ ∃ evs, log st1 = evs ++ log st ∧ jobs_of evs = jobs)
  ∧ (∀ fuel st jobs st1 v,
       pass fuel 0 st jobs st1 (Normal v) → length jobs ≤ fuel →
       flush fuel st = Some (flushed st1, Normal VUndef)
       ∧ jobs = queue st1
       ∧ queue (flushed st1) = [] ∧ flushing (flushed st1) = false)
  ∧ (∀ fuel st st' v,
       flush fuel st = Some (st', Normal v) →
       ∃ st1, pass fuel 0 st (queue st1) st1 (Normal VUndef) ∧ st' = flushed st1).
Proof.
  split_and!.
  - intros job st. by rewrite schedule_queue, schedule_microtasks, schedule_flushing.
  - intros st H. by apply reachable_sched_ok.
  - intros fuel n i st st1 o. split; [apply flush_from_passed |].
    intros (jobs & Hp & Hlen). by eapply pass_flush_from.
  - intros fuel i st jobs st1 v Hp Hi.
    apply pass_jobs in Hp as Hj. destruct Hj as ((_ & Hkeep & Hok) & Hlog & _).
    split_and!; [by eapply pass_appended | | done | done].
    intros Hst. by apply Hok.
  - intros fuel st jobs st1 v Hp Hlen.
    apply pass_jobs in Hp as Hj. destruct Hj as (_ & _ & Hj). rewrite drop_0 in Hj.
    split_and!; [by eapply pass_flush | done | done | done].
  - intros fuel st st' v (st1 & Hp & _ & -> & _)%flush_passed. by exists st1.
Qed.

Lemma microtask_armed fuel st :
  sched_ok st → microtasks st ≠ 0 →
  microtask fuel st = flush fuel (upd_microtasks (λ _, 0) st)
  ∧ flushing st = true ∧ sched_ok (upd_microtasks (λ _, 0) st).
Proof.
  intros (Hnd & Hle & Hrest) Hm. unfold microtask.
  destruct (microtasks st) as [| m] eqn:Hm'; [done |].
  assert (m = 0) as -> by lia.
  assert (flushing st = true) as Hf.
  { destruct (flushing st); [done |]. destruct Hrest as [? _]; [done | lia]. }
  split_and!; [done | done |].
  split_and!; simpl; [done | lia |]. by rewrite Hf.
Qed.

(** C4. When a flush is arranged and the microtask runs it: if every job of
    the pass returns, [flush] returns with the queue empty and the flag
    unset, every job of the queue invoked.  If a job throws, [flush] ends
    there with the exception of that job, in the state its run left: the
    jobs invoked are those queued before it and itself, the jobs queued
    behind it are not invoked, the queue keeps all of them and the flag stays
    set with no flush arranged; from then on no task arranges one, so no job
    is ever invoked again, whatever is scheduled.  Every flush that ends is
    one of the two. *)
Theorem flush_failure fuel st :
  reachable st → microtasks st ≠ 0 →
  (∀ jobs st1 o,
     pass fuel 0 (upd_microtasks (λ _, 0) st) jobs st1 o → length jobs ≤ fuel →
     match o with
     | Normal _ =>
         microtask fuel st = Some (flushed st1, Normal VUndef)
         ∧ jobs = queue st1
         ∧ queue (flushed st1) = [] ∧ flushing (flushed st1) = false
         ∧ microtasks (flushed st1) = 0
     | Thrown v =>
         microtask fuel st = Some (st1, Thrown v)
         ∧ (∃ ran job rest stj,
              jobs = ran ++ [job] ∧ queue st1 = ran ++ job :: rest ∧ NoDup (queue st1)
              ∧ run (call fuel) job (record (EvJob job) stj) = Some (st1, Thrown v)
              ∧ (∀ j, j ∈ rest → j ∉ jobs)
              ∧ ∃ evs, log st1 = evs ++ log st ∧ jobs_of evs = jobs)
         ∧ flushing st1 = true ∧ microtasks st1 = 0
         ∧ ∀ st'', later st1 st'' →
             flushing st'' = true ∧ microtasks st'' = 0
             ∧ queue st1 `prefix_of` queue st''
             ∧ jobs_of (log st'') = jobs_of (log st1)
             ∧ ∀ fuel', microtask fuel' st'' = Some (st'', Normal VUndef)
     end)
  ∧ (∀ st' o, microtask fuel st = Some (st', o) →
       ∃ jobs st1,
         pass fuel 0 (upd_microtasks (λ _, 0) st) jobs st1 o ∧ length jobs ≤ fuel
         ∧ st' = match o with Normal _ => flushed st1 | Thrown _ => st1 end).
Proof.
  intros Hok%reachable_sched_ok Hm.
  destruct (microtask_armed fuel st Hok Hm) as (Hmt & Hf & Hok0). rewrite Hmt. split.
  - intros jobs st1 o Hp Hlen.
    apply pass_jobs in Hp as Hj. destruct Hj as ((_ & Hkeep & Hok') & (evs & Hl & Hevs) & Hj).
    destruct (Hkeep Hf) as [Hf1 Hm1]. simpl in Hm1. specialize (Hok' Hok0).
    destruct o as [w | w].
    + rewrite drop_0 in Hj. split_and!; try done. by eapply pass_flush.
    + destruct Hj as (ran & job & rest & stj & -> & Hq & _ & Hrun). rewrite drop_0 in Hq.
      destruct Hok' as (Hnd & _).
      split_and!; try done.
      * unfold flush. by rewrite (pass_flush_from _ _ _ _ _ _ _ Hp Hlen).
      * exists ran, job, rest, stj. split_and!; try done; [| by exists evs].
        intros j Hj Hin. rewrite Hq in Hnd.
        apply NoDup_app in Hnd as (_ & Hdis & Hnd2). apply NoDup_cons in Hnd2 as [Hnj _].
        apply elem_of_app in Hin as [Hin | ->%list_elem_of_singleton]; [| done].
        apply (Hdis _ Hin). by right.
      * intros st'' Hlater. apply later_stuck in Hlater as ((? & Hm'') & ? & ?); [| done].
        split_and!; try done. intros fuel'. unfold microtask. by rewrite Hm''.
  - intros st' o. unfold flush.
    intros [(st1 & v & H1 & H2) | (v & H1 & ->)]%bind_Some.
    + injection H2 as <- <-. apply flush_from_passed in H1 as (jobs & Hp & Hlen).
      apply pass_returns in Hp as Hv. subst v.
      by exists jobs, st1.
    + apply flush_from_passed in H1 as (jobs & Hp & Hlen). by exists jobs, st'.
Qed.

(** ** Writes *)

Lemma value_of_set_value s v st :
  is_Some (signals st !! s) → value_of s (set_value s v st) = v.
Proof.
  intros [sg Hs]. unfold value_of, set_value. simpl.
  by rewrite list_lookup_alter_eq, Hs.
Qed.

Lemma value_of_notify s s' st : value_of s' (notify s st) = value_of s' st.
Proof. unfold value_of. by destruct (notify_frame s st) as (_ & -> & _). Qed.

Lemma getter_value s st :
  is_Some (signals st !! s) →
  ∃ st', getter s st = Some (st', Normal (value_of s st)).
Proof.
  intros [sg Hs]. unfold getter, value_of. rewrite Hs. simpl. eauto.
Qed.

(** C2. A write whose candidate value is identical to the current one does
    nothing: the setter returns in the state in which the candidate was
    obtained, so the stored value, the queue, the flag, the arranged flushes
    and every subscriber set are what they were; when the argument is a
    literal value that state is the one the setter was called in. *)
Theorem setter_identical_noop
    (call : jsval → jsval → state → result) s nextValue st st1 newValue :
  is_Some (signals st !! s) →
  candidate call s nextValue st = Some (st1, Normal newValue) →
  object_is (value_of s st1) newValue = true →
  setter call s nextValue st = Some (st1, Normal VUndef)
  ∧ (is_function nextValue = false → st1 = st).
Proof.
  intros [sg Hs] Hc Hid. split.
  - unfold setter. rewrite Hs, Hc. simpl. by rewrite Hid.
  - intros Hf. unfold candidate in Hc. rewrite Hf in Hc. by injection Hc as <- _.
Qed.

Lemma setter_stores fuel s nextValue st st1 newValue :
  is_Some (signals st !! s) →
  candidate (call fuel) s nextValue st = Some (st1, Normal newValue) →
  ∃ st' st'',
    setter (call fuel) s nextValue st = Some (st', Normal VUndef)
    ∧ getter s st' = Some (st'', Normal newValue).
Proof.
  intros [sg Hs] Hc.
  assert (is_Some (signals st1 !! s)) as Hs1.
  { unfold candidate in Hc. destruct (is_function nextValue).
    - apply call_trans, trans_extends in Hc as (Hlen & _).
      apply lookup_lt_is_Some. apply lookup_lt_Some in Hs. lia.
    - injection Hc as <- _. by rewrite Hs. }
  unfold setter. rewrite Hs, Hc. simpl.
  destruct (object_is (value_of s st1) newValue) eqn:Hid.
  - apply bool_decide_eq_true in Hid.
    destruct (getter_value s st1 Hs1) as [st'' Hg]. exists st1, st''.
    by rewrite Hg, Hid.
  - assert (is_Some (signals (notify s (set_value s newValue st1)) !! s)) as Hs'.
    { destruct (notify_frame s (set_value s newValue st1)) as (_ & -> & _).
      apply lookup_lt_is_Some. simpl. rewrite length_alter.
      by apply lookup_lt_is_Some. }
    destruct (getter_value s _ Hs') as [st'' Hg]. eexists _, st''.
    split; [done |]. by rewrite Hg, value_of_notify, value_of_set_value.
Qed.

(** C6 as amended.  On a signal, a write of an argument that is not a
    function returns, and a read after it returns that argument.  A write of
    an argument that is a function, whatever the type of the signal, calls
    it on the current value; when that call returns, the write returns and a
    read after it returns what the call returned. *)
Theorem setter_then_getter fuel s nextValue st :
  is_Some (signals st !! s) →
  (is_function nextValue = false →
   ∃ st' st'',
     setter (call fuel) s nextValue st = Some (st', Normal VUndef)
     ∧ getter s st' = Some (st'', Normal nextValue))
  ∧ (is_function nextValue = true →
     ∀ st1 r, call fuel nextValue (value_of s st) st = Some (st1, Normal r) →
       ∃ st' st'',
         setter (call fuel) s nextValue st = Some (st', Normal VUndef)
         ∧ getter s st' = Some (st'', Normal r)).
Proof.
  intros Hs. split.
  - intros Hf. apply (setter_stores fuel s nextValue st st); [done |].
    unfold candidate. by rewrite Hf.
  - intros Hf st1 r Hc. apply (setter_stores fuel s nextValue st st1); [done |].
    unfold candidate. by rewrite Hf.
Qed.

(** ** Reads outside the tracking context of an effect *)

(** Callback code that does not start inside a run of [e] leaves the edges
    of [e] alone, but for removing them. *)
Lemma trans_untracked st st' e :
  trans st st' → e < length (effects st) → currentEffect st ≠ Some e →
  deps_of e st' = deps_of e st ∧ ∀ s, e ∈ subs_of s st' → e ∈ subs_of s st.
Proof.
  induction 1 as [st | st1 st2 st3 Ht1 IH1 Ht2 IH2 | f st | body st | v st | s st Hc
                 | e0 s st Hc Hs | s v st | s st | e0 st | c st | st st' Ht IH | st st' Ht IH
                 | f oc st st' Ht IH]; intros He Hctx; try done.
  - destruct (IH1 He Hctx) as [Hd1 Hs1].
    apply trans_extends in Ht1 as Hext. apply trans_currentEffect in Ht1 as Hc1.
    destruct IH2 as [Hd2 Hs2]; [destruct Hext as (_ & ? & _); lia | congruence |].
    split; [congruence | auto].
  - unfold signal. heap. split; [done |]. intros s.
    rewrite subs_of_alloc_signal. case_decide; [| done]. simpl. by rewrite elem_of_nil.
  - heap. rewrite deps_of_upd_deps, decide_False by (intros [-> _]; congruence).
    heap. split; [done |]. intros s'. heap. rewrite subs_of_upd_subs.
    case_decide; [| done]. rewrite elem_of_set_add. intros [-> | ?]; [congruence | done].
  - split; [done |]. intros s'. unfold subs_of, set_value. simpl.
    destruct (decide (s = s')) as [<- | Hne].
    + rewrite list_lookup_alter_eq. by destruct (signals st !! s).
    + by rewrite list_lookup_alter_ne.
  - destruct (notify_frame s st) as (_ & Hs & Hef & _).
    unfold deps_of, subs_of. by rewrite Hs, Hef.
  - heap. split; [done |]. intros s. heap. rewrite subs_of_unsubscribe. tauto.
  - destruct IH as [Hd Hs]; done.
  - destruct IH as [Hd Hs]; done.
  - assert (e < length (effects (enter_effect f st))) as He'.
    { unfold enter_effect. simpl. rewrite length_app. lia. }
    assert (currentEffect (enter_effect f st) ≠ Some e) as Hctx'.
    { unfold enter_effect. simpl. intros [= <-]. lia. }
    destruct (IH He' Hctx') as [Hd Hs].
    assert (deps_of e (enter_effect f st) = deps_of e st) as Hd0.
    { unfold enter_effect. heap. rewrite deps_of_alloc_effect, decide_False by lia. done. }
    split.
    + rewrite <- Hd0, <- Hd. by destruct oc; simpl; heap.
    + intros s. destruct oc; simpl; heap; apply Hs.
Qed.

(** [dispose] of a [scope] call has nothing to call: the private arrays are
    empty, and stay so. *)
Lemma trans_scopes st st' :
  trans st st' → Forall (λ l, l = []) (scopes st) → Forall (λ l, l = []) (scopes st').
Proof.
  induction 1 as [st | st1 st2 st3 Ht1 IH1 Ht2 IH2 | f st | body st | v st | s st Hc
                 | e0 s st Hc Hs | s v st | s st | e0 st | c st | st st' Ht IH | st st' Ht IH
                 | f oc st st' Ht IH]; intros Hsc; try done.
  - auto.
  - by destruct (notify_frame s st) as (_ & _ & _ & _ & -> & _).
  - simpl. by destruct (unsubscribe_frame e0 st) as (_ & _ & _ & -> & _).
  - simpl. apply Forall_forall. intros l [i Hl]%list_elem_of_lookup.
    destruct (decide (c = i)) as [-> | Hne].
    + rewrite list_lookup_alter_eq in Hl. destruct (scopes st !! i); by simplify_eq/=.
    + rewrite list_lookup_alter_ne in Hl by done.
      eapply Forall_lookup_1 in Hsc; [| done]. done.
  - by apply IH.
  - apply IH. simpl. apply Forall_app. split; [done |]. by apply Forall_singleton.
  - destruct oc; by apply IH.
Qed.

Lemma strans_scopes st st' :
  strans st st' → Forall (λ l, l = []) (scopes st) → Forall (λ l, l = []) (scopes st').
Proof.
  induction 1 as [st st' Ht | st1 st2 st3 _ IH1 _ IH2 | e c st | e oc st st' He Ht
                 | e st Hq | st | m st Hm]; intros Hsc; try done.
  - by eapply trans_scopes.
  - auto.
  - assert (Forall (λ l, l = []) (scopes st')) as Hsc'.
    { eapply trans_scopes; [done |]. unfold enter_run, reset. simpl.
      by destruct (unsubscribe_frame e (upd_cleanups e (λ _, []) st)) as (_ & _ & _ & -> & _). }
    by destruct oc.
Qed.

Lemma extends_cleanups_of st st' e :
  extends st st' → e < length (effects st) → cleanups_of e st' = cleanups_of e st.
Proof.
  intros (_ & _ & _ & _ & H) [ef He]%lookup_lt_is_Some.
  destruct (H _ _ He) as (ef' & He' & _ & Hc).
  unfold cleanups_of. by rewrite He, He'.
Qed.

(** C9. [ignore(fn)] calls [fn] with the tracking context cleared and, when
    that call ends, ends the same way (with its result, or with its
    exception) in the state it left, the context restored to what it was.
    The reads made meanwhile are untracked or tracked by effects constructed
    meanwhile, so no effect that existed gains an edge.  A run restores the
    context however it ends, and when the body throws, the run throws the
    same to its caller. *)
Theorem tracking_context_restored :
  (∀ fuel f st st1 o,
     call fuel f VUndef (set_currentEffect None st) = Some (st1, o) →
     let st' := set_currentEffect (currentEffect st) st1 in
     ignore (call fuel) f st = Some (st', o)
     ∧ currentEffect st' = currentEffect st
     ∧ (∃ evs, log st' = evs ++ log st
               ∧ ∀ e s, EvRead (Some e) s ∈ evs → length (effects st) ≤ e)
     ∧ (∀ e, e < length (effects st) →
          deps_of e st' = deps_of e st ∧ ∀ s, e ∈ subs_of s st' → e ∈ subs_of s st))
  ∧ (∀ fuel e st st' o,
       run (call fuel) e st = Some (st', o) → currentEffect st' = currentEffect st)
  ∧ (∀ fuel e ef st st1 u st6 v,
       effects st !! e = Some ef →
       call_each (call fuel) (λ c, record (EvCleanup e c)) (cleanups ef) st
         = Some (st1, Normal u) →
       call fuel (fn ef) VUndef (enter_run e st1) = Some (st6, Thrown v) →
       run (call fuel) e st = Some (set_currentEffect (currentEffect st) st6, Thrown v)).
Proof.
  split_and!.
  - intros fuel f st st1 o H st'. apply call_trans in H as Ht.
    split_and!.
    + unfold ignore. by rewrite H.
    + done.
    + apply trans_log in Ht as (evs & Hl & Hall). exists evs. split; [done |].
      intros e s Hin. eapply Forall_forall in Hall; [| done].
      by destruct Hall.
    + intros e He. by destruct (trans_untracked _ _ e Ht).
  - intros fuel e st st' o H%run_strans. by apply strans_currentEffect.
  - intros fuel e ef st st1 u st6 v He H1 H2.
    rewrite (run_unfold _ _ _ _ He), H1. simpl. rewrite H2. simpl.
    by apply run_cleanups_frame in H1 as (_ & -> & _).
Qed.

(** C10. In [scope(fn)] the tracking context is null when it is tested after
    [fn] has returned, so [scope] returns what [fn] returned without adding
    the hook to its private array; [scope] leaves the cleanups of every
    effect that existed as they were, and the private arrays of all [scope]
    calls are empty in every reachable state. *)
Theorem scope_hook_unreachable :
  (∀ fuel f st st2 r,
     call fuel f (VScopeDispose (length (scopes st)))
          (upd_scopes (λ l, l ++ [[]]) (set_currentEffect None st)) = Some (st2, Normal r) →
     currentEffect st2 = None
     ∧ scope (call fuel) f st = Some (set_currentEffect (currentEffect st) st2, Normal r))
  ∧ (∀ fuel f st st' o,
       scope (call fuel) f st = Some (st', o) →
       (∀ e, e < length (effects st) → cleanups_of e st' = cleanups_of e st)
       ∧ (Forall (λ l, l = []) (scopes st) → Forall (λ l, l = []) (scopes st')))
  ∧ (∀ st, reachable st → Forall (λ l, l = []) (scopes st)).
Proof.
  split_and!.
  - intros fuel f st st2 r H.
    pose proof (trans_currentEffect _ _ (call_trans _ _ _ _ _ _ H)) as Hc.
    simpl in Hc. split; [done |]. unfold scope. simpl. rewrite H. simpl. by rewrite Hc.
  - intros fuel f st st' o Ht.
    apply scope_trans in Ht; [| intros ?????; apply call_trans]. split.
    + intros e He. apply extends_cleanups_of; [by apply trans_extends | done].
    + by apply trans_scopes.
  - intros st H%reachable_strans. by apply (strans_scopes _ _ H).
Qed.

(** ** What the history says about an edge *)

Lemma subscribed_spec e s l :
  subscribed e s l = true ↔
  ∃ l1 l2, l = l1 ++ EvRead (Some e) s :: l2 ∧ (EvReset e ∉ l1) ∧ (EvDispose e ∉ l1).
Proof.
  induction l as [| ev l IH].
  { split; [done | intros (l1 & l2 & H & _)]. by destruct l1. }
  assert ((∃ l1 l2, ev :: l = l1 ++ EvRead (Some e) s :: l2
                    ∧ (EvReset e ∉ l1) ∧ (EvDispose e ∉ l1))
          ↔ ev = EvRead (Some e) s
            ∨ (ev ≠ EvReset e ∧ ev ≠ EvDispose e ∧ subscribed e s l = true)) as ->.
  { rewrite IH. split.
    - intros (l1 & l2 & H & Hr & Hd). destruct l1 as [| ev' l1]; simplify_eq/=; [by left |].
      right. rewrite !not_elem_of_cons in Hr, Hd.
      destruct Hr as [Hr1 Hr2], Hd as [Hd1 Hd2]. split_and!; [congruence | congruence |].
      by exists l1, l2.
    - intros [-> | (Hr & Hd & l1 & l2 & -> & Hr' & Hd')].
      + exists [], l. split_and!; [done | apply not_elem_of_nil..].
      + exists (ev :: l1), l2. rewrite !not_elem_of_cons. split_and!; auto. }
  destruct ev as [[e' |] s' | e' | e' | e' c | e' | e' | f]; simpl;
    try (split; [intros ?; right; by split_and! | by intros [? | (_ & _ & ?)]]).
  - case_decide as Hd.
    + destruct Hd as [-> ->]. split; [by left | done].
    + split; [intros ?; right; by split_and! |].
      intros [[= -> ->] | (_ & _ & ?)]; [by destruct Hd | done].
  - case_decide as Hd.
    + subst. split; [done | intros [? | (? & _)]; done].
    + split; [intros ?; right; split_and!; congruence | by intros [? | (_ & _ & ?)]].
  - case_decide as Hd.
    + subst. split; [done | intros [? | (_ & ? & _)]; done].
    + split; [intros ?; right; split_and!; congruence | by intros [? | (_ & _ & ?)]].
Qed.


Lemma run_consistent fuel e st st' o :
  consistent st → run (call fuel) e st = Some (st', o) → consistent st'.
Proof. intros Hc H%run_strans. by eapply strans_consistent. Qed.

Lemma call_consistent fuel f arg st st' o :
  consistent st → call fuel f arg st = Some (st', o) → consistent st'.
Proof. intros Hc H%call_trans. by eapply trans_consistent. Qed.

Lemma tracked_since e s evs l :
  EvReset e ∉ evs →
  tracked e s (evs ++ l) = true ↔ EvRead (Some e) s ∈ evs ∨ tracked e s l = true.
Proof.
  induction evs as [| ev evs IH]; intros Hr; simpl.
  - rewrite elem_of_nil. tauto.
  - apply not_elem_of_cons in Hr as [Hne Hr]. specialize (IH Hr).
    rewrite elem_of_cons.
    destruct ev as [[e' |] s' | e' | e' | e' c | e' | e' | f];
      try (rewrite IH; clear IH; intuition congruence).
    + case_decide as Hd.
      * destruct Hd as [-> ->]. tauto.
      * rewrite IH. clear IH. split; [tauto |].
        intros [[[= -> ->] | ?] | ?]; [by destruct Hd | tauto..].
    + case_decide as Hd; [by subst |]. rewrite IH. clear IH. intuition congruence.
Qed.

Lemma subscribed_since e s evs l :
  EvReset e ∉ evs →
  subscribed e s (evs ++ l) = true ↔
  (∃ l1 l2, evs = l1 ++ EvRead (Some e) s :: l2 ∧ (EvDispose e ∉ l1))
  ∨ ((EvDispose e ∉ evs) ∧ subscribed e s l = true).
Proof.
  intros Hr. rewrite subscribed_spec. split.
  - intros (l1 & l2 & Happ & Hr1 & Hd1).
    apply app_eq_inv in Happ as [(k & -> & Hk) | (k & -> & ->)].
    + destruct k as [| ev k].
      * right. rewrite app_nil_r. split; [done |]. simpl in Hk. subst l.
        apply subscribed_spec. exists [], l2. split_and!; [done | apply not_elem_of_nil..].
      * injection Hk as <- ->. left. by exists l1, k.
    + right. apply not_elem_of_app in Hd1 as [Hd1 Hd2].
      apply not_elem_of_app in Hr1 as [_ Hr2]. split; [done |].
      apply subscribed_spec. by exists k, l2.
  - intros [(l1 & l2 & -> & Hd) | (Hd & (l1 & l2 & -> & Hr1 & Hd1)%subscribed_spec)].
    + exists l1, (l2 ++ l). split_and!; [by rewrite <- app_assoc | | done].
      intros Hin. apply Hr. apply elem_of_app. by left.
    + exists (evs ++ l1), l2. rewrite !not_elem_of_app.
      split_and!; try done. by rewrite <- app_assoc.
Qed.



Lemma edges_push_cleanup c e oc st :
  (∀ s, subs_of s (set_currentEffect c (push_cleanup e oc st)) = subs_of s st)
  ∧ (∀ e', deps_of e' (set_currentEffect c (push_cleanup e oc st)) = deps_of e' st).
Proof. split; intros x; destruct oc; simpl; heap; done. Qed.

(** The edges of an effect over a run: when the body starts the effect has
    no dependency and no signal has it as a subscriber; when the run ends
    its dependencies are the signals it read while the body ran, and it is a
    subscriber of those it read without being disposed after. *)
Lemma run_edges fuel e f c oc st1 st6 o6 :
  consistent st1 → e < length (effects st1) →
  call fuel f VUndef (enter_run e st1) = Some (st6, o6) →
  let st' := set_currentEffect c (push_cleanup e oc st6) in
  deps_of e (enter_run e st1) = []
  ∧ (∀ s, e ∉ subs_of s (enter_run e st1))
  ∧ ∃ evs, log st' = evs ++ EvBody e :: EvReset e :: log st1
      ∧ (∀ s, s ∈ deps_of e st' ↔ EvRead (Some e) s ∈ evs)
      ∧ (∀ s, e ∈ subs_of s st' ↔
           ∃ l1 l2, evs = l1 ++ EvRead (Some e) s :: l2 ∧ (EvDispose e ∉ l1)).
Proof.
  intros Hc He Hcall st'.
  assert (consistent (enter_run e st1)) as Hc5.
  { apply consistent_enter_run; [by apply lookup_lt_is_Some | done]. }
  assert (deps_of e (enter_run e st1) = []) as Hd5.
  { unfold enter_run, reset. heap. rewrite deps_of_upd_deps, decide_True; [done |].
    split; [done |]. destruct (unsubscribe_frame e (upd_cleanups e (λ _, []) st1)) as (_ & -> & _).
    simpl. by rewrite length_alter. }
  split_and!; [done | |].
  { intros s Hin%(consistent_subs_deps _ _ _ Hc5). rewrite Hd5 in Hin.
    by apply elem_of_nil in Hin. }
  apply call_trans in Hcall as Ht.
  pose proof (trans_consistent _ _ Ht Hc5) as Hc6.
  apply trans_log in Ht as (evs & Hl & Hall). rewrite enter_run_log in Hl.
  assert (EvReset e ∉ evs) as Hr.
  { intros Hin. eapply Forall_forall in Hall; [| done].
    change (length (effects (enter_run e st1)) ≤ e) in Hall.
    rewrite extends_enter_run_length in Hall. lia. }
  destruct (edges_push_cleanup c e oc st6) as [Hs Hd].
  exists evs. split_and!.
  - subst st'. by destruct oc.
  - intros s. subst st'. rewrite Hd, (log_deps _ Hc6), Hl, tracked_since by done.
    simpl. rewrite decide_True by done. intuition congruence.
  - intros s. subst st'. rewrite Hs, (log_subs _ Hc6), Hl, subscribed_since by done.
    simpl. rewrite decide_True by done. intuition congruence.
Qed.

(** What the disposer returns when the cleanups have. *)
Lemma dispose_returns fuel e ef st st0 u :
  consistent st → effects st !! e = Some ef →
  each_called (call fuel) (λ _, id) (cleanups ef) st st0 (Normal u) →
  let st1 := record (EvDispose e) (unsubscribe e st0) in
  dispose (call fuel) e st = Some (st1, Normal VUndef)
  ∧ consistent st1
  ∧ (∀ s, e ∉ subs_of s st1)
  ∧ (∀ e' s, e' ≠ e → e' ∈ subs_of s st1 ↔ e' ∈ subs_of s st0)
  ∧ queue st1 = queue st0 ∧ queue st `prefix_of` queue st0
  ∧ currentEffect st1 = currentEffect st
  ∧ e < length (effects st1).
Proof.
  intros Hc He H1 st1. apply call_each_called in H1 as H1'.
  assert (dispose (call fuel) e st = Some (st1, Normal VUndef)) as Hd.
  { unfold dispose. by rewrite He, H1'. }
  assert (trans st st0) as Ht0.
  { eapply call_each_trans; [| | exact H1']; [intros ?????; apply call_trans |].
    intros. apply trans_refl. }
  assert (consistent st1) as Hc1.
  { eapply trans_consistent; [| done]. eapply dispose_trans; [| done].
    intros ?????. apply call_trans. }
  destruct (unsubscribe_frame e st0) as (Hf1 & Hf2 & _ & _ & _ & Hf6 & _).
  split_and!; try done.
  - intros s Hin. apply (log_subs _ Hc1) in Hin. simpl in Hin.
    by rewrite decide_True in Hin.
  - intros e' s Hne. subst st1. heap. rewrite subs_of_unsubscribe. intuition.
  - apply trans_sched_step in Ht0. apply Ht0.
  - subst st1. simpl. rewrite Hf1. by apply trans_currentEffect.
  - subst st1. simpl. rewrite Hf2. apply trans_extends in Ht0 as (_ & Hlen & _).
    apply lookup_lt_Some in He. lia.
Qed.


(** ** Disposal *)

Lemma notify_queue s x st :
  x ∈ queue (notify s st) → x ∈ queue st ∨ x ∈ subs_of s st.
Proof.
  unfold notify. generalize (subs_of s st) as l. intros l. revert st.
  induction l as [| e l IH]; intros st; simpl; [by left |].
  intros [Hq | Hl]%IH; [| right; by right].
  rewrite schedule_queue in Hq. case_decide; [by left |].
  apply elem_of_app in Hq as [? | ->%list_elem_of_singleton]; [by left | right; by left].
Qed.

Lemma quiet_refl e st : quiet e st st.
Proof. exists []. split_and!; [done | apply not_elem_of_nil..]. Qed.

Lemma quiet_trans e st1 st2 st3 : quiet e st1 st2 → quiet e st2 st3 → quiet e st1 st3.
Proof.
  intros (evs1 & Hl1 & Hj1 & Hb1) (evs2 & Hl2 & Hj2 & Hb2). exists (evs2 ++ evs1).
  rewrite !not_elem_of_app. split_and!; try done. by rewrite Hl2, Hl1, app_assoc.
Qed.

Lemma trans_quiet e st st' : trans st st' → e < length (effects st) → quiet e st st'.
Proof.
  intros (evs & Hl & Hall)%trans_log He. exists evs. split_and!; [done | |].
  - intros Hin. eapply Forall_forall in Hall; [| done]. done.
  - intros Hin. eapply Forall_forall in Hall; [| done]. simpl in Hall. lia.
Qed.

Lemma trans_dormant e st st' : trans st st' → dormant e st → dormant e st'.
Proof.
  induction 1 as [st | st1 st2 st3 Ht1 IH1 Ht2 IH2 | f st | body st | v st | s st Hc
                 | e0 s st Hc Hs | s v st | s st | e0 st | c st | st st' Ht IH | st st' Ht IH
                 | f oc st st' Ht IH];
    intros Hd; pose proof Hd as (He & Hctx & Hq & Hsubs); try done.
  - auto.
  - split_and!; try done. intros s. unfold signal. rewrite subs_of_alloc_signal.
    case_decide; [apply not_elem_of_nil | apply Hsubs].
  - split_and!; simpl; rewrite ?length_alter; try done. intros s'. heap.
    rewrite subs_of_upd_subs. case_decide; [| apply Hsubs].
    rewrite elem_of_set_add. intros [-> | ?]; [congruence | by eapply Hsubs].
  - split_and!; simpl; rewrite ?length_alter; try done.
    intros s'. unfold subs_of, set_value. simpl.
    destruct (decide (s = s')) as [<- | Hne].
    + rewrite list_lookup_alter_eq. specialize (Hsubs s). unfold subs_of in Hsubs.
      by destruct (signals st !! s).
    + rewrite list_lookup_alter_ne by done. apply Hsubs.
  - destruct (notify_frame s st) as (Hf1 & Hf2 & Hf3 & _).
    split_and!; rewrite ?Hf1, ?Hf3; try done.
    + intros [? | ?]%notify_queue; [done | by eapply Hsubs].
    + intros s'. unfold subs_of. rewrite Hf2. apply Hsubs.
  - destruct (unsubscribe_frame e0 st) as (Hf1 & Hf2 & _ & _ & _ & Hf6 & _).
    split_and!; simpl; rewrite ?Hf1, ?Hf2, ?Hf6; try done.
    intros s. heap. rewrite subs_of_unsubscribe. intros [? _]. by eapply Hsubs.
  - destruct IH as (He' & _ & Hq' & Hsubs'); [by split_and! |]. by split_and!.
  - destruct IH as (He' & _ & Hq' & Hsubs'); [by split_and! |]. by split_and!.
  - destruct IH as (He' & _ & Hq' & Hsubs').
    { unfold enter_effect. split_and!; simpl; try done.
      - rewrite length_app. lia.
      - intros [= <-]. lia. }
    split_and!; try done.
    + destruct oc; simpl; rewrite ?length_alter; done.
    + by destruct oc.
    + intros s. destruct oc; simpl; heap; apply Hsubs'.
Qed.

Lemma run_dormant fuel e e' st st' o :
  e' ≠ e → run (call fuel) e' st = Some (st', o) →
  dormant e st → dormant e st' ∧ quiet e st st'.
Proof.
  intros Hne H Hd.
  assert (∀ fs st0 st1 o1,
    call_each (call fuel) (λ c, record (EvCleanup e' c)) fs st0 = Some (st1, o1) →
    dormant e st0 → dormant e st1 ∧ quiet e st0 st1) as Hcl.
  { intros fs st0 st1 o1.
    apply (call_each_rel _ (λ st st', dormant e st → dormant e st' ∧ quiet e st st')).
    - intros st2 ?. split; [done | apply quiet_refl].
    - intros st2 st3 st4 H1 H2 [Hd3 Hq3]%H1. destruct (H2 Hd3) as [Hd4 Hq4].
      split; [done | by eapply quiet_trans].
    - intros f st2 Hd2. split; [done |]. exists [EvCleanup e' f].
      split_and!; [done | |]; by intros [? | ?%elem_of_nil]%elem_of_cons.
    - intros f arg st2 st3 o3 Ht%call_trans Hd2.
      split; [by eapply trans_dormant | apply trans_quiet; [done | apply Hd2]]. }
  apply run_inv in H
    as [(_ & -> & _) | (ef & He & [(v & H1 & _) | (st1 & u & st6 & o6 & H1 & H2 & -> & _)])].
  - split; [done | apply quiet_refl].
  - by eapply Hcl.
  - destruct (Hcl _ _ _ _ H1 Hd) as [(He1 & Hctx1 & Hq1 & Hs1) Hquiet1].
    assert (dormant e (enter_run e' st1)) as Hd5.
    { destruct (enter_run_sched e' st1) as (Hqq & _).
      split_and!; rewrite ?extends_enter_run_length, ?Hqq; try done.
      - simpl. congruence.
      - intros s. unfold enter_run, reset. heap. rewrite subs_of_unsubscribe. heap.
        intros [? _]. by eapply Hs1. }
    apply call_trans in H2 as Ht.
    destruct (trans_dormant _ _ _ Ht Hd5) as (He6 & Hctx6 & Hq6 & Hs6).
    split.
    + split_and!; try done.
      * destruct (settle o6); simpl; rewrite ?length_alter; done.
      * by destruct (settle o6).
      * intros s. destruct (settle o6); simpl; heap; apply Hs6.
    + eapply quiet_trans; [apply Hquiet1 |].
      eapply quiet_trans.
      { exists [EvBody e'; EvReset e']. split; [apply enter_run_log |].
        rewrite !not_elem_of_cons. split_and!; try done; try apply not_elem_of_nil.
        congruence. }
      eapply quiet_trans; [apply trans_quiet; [done | apply Hd5] |].
      exists []. split_and!; [by destruct (settle o6) | apply not_elem_of_nil..].
Qed.

Lemma flush_from_dormant fuel n i e st st' o :
  flush_from fuel n i st = Some (st', o) →
  dormant e st → dormant e st' ∧ quiet e st st'.
Proof.
  revert i st. induction n as [| n IH]; intros i st; simpl.
  - destruct (queue st !! i); [done |]. intros [= <- <-] ?. split; [done | apply quiet_refl].
  - destruct (queue st !! i) as [job |] eqn:Hq;
      [| intros [= <- <-] ?; split; [done | apply quiet_refl]].
    intros H Hd.
    assert (job ≠ e) as Hne.
    { intros ->. destruct Hd as (_ & _ & Hnq & _). apply Hnq. by eapply list_elem_of_lookup_2. }
    assert (dormant e (record (EvJob job) st) ∧ quiet e st (record (EvJob job) st)) as [Hd0 Hq0].
    { split; [done |]. exists [EvJob job]. split_and!; [done | |].
      - intros [[= ->] | ?%elem_of_nil]%elem_of_cons; done.
      - intros [? | ?%elem_of_nil]%elem_of_cons; done. }
    apply bind_Some in H as [(st1 & v & H1 & H2) | (v & H1 & ->)].
    + destruct (run_dormant _ _ _ _ _ _ Hne H1 Hd0) as [Hd1 Hq1].
      destruct (IH _ _ H2 Hd1) as [Hd2 Hq2].
      split; [done |]. eapply quiet_trans; [apply Hq0 |]. by eapply quiet_trans.
    + destruct (run_dormant _ _ _ _ _ _ Hne H1 Hd0) as [Hd1 Hq1].
      split; [done |]. by eapply quiet_trans.
Qed.

Lemma later_dormant e st st' :
  later st st' → dormant e st → dormant e st' ∧ quiet e st st'.
Proof.
  induction 1 as [st | fuel p st st' st'' o _ IH H | fuel st st' st'' o _ IH H]; intros Hd.
  - split; [done | apply quiet_refl].
  - destruct (IH Hd) as [Hd' Hq']. apply task_trans in H. split.
    + by eapply trans_dormant.
    + eapply quiet_trans; [done |]. apply trans_quiet; [done | apply Hd'].
  - destruct (IH Hd) as [Hd' Hq']. unfold microtask in H.
    destruct (microtasks st') as [| m]; [by injection H as <- <- |].
    assert (dormant e (upd_microtasks (λ _, m) st')) as Hd0 by done.
    unfold flush in H. apply bind_Some in H as [(st1 & v & H1 & H2) | (v & H1 & ->)].
    + injection H2 as <- <-.
      destruct (flush_from_dormant _ _ _ _ _ _ _ H1 Hd0) as [(? & ? & ? & ?) Hq1].
      split; [split_and!; simpl; try done; apply not_elem_of_nil |].
      eapply quiet_trans; [done |]. destruct Hq1 as (evs & Hl & ?). by exists evs.
    + destruct (flush_from_dormant _ _ _ _ _ _ _ H1 Hd0) as [Hd1 Hq1].
      split; [done |]. eapply quiet_trans; [done |].
      destruct Hq1 as (evs & Hl & ?). by exists evs.
Qed.

Lemma call_dormant fuel e f arg st st' o :
  call fuel f arg st = Some (st', o) → dormant e st → dormant e st' ∧ quiet e st st'.
Proof.
  intros Ht%call_trans Hd. split; [by eapply trans_dormant |].
  apply trans_quiet; [done | apply Hd].
Qed.

Lemma exec_dormant fuel e p st st' o :
  exec (call fuel) p st = Some (st', o) → dormant e st → dormant e st' ∧ quiet e st st'.
Proof.
  intros Ht%task_trans Hd. split; [by eapply trans_dormant |].
  apply trans_quiet; [done | apply Hd].
Qed.

Lemma microtask_dormant fuel e st st' o :
  microtask fuel st = Some (st', o) → dormant e st → dormant e st' ∧ quiet e st st'.
Proof.
  intros H Hd.
  apply (later_dormant e st st'); [| done].
  eapply later_microtask; [apply later_refl | done].
Qed.

Lemma unread_allowed e st evs :
  e < length (effects st) → currentEffect st ≠ Some e → Forall (allowed st) evs →
  (EvBody e ∉ evs) ∧ (EvReset e ∉ evs) ∧ ∀ s, EvRead (Some e) s ∉ evs.
Proof.
  intros He Hctx Hall. split_and!; [| | intros s]; intros Hin;
    (eapply Forall_forall in Hall; [| done]); simpl in Hall; [lia | lia |].
  destruct Hall as [? | ?]; [done | lia].
Qed.

Lemma subscribed_unread e s evs l :
  (∀ s', EvRead (Some e) s' ∉ evs) →
  subscribed e s (evs ++ l) = true →
  (EvDispose e ∉ evs) ∧ subscribed e s l = true.
Proof.
  intros Hu. induction evs as [| ev evs IH]; simpl.
  - intros ?. split; [apply not_elem_of_nil | done].
  - assert (∀ s', EvRead (Some e) s' ∉ evs) as Hu'.
    { intros s' Hin. apply (Hu s'). by right. }
    specialize (IH Hu').
    destruct ev as [[e' |] s' | e' | e' | e' c | e' | e' | f];
      try (intros [? ?]%IH; split; [| done];
           intros [? | ?]%elem_of_cons; done).
    + case_decide as Hd.
      * destruct Hd as [-> ->]. exfalso. apply (Hu s). by left.
      * intros [? ?]%IH; split; [| done]. intros [? | ?]%elem_of_cons; done.
    + case_decide as Hd; [done |].
      intros [? ?]%IH; split; [| done]. intros [? | ?]%elem_of_cons; done.
    + case_decide as Hd; [done |].
      intros [? ?]%IH; split; [| done]. intros [[= ->] | ?]%elem_of_cons; done.
Qed.

Lemma unread_refl e st : unread e st st.
Proof. exists []. split_and!; [done | apply not_elem_of_nil | intros s; apply not_elem_of_nil]. Qed.

Lemma unread_trans e st1 st2 st3 : unread e st1 st2 → unread e st2 st3 → unread e st1 st3.
Proof.
  intros (evs1 & Hl1 & Hb1 & Hr1) (evs2 & Hl2 & Hb2 & Hr2). exists (evs2 ++ evs1).
  split_and!.
  - by rewrite Hl2, Hl1, app_assoc.
  - rewrite not_elem_of_app. done.
  - intros s. rewrite not_elem_of_app. split; [apply Hr2 | apply Hr1].
Qed.

Lemma trans_unread e st st' :
  trans st st' → e < length (effects st) → currentEffect st ≠ Some e → unread e st st'.
Proof.
  intros (evs & Hl & Hall)%trans_log He Hctx. exists evs.
  destruct (unread_allowed e st evs He Hctx Hall) as (? & _ & ?). done.
Qed.

(** Where [e] read nothing its subscriptions only go, and a disposal left
    none. *)
Lemma unread_subs e st st' :
  consistent st → consistent st' → unread e st st' →
  ∃ evs, log st' = evs ++ log st ∧ (EvBody e ∉ evs)
    ∧ (∀ s, EvRead (Some e) s ∉ evs)
    ∧ ∀ s, e ∈ subs_of s st' → e ∈ subs_of s st ∧ (EvDispose e ∉ evs).
Proof.
  intros Hc Hc' (evs & Hl & Hb & Hr). exists evs. split_and!; try done.
  intros s Hin. apply (log_subs _ Hc') in Hin. rewrite Hl in Hin.
  apply subscribed_unread in Hin as [? ?]; [| done].
  split; [by apply (log_subs _ Hc) | done].
Qed.

Lemma run_unread fuel e e' st st' o :
  e' ≠ e → e < length (effects st) → currentEffect st ≠ Some e →
  run (call fuel) e' st = Some (st', o) → unread e st st'.
Proof.
  intros Hne He Hctx H.
  assert (∀ fs st0 st1 o1,
    call_each (call fuel) (λ c, record (EvCleanup e' c)) fs st0 = Some (st1, o1) →
    e < length (effects st0) ∧ currentEffect st0 ≠ Some e →
    (e < length (effects st1) ∧ currentEffect st1 ≠ Some e) ∧ unread e st0 st1) as Hcl.
  { intros fs st0 st1 o1.
    apply (call_each_rel _ (λ st st',
      e < length (effects st) ∧ currentEffect st ≠ Some e →
      (e < length (effects st') ∧ currentEffect st' ≠ Some e) ∧ unread e st st')).
    - intros st2 ?. split; [done | apply unread_refl].
    - intros st2 st3 st4 H1 H2 [H3 Hu3]%H1. destruct (H2 H3) as [H4 Hu4].
      split; [done | by eapply unread_trans].
    - intros f st2 H2. split; [done |]. exists [EvCleanup e' f].
      split_and!; [done | | intros s]; by intros [? | ?%elem_of_nil]%elem_of_cons.
    - intros f arg st2 st3 o3 Ht%call_trans [He2 Hctx2]. split_and!.
      + apply trans_extends in Ht as (_ & ? & _). lia.
      + by rewrite (trans_currentEffect _ _ Ht).
      + by apply trans_unread. }
  apply run_inv in H
    as [(_ & -> & _) | (ef & He' & [(v & H1 & _) | (st1 & u & st6 & o6 & H1 & H2 & -> & _)])].
  - apply unread_refl.
  - by eapply Hcl.
  - destruct (Hcl _ _ _ _ H1) as [[He1 Hctx1] Hu1]; [done |].
    eapply unread_trans; [apply Hu1 |].
    eapply unread_trans.
    { exists [EvBody e'; EvReset e']. split; [apply enter_run_log |].
      split; [| intros s]; rewrite !not_elem_of_cons;
        split_and!; try done; try apply not_elem_of_nil. congruence. }
    eapply unread_trans.
    { eapply trans_unread; [by eapply call_trans | |].
      - by rewrite extends_enter_run_length.
      - simpl. congruence. }
    exists []. split_and!; [by destruct (settle o6) | apply not_elem_of_nil |].
    intros s. apply not_elem_of_nil.
Qed.

Lemma run_length fuel e st st' o :
  run (call fuel) e st = Some (st', o) → length (effects st) ≤ length (effects st').
Proof.
  intros [(_ & -> & _) | (ef & He & [(v & H1 & _) | (st1 & u & st6 & o6 & H1 & H2 & -> & _)])]%run_inv.
  - done.
  - apply run_cleanups_frame in H1 as ((_ & ? & _) & _). done.
  - apply run_cleanups_frame in H1 as ((_ & Hlen1 & _) & _).
    apply call_trans, trans_extends in H2 as (_ & Hlen2 & _).
    rewrite extends_enter_run_length in Hlen2.
    destruct (settle o6); simpl; rewrite ?length_alter; lia.
Qed.

Lemma elem_of_jobs_of e evs : e ∈ jobs_of evs ↔ EvJob e ∈ evs.
Proof.
  unfold jobs_of. rewrite list_elem_of_In, <- in_rev, <- list_elem_of_In, list_elem_of_omap.
  split.
  - intros (ev & Hin & Hev). destruct ev; simplify_eq/=. done.
  - intros Hin. by exists (EvJob e).
Qed.

Lemma pass_dormant fuel i e st jobs st' o :
  pass fuel i st jobs st' o → dormant e st → (e ∉ jobs) ∧ dormant e st' ∧ quiet e st st'.
Proof.
  intros Hp Hd. apply pass_jobs in Hp as Hj. destruct Hj as (_ & (evs & Hl & Hj) & _).
  apply (pass_flush_from _ (length jobs)) in Hp; [| done].
  destruct (flush_from_dormant _ _ _ _ _ _ _ Hp Hd) as [Hd' Hq].
  split_and!; [| done | done].
  destruct Hq as (evs' & Hl' & Hnj & _).
  assert (evs' = evs) as -> by (eapply app_inv_tail; by rewrite <- Hl, <- Hl').
  rewrite <- Hj. by rewrite elem_of_jobs_of.
Qed.

(** C5 as amended.  The disposer calls the pending cleanups of the effect in
    order and, when they have returned, removes the effect from the
    subscribers of its dependencies and returns: no signal has the effect as
    a subscriber then, and the queue is what the cleanups left.  If its run
    is not in the queue at that point and it is not the effect that is
    running, the effect is dormant, and stays so whatever runs from there,
    from any state: a call, the rest of the code of a callback, the run of
    another effect, the rest of a pass of [flush], a microtask, any number of
    tasks and microtasks; no pass invokes it and it is never queued and never
    a subscriber again.  Over a whole call, or a whole run of another effect,
    that starts while the effect is not the tracking context, the body of the
    effect is not called and it reads nothing, so it gains no subscription,
    a disposal in it leaves it without any, and it is dormant at the end
    unless its run is in the queue.  A run that was queued before the
    disposal stays in the queue: a pass of [flush] that completes invokes
    every job pending in the queue, that one included, and the run makes the
    effect a subscriber of the signals its body reads again. *)
Theorem dispose_stops_reruns :
  (∀ fuel e ef st st0 u,
     consistent st → effects st !! e = Some ef →
     each_called (call fuel) (λ _, id) (cleanups ef) st st0 (Normal u) →
     let st1 := record (EvDispose e) (unsubscribe e st0) in
     dispose (call fuel) e st = Some (st1, Normal VUndef)
     ∧ (∀ s, e ∉ subs_of s st1)
     ∧ queue st1 = queue st0 ∧ queue st `prefix_of` queue st0
     ∧ (e ∉ queue st1 → currentEffect st ≠ Some e → dormant e st1))
  ∧ (∀ e st, dormant e st →
       (∀ fuel f arg st' o,
          call fuel f arg st = Some (st', o) → dormant e st' ∧ quiet e st st')
       ∧ (∀ fuel p st' o,
            exec (call fuel) p st = Some (st', o) → dormant e st' ∧ quiet e st st')
       ∧ (∀ fuel e' st' o, e' ≠ e →
            run (call fuel) e' st = Some (st', o) → dormant e st' ∧ quiet e st st')
       ∧ (∀ fuel i jobs st' o,
            pass fuel i st jobs st' o → (e ∉ jobs) ∧ dormant e st' ∧ quiet e st st')
       ∧ (∀ fuel st' o,
            microtask fuel st = Some (st', o) → dormant e st' ∧ quiet e st st')
       ∧ (∀ st', later st st' → dormant e st' ∧ quiet e st st'))
  ∧ (∀ e st st',
       consistent st → e < length (effects st) → currentEffect st ≠ Some e →
       (∃ fuel f arg o, call fuel f arg st = Some (st', o))
       ∨ (∃ fuel e' o, e' ≠ e ∧ run (call fuel) e' st = Some (st', o)) →
       ∃ evs, log st' = evs ++ log st ∧ (EvBody e ∉ evs)
         ∧ (∀ s, EvRead (Some e) s ∉ evs)
         ∧ (∀ s, e ∈ subs_of s st' → e ∈ subs_of s st ∧ (EvDispose e ∉ evs))
         ∧ (EvDispose e ∈ evs → e ∉ queue st' → dormant e st'))
  ∧ (∀ fuel i st jobs st1 v e,
       pass fuel i st jobs st1 (Normal v) → e ∈ drop i (queue st) → e ∈ jobs)
  ∧ (∀ fuel e ef st st1 u st6 o6,
       consistent st → effects st !! e = Some ef →
       each_called (call fuel) (λ c, record (EvCleanup e c)) (cleanups ef) st st1 (Normal u) →
       call fuel (fn ef) VUndef (enter_run e st1) = Some (st6, o6) →
       let st' := set_currentEffect (currentEffect st) (push_cleanup e (settle o6) st6) in
       run (call fuel) e st = Some (st', run_outcome o6)
       ∧ ∃ evs, log st' = evs ++ EvBody e :: EvReset e :: log st1
           ∧ ∀ s, e ∈ subs_of s st' ↔
               ∃ l1 l2, evs = l1 ++ EvRead (Some e) s :: l2 ∧ (EvDispose e ∉ l1)).
Proof.
  split_and!.
  - intros fuel e ef st st0 u Hc He H1 st1.
    destruct (dispose_returns fuel e ef st st0 u Hc He H1)
      as (Hd & _ & Hsubs & _ & Hq & Hpre & Hctx & Hlen).
    split_and!; try done. intros Hnq Hne. split_and!; try done.
    subst st1. by rewrite Hctx.
  - intros e st Hd. split_and!.
    + intros fuel f arg st' o H. by eapply call_dormant.
    + intros fuel p st' o H. by eapply exec_dormant.
    + intros fuel e' st' o Hne H. by eapply run_dormant.
    + intros fuel i jobs st' o H. by eapply pass_dormant.
    + intros fuel st' o H. by eapply microtask_dormant.
    + intros st' H. by eapply later_dormant.
  - intros e st st' Hc He Hctx Hstep.
    assert (consistent st' ∧ unread e st st' ∧ currentEffect st' = currentEffect st
            ∧ length (effects st) ≤ length (effects st')) as (Hc' & Hu & Hctx' & Hlen).
    { destruct Hstep as [(fuel & f & arg & o & H) | (fuel & e' & o & Hne & H)].
      - apply call_trans in H as Ht. split_and!.
        + by eapply trans_consistent.
        + by apply trans_unread.
        + by apply trans_currentEffect.
        + apply trans_extends in Ht. apply Ht.
      - split_and!.
        + by eapply run_consistent.
        + by eapply run_unread.
        + by eapply strans_currentEffect, run_strans.
        + by eapply run_length. }
    destruct (unread_subs e st st' Hc Hc' Hu) as (evs & Hl & Hb & Hr & Hsubs).
    exists evs. split_and!; try done.
    intros Hdis Hnq. split_and!; [lia | congruence | done |].
    intros s Hin. by apply Hsubs in Hin as [_ ?].
  - intros fuel i st jobs st1 v e Hp He. by eapply pass_pending.
  - intros fuel e ef st st1 u st6 o6 Hc He H1 H2 st'.
    split; [by eapply run_returns |].
    apply each_called_frame in H1 as Hf. destruct Hf as ((_ & Hlen & _) & _).
    apply call_each_called, run_cleanups_strans in H1.
    destruct (run_edges fuel e (fn ef) (currentEffect st) (settle o6) st1 st6 o6)
      as (_ & _ & evs & Hl & _ & Hs); [| | done |].
    + by eapply strans_consistent.
    + apply lookup_lt_Some in He. lia.
    + by exists evs.
Qed.

(** ** Cleanups *)



Lemma allowed_not_body e st evs :
  e < length (effects st) → Forall (allowed st) evs → EvBody e ∉ evs.
Proof.
  intros He Hall Hin. eapply Forall_forall in Hall; [| done]. simpl in Hall. lia.
Qed.





Lemma cleanups_of_alloc_effect ef e st :
  cleanups_of e (upd_effects (λ l, l ++ [ef]) st) =
  if decide (e = length (effects st)) then cleanups ef else cleanups_of e st.
Proof.
  unfold cleanups_of. simpl. case_decide as Hd.
  - subst. by rewrite lookup_app_r, Nat.sub_diag.
  - destruct (decide (e < length (effects st))).
    + by rewrite lookup_app_l.
    + rewrite !lookup_ge_None_2; [done | lia |]. rewrite length_app. simpl. lia.
Qed.




(** ** Computed signals *)

Lemma enter_run_fresh f st :
  enter_run (length (effects st)) (upd_effects (λ l, l ++ [mkEffect f [] []]) st)
  = enter_effect f st.
Proof.
  unfold enter_run, enter_effect, reset.
  set (e := length (effects st)).
  set (st1 := upd_effects (λ l, l ++ [mkEffect f [] []]) st).
  assert (upd_cleanups e (λ _, []) st1 = st1) as ->.
  { apply upd_effects_same. subst e st1. simpl. by rewrite alter_fresh. }
  assert (unsubscribe e st1 = st1) as ->.
  { unfold unsubscribe, deps_of. subst e st1. simpl.
    by rewrite lookup_app_r, Nat.sub_diag. }
  assert (upd_deps e (λ _, []) st1 = st1) as ->; [| done].
  apply upd_effects_same. subst e st1. simpl. by rewrite alter_fresh.
Qed.

Lemma effect_unfold (call : jsval → jsval → state → result) f st :
  effect call f st =
  bind (finally
          (bind (call f VUndef (enter_effect f st)) (λ cleanup st6,
             ret VUndef (push_cleanup (length (effects st)) (settle (Normal cleanup)) st6)))
          (set_currentEffect (currentEffect st)))
       (λ _ st2, ret (VDisposer (length (effects st))) st2).
Proof.
  unfold effect.
  rewrite (run_unfold _ _ _ (mkEffect f [] [])).
  - simpl call_each. unfold ret at 1. simpl bind at 2. by rewrite enter_run_fresh.
  - simpl. by rewrite lookup_app_r, Nat.sub_diag.
Qed.

Lemma setter_literal (call : jsval → jsval → state → result) s v st :
  is_function v = false → is_Some (signals st !! s) →
  setter call s v st = Some (written s v st, Normal VUndef).
Proof.
  intros Hf [sg Hs]. unfold setter, candidate, written. rewrite Hs, Hf. simpl.
  by destruct (object_is (value_of s st) v).
Qed.

Lemma notify_queue_elem s e st : e ∈ subs_of s st → e ∈ queue (notify s st).
Proof.
  unfold notify. generalize (subs_of s st) as l. intros l. revert st.
  induction l as [| x l IH]; intros st; [by intros ?%elem_of_nil |]. simpl.
  assert (∀ l' st', e ∈ queue st' →
            e ∈ queue (foldl (λ st sub, schedule sub st) st' l')) as Hkeep.
  { induction l' as [| y l' IH']; intros st' Hin; simpl; [done |].
    apply IH'. rewrite schedule_queue. case_decide; [done |].
    apply elem_of_app. by left. }
  intros [-> | Hin]%elem_of_cons; [| by apply IH].
  apply Hkeep. rewrite schedule_queue. case_decide; [done |].
  apply elem_of_app. right. by apply list_elem_of_singleton.
Qed.

Lemma written_spec s r st :
  is_Some (signals st !! s) →
  value_of s (written s r st) = r
  ∧ (object_is (value_of s st) r = true → written s r st = st)
  ∧ (object_is (value_of s st) r = false →
     ∀ e, e ∈ subs_of s st → e ∈ queue (written s r st)).
Proof.
  intros Hs. unfold written. destruct (object_is (value_of s st) r) eqn:Hid.
  - split_and!; [by apply bool_decide_eq_true in Hid | done | done].
  - split_and!; [| done |].
    + by rewrite value_of_notify, value_of_set_value.
    + intros _ e He. apply notify_queue_elem. unfold subs_of, set_value. simpl.
      rewrite list_lookup_alter_eq. unfold subs_of in He.
      by destruct (signals st !! s).
Qed.

Lemma written_frame s r st :
  currentEffect (written s r st) = currentEffect st
  ∧ effects (written s r st) = effects st
  ∧ log (written s r st) = log st
  ∧ ∀ s', subs_of s' (written s r st) = subs_of s' st.
Proof.
  unfold written. destruct (object_is _ _); [done |].
  destruct (notify_frame s (set_value s r st)) as (-> & Hs & -> & _ & _ & ->).
  split_and!; try done. intros s'. unfold subs_of. rewrite Hs. unfold set_value. simpl.
  destruct (decide (s = s')) as [<- | Hne].
  - rewrite list_lookup_alter_eq. by destruct (signals st !! s).
  - by rewrite list_lookup_alter_ne.
Qed.



Lemma notify_fold_microtasks l st :
  microtasks (foldl (λ st sub, schedule sub st) st l)
  = if flushing st || bool_decide (l = []) then microtasks st else S (microtasks st).
Proof.
  revert st. induction l as [| x l IH]; intros st; cbn [foldl].
  - rewrite bool_decide_eq_true_2 by done. by rewrite orb_true_r.
  - rewrite IH, schedule_flushing, schedule_microtasks. cbn [orb].
    rewrite (bool_decide_eq_false_2 (x :: l = [])) by done. by rewrite orb_false_r.
Qed.





(** ** The history is not read *)

Lemma forget_fields st1 st2 :
  forget st1 = forget st2 ↔
  currentEffect st1 = currentEffect st2 ∧ signals st1 = signals st2
  ∧ effects st1 = effects st2 ∧ closures st1 = closures st2
  ∧ scopes st1 = scopes st2 ∧ flushing st1 = flushing st2
  ∧ queue st1 = queue st2 ∧ microtasks st1 = microtasks st2.
Proof.
  destruct st1, st2. unfold forget. simpl. split.
  - intros [= -> -> -> -> -> -> -> ->]. done.
  - intros (-> & -> & -> & -> & -> & -> & -> & ->). done.
Qed.

Lemma forget_record ev1 ev2 st1 st2 :
  forget st1 = forget st2 → forget (record ev1 st1) = forget (record ev2 st2).
Proof. rewrite !forget_fields. done. Qed.

Lemma forget_schedule job st1 st2 :
  forget st1 = forget st2 → forget (schedule job st1) = forget (schedule job st2).
Proof.
  intros H. destruct st1, st2. apply forget_fields in H. simpl in H.
  destruct H as (-> & -> & -> & -> & -> & -> & -> & ->).
  unfold schedule. simpl. case_decide; simpl; by case_match.
Qed.

Lemma forget_foldl {A} (g : state → A → state) l st1 st2 :
  (∀ x st1 st2, forget st1 = forget st2 → forget (g st1 x) = forget (g st2 x)) →
  forget st1 = forget st2 → forget (foldl g st1 l) = forget (foldl g st2 l).
Proof.
  intros Hg. revert st1 st2. induction l as [| x l IH]; intros st1 st2 H; simpl; auto.
Qed.

Lemma forget_notify s st1 st2 :
  forget st1 = forget st2 → forget (notify s st1) = forget (notify s st2).
Proof.
  intros H. unfold notify, subs_of.
  pose proof H as (_ & -> & _)%forget_fields.
  apply forget_foldl; [| done]. intros x ???. by apply forget_schedule.
Qed.

Lemma forget_upd_subs s f st1 st2 :
  forget st1 = forget st2 → forget (upd_subs s f st1) = forget (upd_subs s f st2).
Proof. rewrite !forget_fields. simpl. by intros (-> & -> & -> & -> & -> & -> & -> & ->). Qed.

Lemma forget_unsubscribe e st1 st2 :
  forget st1 = forget st2 → forget (unsubscribe e st1) = forget (unsubscribe e st2).
Proof.
  intros H. unfold unsubscribe, deps_of.
  pose proof H as (_ & _ & -> & _)%forget_fields.
  apply forget_foldl; [| done]. intros x ???. by apply forget_upd_subs.
Qed.

Lemma Some_pair_inj {A B} (a a' : A) (b b' : B) :
  Some (a, b) = Some (a', b') → a = a' ∧ b = b'.
Proof. by intros [= -> ->]. Qed.

Lemma forget_result_bind r1 r2 k1 k2 :
  forget_result r1 = forget_result r2 →
  (∀ v st1 st2, forget st1 = forget st2 →
     forget_result (k1 v st1) = forget_result (k2 v st2)) →
  forget_result (bind r1 k1) = forget_result (bind r2 k2).
Proof.
  destruct r1 as [[st1 [v1 | v1]] |], r2 as [[st2 [v2 | v2]] |]; simpl; try done.
  intros [H [= ->]]%Some_pair_inj Hk. by apply Hk.
Qed.

Lemma forget_result_finally r1 r2 u1 u2 :
  forget_result r1 = forget_result r2 →
  (∀ st1 st2, forget st1 = forget st2 → forget (u1 st1) = forget (u2 st2)) →
  forget_result (finally r1 u1) = forget_result (finally r2 u2).
Proof.
  destruct r1 as [[st1 o1] |], r2 as [[st2 o2] |]; simpl; try done.
  intros [H ->]%Some_pair_inj Hu. by rewrite (Hu _ _ H).
Qed.

Ltac forget_fields :=
  rewrite !forget_fields; simpl;
  let H := fresh in
  intros H; destruct H as (? & ? & ? & ? & ? & ? & ? & ?);
  repeat match goal with H : _ = _ |- _ => rewrite H; clear H end; done.

Section Forget.

Variable call : jsval → jsval → state → result.
Hypothesis call_forget : ∀ f arg st1 st2,
  forget st1 = forget st2 →
  forget_result (call f arg st1) = forget_result (call f arg st2).

Lemma call_each_forget b1 b2 fs st1 st2 :
  (∀ f st1 st2, forget st1 = forget st2 → forget (b1 f st1) = forget (b2 f st2)) →
  forget st1 = forget st2 →
  forget_result (call_each call b1 fs st1) = forget_result (call_each call b2 fs st2).
Proof.
  intros Hb. revert st1 st2. induction fs as [| f fs IH]; intros st1 st2 H; simpl.
  - by rewrite H.
  - apply forget_result_bind; [| intros; by apply IH]. by apply call_forget, Hb.
Qed.

Lemma getter_forget s st1 st2 :
  forget st1 = forget st2 →
  forget_result (getter s st1) = forget_result (getter s st2).
Proof.
  intros H. unfold getter. pose proof H as (Hc & Hs & _)%forget_fields.
  rewrite Hs, Hc. destruct (signals st2 !! s); simpl; [| by rewrite H].
  f_equal. f_equal. apply forget_record.
  destruct (currentEffect st2); [| done]. revert H. forget_fields.
Qed.

Lemma setter_forget s v st1 st2 :
  forget st1 = forget st2 →
  forget_result (setter call s v st1) = forget_result (setter call s v st2).
Proof.
  intros H. unfold setter. pose proof H as (_ & Hs & _)%forget_fields.
  rewrite Hs. destruct (signals st2 !! s); simpl; [| by rewrite H].
  apply forget_result_bind.
  - unfold candidate, value_of. rewrite Hs.
    destruct (is_function v); [by apply call_forget | simpl; by rewrite H].
  - intros w st1' st2' H'. unfold value_of.
    pose proof H' as (_ & -> & _)%forget_fields.
    destruct (object_is _ w); simpl; [by rewrite H' |].
    f_equal. f_equal. apply forget_notify. revert H'. forget_fields.
Qed.

Lemma run_forget e st1 st2 :
  forget st1 = forget st2 →
  forget_result (run call e st1) = forget_result (run call e st2).
Proof.
  intros H. unfold run. pose proof H as (_ & _ & He & _)%forget_fields.
  rewrite He. destruct (effects st2 !! e) as [ef |]; simpl; [| by rewrite H].
  apply forget_result_bind.
  { apply call_each_forget; [| done]. intros. by apply forget_record. }
  intros _ st1' st2' H'.
  assert (forget (upd_deps e (λ _, []) (unsubscribe e (upd_cleanups e (λ _, []) st1')))
          = forget (upd_deps e (λ _, []) (unsubscribe e (upd_cleanups e (λ _, []) st2'))))
    as Hreset.
  { assert (forget (unsubscribe e (upd_cleanups e (λ _, []) st1'))
            = forget (unsubscribe e (upd_cleanups e (λ _, []) st2'))) as Hu.
    { apply forget_unsubscribe. revert H'. forget_fields. }
    revert Hu. forget_fields. }
  simpl.
  destruct (unsubscribe_frame e (upd_cleanups e (λ _, []) st1')) as (-> & _).
  destruct (unsubscribe_frame e (upd_cleanups e (λ _, []) st2')) as (-> & _).
  simpl. pose proof H' as (-> & _)%forget_fields.
  apply forget_result_finally; [| intros ??; forget_fields].
  apply forget_result_bind.
  - apply call_forget. revert Hreset. forget_fields.
  - intros c st1'' st2'' H''. destruct (truthy c && is_function c); simpl.
    + f_equal. f_equal. revert H''. forget_fields.
    + by rewrite H''.
Qed.

Lemma dispose_forget e st1 st2 :
  forget st1 = forget st2 →
  forget_result (dispose call e st1) = forget_result (dispose call e st2).
Proof.
  intros H. unfold dispose. pose proof H as (_ & _ & He & _)%forget_fields.
  rewrite He. destruct (effects st2 !! e) as [ef |]; simpl; [| by rewrite H].
  apply forget_result_bind; [by apply call_each_forget |].
  intros _ st1' st2' H'. simpl. f_equal. f_equal.
  apply forget_record. by apply forget_unsubscribe.
Qed.

Lemma effect_forget f st1 st2 :
  forget st1 = forget st2 →
  forget_result (effect call f st1) = forget_result (effect call f st2).
Proof.
  intros H. unfold effect. pose proof H as (_ & _ & He & _)%forget_fields. rewrite He.
  apply forget_result_bind.
  - apply run_forget. revert H. forget_fields.
  - intros _ st1' st2' H'. simpl. by rewrite H'.
Qed.

Lemma ignore_forget f st1 st2 :
  forget st1 = forget st2 →
  forget_result (ignore call f st1) = forget_result (ignore call f st2).
Proof.
  intros H. unfold ignore. pose proof H as (Hc & _)%forget_fields. rewrite Hc.
  apply forget_result_finally; [| intros ??; forget_fields].
  apply call_forget. revert H. forget_fields.
Qed.

Lemma scope_each_forget c n i st1 st2 :
  forget st1 = forget st2 →
  forget_result (scope_each call c n i st1) = forget_result (scope_each call c n i st2).
Proof.
  revert i st1 st2. induction n as [| n IH]; intros i st1 st2 H; simpl.
  - by rewrite H.
  - unfold scope_cleanups. pose proof H as (_ & _ & _ & _ & -> & _)%forget_fields.
    destruct (default [] (scopes st2 !! c) !! i); [| by apply IH].
    apply forget_result_bind; [by apply call_forget | intros; by apply IH].
Qed.

Lemma scope_dispose_forget c st1 st2 :
  forget st1 = forget st2 →
  forget_result (scope_dispose call c st1) = forget_result (scope_dispose call c st2).
Proof.
  intros H. unfold scope_dispose. pose proof H as (_ & _ & _ & _ & Hs & _)%forget_fields.
  rewrite Hs. destruct (scopes st2 !! c); simpl; [| by rewrite H].
  apply forget_result_bind; [by apply scope_each_forget |].
  intros _ st1' st2' H'. simpl. f_equal. f_equal. revert H'. forget_fields.
Qed.

Lemma scope_hook_forget st1 st2 :
  forget st1 = forget st2 →
  forget_result (scope_hook call st1) = forget_result (scope_hook call st2).
Proof.
  intros H. unfold scope_hook, cleanups_of.
  pose proof H as (-> & _ & -> & _)%forget_fields.
  destruct (currentEffect st2); simpl; [by apply call_each_forget | by rewrite H].
Qed.

Lemma scope_forget f st1 st2 :
  forget st1 = forget st2 →
  forget_result (scope call f st1) = forget_result (scope call f st2).
Proof.
  intros H. unfold scope. simpl. pose proof H as (-> & _ & _ & _ & -> & _)%forget_fields.
  apply forget_result_finally; [| intros ??; forget_fields].
  apply forget_result_bind.
  - apply call_forget. revert H. forget_fields.
  - intros r st1' st2' H'. simpl. pose proof H' as (-> & _)%forget_fields.
    f_equal. f_equal. destruct (currentEffect st2'); [| done]. revert H'. forget_fields.
Qed.

Lemma exec_forget p st1 st2 :
  forget st1 = forget st2 →
  forget_result (exec call p st1) = forget_result (exec call p st2).
Proof.
  revert st1 st2.
  induction p as [v | v | body _ k IH | f arg k IH | v k IH | f k IH | f k IH | f k IH
                 | body IHb handler IHh k IHk]; intros st1 st2 H; simpl.
  - by rewrite H.
  - by rewrite H.
  - pose proof H as (_ & _ & _ & -> & _)%forget_fields. apply IH. revert H. forget_fields.
  - pose proof (call_forget f arg _ _ H) as Hc.
    destruct (call f arg st1) as [[st1' [v1 | v1]] |],
             (call f arg st2) as [[st2' [v2 | v2]] |]; simpl in Hc; try done.
    apply Some_pair_inj in Hc as [H' [= ->]]. by apply IH.
  - pose proof H as (_ & -> & _)%forget_fields. apply IH. revert H. forget_fields.
  - pose proof (effect_forget f _ _ H) as Hc.
    destruct (effect call f st1) as [[st1' [v1 | v1]] |],
             (effect call f st2) as [[st2' [v2 | v2]] |]; simpl in Hc; try done.
    apply Some_pair_inj in Hc as [H' [= ->]]. by apply IH.
  - pose proof (ignore_forget f _ _ H) as Hc.
    destruct (ignore call f st1) as [[st1' [v1 | v1]] |],
             (ignore call f st2) as [[st2' [v2 | v2]] |]; simpl in Hc; try done.
    apply Some_pair_inj in Hc as [H' [= ->]]. by apply IH.
  - pose proof (scope_forget f _ _ H) as Hc.
    destruct (scope call f st1) as [[st1' [v1 | v1]] |],
             (scope call f st2) as [[st2' [v2 | v2]] |]; simpl in Hc; try done.
    apply Some_pair_inj in Hc as [H' [= ->]]. by apply IH.
  - specialize (IHb _ _ H).
    destruct (exec call body st1) as [[st1' [v1 | v1]] |],
             (exec call body st2) as [[st2' [v2 | v2]] |]; simpl in IHb; try done.
    + apply Some_pair_inj in IHb as [H' [= ->]]. by apply IHk.
    + apply Some_pair_inj in IHb as [H' [= ->]].
      specialize (IHh v2 _ _ H').
      destruct (exec call (handler v2) st1') as [[st1'' [w1 | w1]] |],
               (exec call (handler v2) st2') as [[st2'' [w2 | w2]] |]; simpl in IHh; try done.
      apply Some_pair_inj in IHh as [H'' [= ->]]. by apply IHk.
Qed.

Lemma apply_forget f arg st1 st2 :
  forget st1 = forget st2 →
  forget_result (apply call f arg st1) = forget_result (apply call f arg st2).
Proof.
  intros H. unfold apply.
  assert (forget (record (EvApply f) st1) = forget (record (EvApply f) st2)) as H'
    by by apply forget_record.
  destruct f; simpl.
  - by rewrite H'.
  - by rewrite H'.
  - pose proof H as (_ & _ & _ & -> & _)%forget_fields.
    destruct (closures st2 !! c); [by apply exec_forget | simpl; by rewrite H'].
  - by apply getter_forget.
  - by apply setter_forget.
  - by apply dispose_forget.
  - by apply scope_dispose_forget.
  - by apply scope_hook_forget.
Qed.

End Forget.

(** What a call into the module does to the tables, and how it ends, does not
    depend on the history. *)
Lemma call_forget fuel f arg st1 st2 :
  forget st1 = forget st2 →
  forget_result (call fuel f arg st1) = forget_result (call fuel f arg st2).
Proof.
  revert f arg st1 st2. induction fuel as [| n IH]; intros f arg st1 st2 H; simpl; [done |].
  by apply apply_forget.
Qed.

Lemma flush_forget fuel st1 st2 :
  forget st1 = forget st2 →
  forget_result (flush fuel st1) = forget_result (flush fuel st2).
Proof.
  intros H. unfold flush. apply forget_result_bind.
  - generalize fuel at 2 4 as n. generalize 0 as i. intros i n.
    revert i st1 st2 H. induction n as [| n IH]; intros i st1 st2 H; simpl.
    + pose proof H as (_ & _ & _ & _ & _ & _ & -> & _)%forget_fields.
      destruct (queue st2 !! i); simpl; [done | by rewrite H].
    + pose proof H as (_ & _ & _ & _ & _ & _ & -> & _)%forget_fields.
      destruct (queue st2 !! i); simpl; [| by rewrite H].
      apply forget_result_bind; [| intros; by apply IH].
      apply run_forget; [intros; by apply call_forget | by apply forget_record].
  - intros _ st1' st2' H'. simpl. f_equal. f_equal. revert H'. forget_fields.
Qed.

(** ** More stack changes no answer *)

Lemma result_le_refl r : result_le r r.
Proof. by intros x. Qed.

Lemma result_le_bind r1 r2 k1 k2 :
  result_le r1 r2 → (∀ v st, result_le (k1 v st) (k2 v st)) →
  result_le (bind r1 k1) (bind r2 k2).
Proof.
  intros Hr Hk x. destruct r1 as [[st [v | v]] |]; simpl; [| | done].
  - rewrite (Hr _ eq_refl). simpl. apply Hk.
  - by rewrite (Hr _ eq_refl).
Qed.

Lemma result_le_finally r1 r2 u :
  result_le r1 r2 → result_le (finally r1 u) (finally r2 u).
Proof.
  intros Hr x. destruct r1 as [[st o] |]; simpl; [| done]. by rewrite (Hr _ eq_refl).
Qed.

Section MoreStack.

Variables call call' : jsval → jsval → state → result.
Hypothesis call_le : ∀ f arg st, result_le (call f arg st) (call' f arg st).

Lemma call_each_le before fs st :
  result_le (call_each call before fs st) (call_each call' before fs st).
Proof.
  revert st. induction fs as [| f fs IH]; intros st; simpl; [apply result_le_refl |].
  apply result_le_bind; [apply call_le | intros; apply IH].
Qed.

Lemma setter_le s v st : result_le (setter call s v st) (setter call' s v st).
Proof.
  unfold setter. destruct (signals st !! s); [| apply result_le_refl].
  apply result_le_bind; [| intros; apply result_le_refl].
  unfold candidate. destruct (is_function v); [apply call_le | apply result_le_refl].
Qed.

Lemma run_le e st : result_le (run call e st) (run call' e st).
Proof.
  unfold run. destruct (effects st !! e); [| apply result_le_refl].
  apply result_le_bind; [apply call_each_le |]. intros _ st1.
  apply result_le_finally, result_le_bind; [apply call_le | intros; apply result_le_refl].
Qed.

Lemma dispose_le e st : result_le (dispose call e st) (dispose call' e st).
Proof.
  unfold dispose. destruct (effects st !! e); [| apply result_le_refl].
  apply result_le_bind; [apply call_each_le | intros; apply result_le_refl].
Qed.

Lemma effect_le f st : result_le (effect call f st) (effect call' f st).
Proof.
  unfold effect. apply result_le_bind; [apply run_le | intros; apply result_le_refl].
Qed.

Lemma ignore_le f st : result_le (ignore call f st) (ignore call' f st).
Proof. unfold ignore. apply result_le_finally, call_le. Qed.

Lemma scope_each_le c n i st :
  result_le (scope_each call c n i st) (scope_each call' c n i st).
Proof.
  revert i st. induction n as [| n IH]; intros i st; simpl; [apply result_le_refl |].
  destruct (scope_cleanups c st !! i); [| apply IH].
  apply result_le_bind; [apply call_le | intros; apply IH].
Qed.

Lemma scope_dispose_le c st :
  result_le (scope_dispose call c st) (scope_dispose call' c st).
Proof.
  unfold scope_dispose. destruct (scopes st !! c); [| apply result_le_refl].
  apply result_le_bind; [apply scope_each_le | intros; apply result_le_refl].
Qed.

Lemma scope_hook_le st : result_le (scope_hook call st) (scope_hook call' st).
Proof.
  unfold scope_hook. destruct (currentEffect st); [apply call_each_le | apply result_le_refl].
Qed.

Lemma scope_le f st : result_le (scope call f st) (scope call' f st).
Proof.
  unfold scope. apply result_le_finally, result_le_bind;
    [apply call_le | intros; apply result_le_refl].
Qed.

Lemma exec_le p st : result_le (exec call p st) (exec call' p st).
Proof.
  revert st.
  induction p as [v | v | body _ k IH | f arg k IH | v k IH | f k IH | f k IH | f k IH
                 | body IHb handler IHh k IHk]; intros st x; simpl; try done.
  - apply IH.
  - destruct (call f arg st) as [[st1 [v | v]] |] eqn:Hc; [| | done];
      rewrite (call_le _ _ _ _ Hc); [apply IH | done].
  - apply IH.
  - destruct (effect call f st) as [[st1 [v | v]] |] eqn:Hc; [| | done];
      rewrite (effect_le _ _ _ Hc); [apply IH | done].
  - destruct (ignore call f st) as [[st1 [v | v]] |] eqn:Hc; [| | done];
      rewrite (ignore_le _ _ _ Hc); [apply IH | done].
  - destruct (scope call f st) as [[st1 [v | v]] |] eqn:Hc; [| | done];
      rewrite (scope_le _ _ _ Hc); [apply IH | done].
  - destruct (exec call body st) as [[st1 [v | v]] |] eqn:Hb; [| | done];
      rewrite (IHb _ _ Hb); [apply IHk |].
    destruct (exec call (handler v) st1) as [[st2 [w | w]] |] eqn:Hh; [| | done];
      rewrite (IHh _ _ _ Hh); [apply IHk | done].
Qed.

Lemma apply_le f arg st : result_le (apply call f arg st) (apply call' f arg st).
Proof.
  unfold apply. destruct f; try apply result_le_refl.
  - simpl. destruct (closures st !! c); [apply exec_le | apply result_le_refl].
  - apply setter_le.
  - apply dispose_le.
  - apply scope_dispose_le.
  - apply scope_hook_le.
Qed.

End MoreStack.

(** A call that ends with room for [n] stack frames ends the same way with
    room for more. *)
Lemma call_le n m f arg st : n ≤ m → result_le (call n f arg st) (call m f arg st).
Proof.
  revert m f arg st. induction n as [| n IH]; intros m f arg st Hle; [done |].
  destruct m as [| m]; [lia |]. simpl. apply apply_le.
  intros f' arg' st'. apply IH. lia.
Qed.

Lemma task_le n m p st : n ≤ m → result_le (exec (call n) p st) (exec (call m) p st).
Proof. intros Hle. apply exec_le. intros. by apply call_le. Qed.

Lemma flush_from_le fuel fuel' n n' i st :
  fuel ≤ fuel' → n ≤ n' →
  result_le (flush_from fuel n i st) (flush_from fuel' n' i st).
Proof.
  intros Hf. revert n' i st. induction n as [| n IH]; intros n' i st Hn; simpl.
  - destruct (queue st !! i) eqn:Hq; [by intros x |].
    destruct n'; simpl; rewrite Hq; apply result_le_refl.
  - destruct n' as [| n']; [lia |]. simpl. destruct (queue st !! i); [| apply result_le_refl].
    apply result_le_bind; [| intros; apply IH; lia].
    apply run_le. intros. by apply call_le.
Qed.

Lemma flush_le fuel fuel' st :
  fuel ≤ fuel' → result_le (flush fuel st) (flush fuel' st).
Proof.
  intros Hf. unfold flush.
  apply result_le_bind; [by apply flush_from_le | intros; apply result_le_refl].
Qed.

(** * Further properties *)

(** ** Calls made by the program run no effect *)





(** X1. A call made by the program, whatever function it calls and however
    it ends (a write to a signal included), runs no effect that existed when
    it was made: the history it adds holds no invocation of a job by [flush],
    and of an effect that existed no reset, no call of its body and no
    cleanup invoked by a run.  The reruns of an effect are left to [flush]. *)
Theorem calls_run_no_effect fuel f arg st st' o :
  call fuel f arg st = Some (st', o) →
  ∃ evs, log st' = evs ++ log st
    ∧ jobs_of evs = []
    ∧ ∀ e, e < length (effects st) →
        (EvBody e ∉ evs) ∧ (EvReset e ∉ evs) ∧ ∀ c, EvCleanup e c ∉ evs.
Proof.
  intros Ht%call_trans. apply trans_log in Ht as (evs & Hl & Hall).
  exists evs. split_and!; [done | by eapply jobs_of_allowed |].
  intros e He. split_and!.
  - by eapply allowed_not_body.
  - intros Hin. eapply Forall_forall in Hall; [| done]. simpl in Hall. lia.
  - intros c Hin. eapply Forall_forall in Hall; [| done]. done.
Qed.

(** ** What a call does to the scheduler *)

Lemma filter_ext_in {A} (P Q : A → Prop) `{!∀ x, Decision (P x)} `{!∀ x, Decision (Q x)}
    (l : list A) :
  (∀ x, x ∈ l → P x ↔ Q x) → filter P l = filter Q l.
Proof.
  induction l as [| x l IH]; intros Hext; [done |].
  rewrite !filter_cons. rewrite IH by (intros y Hy; apply Hext; by right).
  destruct (Hext x) as [H1 H2]; [by left |]. repeat case_decide; tauto.
Qed.

(** [subs.forEach(sub => schedule(sub.run))] on the scheduler, for [subs]
    without duplicates. *)
Lemma notify_fold_queue l st :
  NoDup l →
  queue (foldl (λ st sub, schedule sub st) st l)
  = queue st ++ filter (λ e, e ∉ queue st) l.
Proof.
  revert st. induction l as [| x l IH]; intros st Hnd; simpl.
  - by rewrite app_nil_r.
  - apply NoDup_cons in Hnd as [Hx Hnd]. rewrite IH by done.
    rewrite schedule_queue, filter_cons. case_decide as Hq.
    + by rewrite decide_False by tauto.
    + rewrite decide_True by done. rewrite <- app_assoc. simpl. do 2 f_equal.
      apply filter_ext_in. intros y Hy.
      rewrite elem_of_app, list_elem_of_singleton.
      split; [tauto |]. intros Hn [? | ->]; done.
Qed.

Lemma notify_fold_flushing l st :
  flushing (foldl (λ st sub, schedule sub st) st l)
  = (flushing st || bool_decide (l ≠ [])).
Proof.
  revert st. induction l as [| x l IH]; intros st; cbn [foldl].
  - rewrite bool_decide_eq_false_2 by auto. by rewrite orb_false_r.
  - rewrite IH, schedule_flushing.
    rewrite (bool_decide_eq_true_2 (x :: l ≠ [])) by done.
    by rewrite orb_true_r.
Qed.

Lemma trans_arranges st st' :
  trans st st' → flushing st = false →
  (flushing st' = false ∧ microtasks st' = microtasks st ∧ queue st' = queue st)
  ∨ (flushing st' = true ∧ microtasks st' = S (microtasks st)).
Proof.
  induction 1 as [st | st1 st2 st3 Ht1 IH1 Ht2 IH2 | f st | body st | v st | s st Hc
                 | e s st Hc Hs | s v st | s st | e st | c st | st st' Ht IH | st st' Ht IH
                 | f oc st st' Ht IH]; intros Hf; try (by left).
  - destruct (IH1 Hf) as [(Hf2 & Hm2 & Hq2) | (Hf2 & Hm2)].
    + destruct (IH2 Hf2) as [(Hf3 & Hm3 & Hq3) | (Hf3 & Hm3)].
      * left. split_and!; congruence.
      * right. split; congruence.
    + apply trans_sched_step in Ht2 as (_ & Hkeep & _).
      destruct (Hkeep Hf2) as [Hf3 Hm3]. right. split; congruence.
  - unfold notify. rewrite notify_fold_flushing, notify_fold_microtasks, Hf. simpl.
    destruct (subs_of s st) as [| x l]; [by left | by right].
  - left. simpl. by destruct (unsubscribe_frame e st) as (_ & _ & _ & _ & -> & -> & -> & _).
  - destruct (IH Hf) as [? | ?]; [by left | by right].
  - destruct (IH Hf) as [? | ?]; [by left | by right].
  - destruct (IH Hf) as [? | ?]; destruct oc; simpl; [by left | by left | by right | by right].
Qed.

(** X2. A call made by the program, whatever it calls and however it ends,
    only appends to the queue of the scheduler: no job is removed from it
    and the flag is never unset.  While the flag is set the call arranges
    no flush; when it is unset the call either leaves the scheduler as it
    is, queue included, or sets the flag and arranges exactly one flush. *)
Theorem calls_only_append fuel f arg st st' o :
  call fuel f arg st = Some (st', o) →
  queue st `prefix_of` queue st'
  ∧ (flushing st = true → flushing st' = true ∧ microtasks st' = microtasks st)
  ∧ (flushing st = false →
       (flushing st' = false ∧ microtasks st' = microtasks st ∧ queue st' = queue st)
       ∨ (flushing st' = true ∧ microtasks st' = S (microtasks st))).
Proof.
  intros Ht%call_trans. apply trans_sched_step in Ht as Hs. destruct Hs as (? & ? & _).
  split_and!; [done | done |]. by apply trans_arranges.
Qed.

(** ** Sets hold no element twice *)

Lemma sets_ok_frame st st' :
  (∀ s, subs_of s st' = subs_of s st) → (∀ e, deps_of e st' = deps_of e st) →
  sets_ok st → sets_ok st'.
Proof. intros Hs Hd [H1 H2]. split; intros x; [rewrite Hs | rewrite Hd]; auto. Qed.

Lemma NoDup_set_delete x l : NoDup l → NoDup (set_delete x l).
Proof. apply NoDup_filter. Qed.

Lemma sets_ok_unsubscribe e st : sets_ok st → sets_ok (unsubscribe e st).
Proof.
  intros [H1 H2]. split; [| intros e'; by rewrite deps_of_unsubscribe].
  unfold unsubscribe. generalize (deps_of e st) as l. intros l. clear H2. revert st H1.
  induction l as [| s0 l IH]; intros st H1; simpl; [done |].
  apply IH. intros s. rewrite subs_of_upd_subs. case_decide; [| done].
  by apply NoDup_set_delete.
Qed.

Lemma sets_ok_alloc_effect f st :
  sets_ok st → sets_ok (upd_effects (λ l, l ++ [mkEffect f [] []]) st).
Proof.
  intros [H1 H2]. split; [done |]. intros e. rewrite deps_of_alloc_effect.
  case_decide; [apply NoDup_nil_2 | done].
Qed.

Lemma sets_ok_push_cleanup e oc st : sets_ok st → sets_ok (push_cleanup e oc st).
Proof.
  destruct oc as [c |]; [| done]. simpl. apply sets_ok_frame; [done |].
  intros e'. apply deps_of_upd_cleanups.
Qed.

Lemma trans_sets_ok st st' : trans st st' → sets_ok st → sets_ok st'.
Proof.
  induction 1 as [st | st1 st2 st3 Ht1 IH1 Ht2 IH2 | f st | body st | v st | s st Hc
                 | e s st Hc Hs | s v st | s st | e st | c st | st st' Ht IH | st st' Ht IH
                 | f oc st st' Ht IH]; intros Hok; try done.
  - auto.
  - destruct Hok as [H1 H2]. split; [| done]. intros s. unfold signal.
    rewrite subs_of_alloc_signal. case_decide; [apply NoDup_nil_2 | done].
  - destruct Hok as [H1 H2]. split.
    + intros s'. heap. rewrite subs_of_upd_subs. case_decide; [| done].
      by apply NoDup_set_add.
    + intros e'. heap. rewrite deps_of_upd_deps. case_decide; [| heap; done].
      heap. by apply NoDup_set_add.
  - revert Hok. apply sets_ok_frame; [| done]. intros s'. unfold subs_of, set_value. simpl.
    destruct (decide (s = s')) as [<- | Hne].
    + rewrite list_lookup_alter_eq. by destruct (signals st !! s).
    + by rewrite list_lookup_alter_ne.
  - revert Hok. destruct (notify_frame s st) as (_ & Hs & He & _).
    apply sets_ok_frame; intros x; unfold subs_of, deps_of; by rewrite ?Hs, ?He.
  - by apply (sets_ok_unsubscribe e) in Hok.
  - by apply IH.
  - by apply IH.
  - apply (sets_ok_push_cleanup (length (effects st)) oc), IH.
    by apply (sets_ok_alloc_effect f) in Hok.
Qed.

Lemma sets_ok_enter_run e st : sets_ok st → sets_ok (enter_run e st).
Proof.
  intros Hok. unfold enter_run, reset.
  assert (sets_ok (upd_cleanups e (λ _, []) st)) as Hok1.
  { revert Hok. apply sets_ok_frame; [done |]. intros e'. apply deps_of_upd_cleanups. }
  apply (sets_ok_unsubscribe e) in Hok1 as [H1 H2]. split; [done |].
  intros e'. heap. rewrite deps_of_upd_deps. case_decide; [apply NoDup_nil_2 |].
  heap. apply Hok.
Qed.

Lemma strans_sets_ok st st' : strans st st' → sets_ok st → sets_ok st'.
Proof.
  induction 1 as [st st' Ht | st1 st2 st3 _ IH1 _ IH2 | e c st | e oc st st' He Ht
                 | e st Hq | st | m st Hm]; intros Hok; try done.
  - by eapply trans_sets_ok.
  - auto.
  - apply (sets_ok_push_cleanup e oc). eapply trans_sets_ok; [done |].
    by apply sets_ok_enter_run.
Qed.

Lemma reachable_sets_ok st : reachable st → sets_ok st.
Proof.
  intros H%reachable_strans. apply (strans_sets_ok _ _ H).
  split; intros x; apply NoDup_nil_2.
Qed.

Lemma call_sets_ok fuel f arg st st' o :
  sets_ok st → call fuel f arg st = Some (st', o) → sets_ok st'.
Proof. intros Hok Ht%call_trans. by eapply trans_sets_ok. Qed.

(** ** The queue after a write *)

(** X3. A write of a value that is not a function and differs from the one
    the signal holds stores it and hands the subscribers to the scheduler in
    the order of the subscriber set: the queue grows by the subscribers that
    were not in it, in that order, and nothing in it moves; the flag is set
    if there is a subscriber, and a flush is arranged if there is one and
    the flag was unset.  The write changes no subscriber set, no other
    signal and no effect.  (The subscriber set holds no element twice: so it
    is in every reachable state, [reachable_sets_ok], and calls keep it so,
    [call_sets_ok].) *)
Theorem write_enqueues (call : jsval → jsval → state → result) s v sg st :
  signals st !! s = Some sg → is_function v = false → value sg ≠ v → NoDup (subs sg) →
  ∃ st',
    setter call s v st = Some (st', Normal VUndef)
    ∧ value_of s st' = v
    ∧ queue st' = queue st ++ filter (λ e, e ∉ queue st) (subs sg)
    ∧ flushing st' = (flushing st || bool_decide (subs sg ≠ []))
    ∧ microtasks st' =
        (if flushing st || bool_decide (subs sg = []) then microtasks st
         else S (microtasks st))
    ∧ (∀ s', subs_of s' st' = subs_of s' st)
    ∧ (∀ s', s' ≠ s → value_of s' st' = value_of s' st)
    ∧ effects st' = effects st ∧ currentEffect st' = currentEffect st.
Proof.
  intros Hs Hf Hv Hnd. exists (written s v st).
  assert (object_is (value_of s st) v = false) as Hid.
  { apply bool_decide_eq_false. unfold value_of. by rewrite Hs. }
  assert (subs_of s (set_value s v st) = subs sg) as Hsubs.
  { unfold subs_of, set_value. simpl. by rewrite list_lookup_alter_eq, Hs. }
  destruct (written_frame s v st) as (Hc & He & _ & Hss).
  split_and!; try done.
  - by apply setter_literal.
  - by apply written_spec.
  - unfold written, notify. rewrite Hid, Hsubs. by rewrite notify_fold_queue.
  - unfold written, notify. rewrite Hid, Hsubs. by rewrite notify_fold_flushing.
  - unfold written, notify. rewrite Hid, Hsubs. by rewrite notify_fold_microtasks.
  - intros s' Hne. unfold written. rewrite Hid, value_of_notify.
    unfold value_of, set_value. simpl. by rewrite list_lookup_alter_ne.
Qed.

(** ** A write, then the flush *)






Lemma consistent_subs_alloc st e s :
  consistent st → e ∈ subs_of s st → e < length (effects st).
Proof.
  intros Hc Hin. apply (log_subs _ Hc), subscribed_elem_of in Hin.
  by apply (log_alloc _ Hc) in Hin as [? _].
Qed.



(** X5. A write is compared with the value the signal holds when it is
    made, not with the one it held at the last flush: writing a different
    value and then the former one back leaves the signal with the value it
    had and every subscriber it had in the queue. *)
Theorem write_back_schedules (call : jsval → jsval → state → result) s v e st :
  is_Some (signals st !! s) →
  is_function v = false → is_function (value_of s st) = false →
  v ≠ value_of s st → e ∈ subs_of s st →
  ∃ st1 st2,
    setter call s v st = Some (st1, Normal VUndef)
    ∧ setter call s (value_of s st) st1 = Some (st2, Normal VUndef)
    ∧ value_of s st2 = value_of s st
    ∧ e ∈ queue st2.
Proof.
  intros Hs Hf Hf0 Hv He.
  set (v0 := value_of s st) in *.
  assert (is_Some (signals (written s v st) !! s)) as Hs1.
  { apply lookup_lt_is_Some. destruct (written_spec s v st Hs) as (H1 & _).
    apply lookup_lt_is_Some. unfold written. destruct (object_is _ _); [done |].
    destruct (notify_frame s (set_value s v st)) as (_ & -> & _). simpl.
    apply lookup_lt_is_Some. rewrite length_alter. by apply lookup_lt_is_Some. }
  exists (written s v st), (written s v0 (written s v st)).
  destruct (written_spec s v st Hs) as (Hv1 & _ & Hq1).
  destruct (written_spec s v0 _ Hs1) as (Hv2 & _ & Hq2).
  split_and!; [by apply setter_literal | by apply setter_literal | done |].
  apply Hq2.
  - apply bool_decide_eq_false. by rewrite Hv1.
  - destruct (written_frame s v st) as (_ & _ & _ & ->). done.
Qed.

(** ** Reading twice *)

Lemma set_add_idemp x l : set_add x (set_add x l) = set_add x l.
Proof.
  unfold set_add at 1. rewrite decide_True; [done |]. apply elem_of_set_add. by left.
Qed.

(** X6. A second read of a signal in the same tracking context returns the
    same value and changes nothing but the history: the effect is a
    subscriber once and the signal a dependency once, however often the
    signal is read during a run. *)
Theorem getter_twice s st st1 v :
  getter s st = Some (st1, Normal v) →
  ∃ st2, getter s st1 = Some (st2, Normal v) ∧ forget st2 = forget st1.
Proof.
  unfold getter. destruct (signals st !! s) as [sg |] eqn:Hs; [| done].
  intros [= <- <-]. simpl.
  destruct (currentEffect st) as [e |] eqn:Hc; simpl.
  - rewrite list_lookup_alter_eq, Hs. simpl. rewrite Hc. simpl.
    eexists. split; [done |]. unfold forget. simpl.
    f_equal.
    + rewrite list_alter_alter_eq. apply list_alter_ext; [| done].
      intros sg' _. simpl. by rewrite set_add_idemp.
    + rewrite list_alter_alter_eq. apply list_alter_ext; [| done].
      intros ef' _. simpl. by rewrite set_add_idemp.
  - rewrite Hs. simpl. rewrite Hc. eexists. split; [done |]. done.
Qed.

(** ** The construction of an effect *)

Lemma effect_inv fuel f st st' o :
  effect (call fuel) f st = Some (st', o) →
  ∃ st6 o6,
    call fuel f VUndef (enter_effect f st) = Some (st6, o6)
    ∧ st' = set_currentEffect (currentEffect st)
              (push_cleanup (length (effects st)) (settle o6) st6)
    ∧ o = match o6 with
          | Normal _ => Normal (VDisposer (length (effects st)))
          | Thrown v => Thrown v
          end.
Proof.
  rewrite effect_unfold.
  intros [(st2 & u & H1 & H2) | (u & H1 & ->)]%bind_Some.
  - injection H2 as <- <-. apply finally_Some in H1 as (st7 & H1 & ->).
    apply bind_Some in H1 as [(st6 & c & H1 & H2) | (w & _ & ?)]; [| done].
    injection H2 as <- _. by exists st6, (Normal c).
  - apply finally_Some in H1 as (st7 & H1 & ->).
    apply bind_Some in H1 as [(st6 & c & _ & ?) | (w & H1 & [= ->])]; [done |].
    by exists st7, (Thrown w).
Qed.



Lemma tracked_subscribed e s l :
  tracked e s l = true → EvDispose e ∉ l → subscribed e s l = true.
Proof.
  induction l as [| ev l IH]; simpl; [done |].
  rewrite not_elem_of_cons.
  destruct ev as [[e' |] s' | e' | e' | e' c | e' | e' | f]; intros Ht [Hne Hnin]; auto.
  - case_decide; auto.
  - case_decide; auto.
  - case_decide; [congruence | auto].
Qed.

(** X8. When the body throws during [effect(fn)], [effect] throws and
    returns no disposer, but the effect it made stays: the tracking context
    is restored, the effect holds no cleanup, and it is a subscriber of
    every signal it read before it threw (its dependencies), so that, unless
    it was disposed meanwhile, a later write that changes one of them puts
    its run in the queue. *)
Theorem effect_throw_leaves_effect fuel f st st' v :
  consistent st → effect (call fuel) f st = Some (st', Thrown v) →
  let e := length (effects st) in
  e < length (effects st')
  ∧ currentEffect st' = currentEffect st
  ∧ cleanups_of e st' = []
  ∧ ∀ s, s ∈ deps_of e st' → EvDispose e ∉ log st' →
      e ∈ subs_of s st'
      ∧ ∀ (call' : jsval → jsval → state → result) w,
          is_function w = false → w ≠ value_of s st' →
          ∃ st'', setter call' s w st' = Some (st'', Normal VUndef) ∧ e ∈ queue st''.
Proof.
  intros Hc H e.
  assert (consistent st') as Hc'.
  { eapply trans_consistent; [| done]. eapply effect_trans; [| done].
    intros ?????. apply call_trans. }
  apply effect_inv in H as (st6 & o6 & H1 & -> & Ho).
  destruct o6 as [c | w]; [done |]. simpl in *.
  apply call_trans in H1 as Ht. apply trans_extends in Ht as Hext.
  assert (e < length (effects (enter_effect f st))) as He.
  { unfold enter_effect. simpl. rewrite length_app. simpl. lia. }
  split_and!.
  - destruct Hext as (_ & Hlen & _). lia.
  - done.
  - heap. rewrite (extends_cleanups_of _ _ _ Hext He).
    unfold enter_effect. heap. by rewrite cleanups_of_alloc_effect, decide_True.
  - intros s Hd Hnd.
    assert (e ∈ subs_of s (set_currentEffect (currentEffect st) st6)) as Hin.
    { apply (log_subs _ Hc'). apply tracked_subscribed; [| done]. by apply (log_deps _ Hc'). }
    split; [done |]. intros call' w' Hw Hne.
    assert (is_Some (signals (set_currentEffect (currentEffect st) st6) !! s)) as Hs.
    { apply lookup_lt_is_Some. apply (log_subs _ Hc'), subscribed_elem_of in Hin.
      by apply (log_alloc _ Hc') in Hin as [_ ?]. }
    eexists. split; [by apply setter_literal |].
    apply written_spec; [done | | done]. apply bool_decide_eq_false. congruence.
Qed.

(** X9. An effect that read no signal during its last run, when its run is
    not in the queue, is never run again: whatever tasks and flushes follow,
    its run is never queued, never invoked as a job, and its body is never
    called. *)
Theorem effect_without_deps_rests e st :
  reachable st → e < length (effects st) → deps_of e st = [] → e ∉ queue st →
  ∀ st', later st st' →
    (e ∉ queue st')
    ∧ ∃ evs, log st' = evs ++ log st ∧ (EvJob e ∉ evs) ∧ (EvBody e ∉ evs).
Proof.
  intros Hr He Hd Hq st' Hl.
  destruct (later_dormant e _ _ Hl) as [(_ & _ & ? & _) ?]; [| done].
  split_and!; [done | by rewrite reachable_currentEffect | done |].
  intros s Hin. apply consistent_subs_deps in Hin; [| by apply reachable_consistent].
  rewrite Hd in Hin. by apply elem_of_nil in Hin.
Qed.

(** ** Disposal, again *)

(** A call that ends has entered the function it calls. *)
Lemma call_applied fuel f arg st st' o :
  call fuel f arg st = Some (st', o) →
  ∃ evs, log st' = evs ++ EvApply f :: log st.
Proof.
  destruct fuel as [| n]; simpl; [done |]. unfold apply. intros H.
  assert (trans (record (EvApply f) st) st') as Ht.
  { assert (∀ f arg st st' o, call n f arg st = Some (st', o) → trans st st') as Hcall.
    { intros ?????. apply call_trans. }
    destruct f; simpl in H.
    - injection H as <- <-. apply trans_refl.
    - injection H as <- <-. apply trans_refl.
    - destruct (closures st !! c) as [body |].
      + by eapply exec_trans.
      + injection H as <- <-. apply trans_refl.
    - by eapply getter_trans.
    - by eapply setter_trans.
    - by eapply dispose_trans.
    - by eapply scope_dispose_trans.
    - by eapply scope_hook_trans. }
  apply trans_log in Ht as (evs & Hl & _). by exists evs.
Qed.

Lemma dispose_cleanups_applied fuel fs st st' u :
  call_each (call fuel) (λ _, id) fs st = Some (st', Normal u) →
  extends st st'
  ∧ ∃ evs, log st' = evs ++ log st ∧ ∀ c, c ∈ fs → EvApply c ∈ evs.
Proof.
  revert st. induction fs as [| f fs IH]; intros st; simpl.
  - intros [= <- _]. split; [apply extends_refl |]. exists []. split; [done |].
    by intros c ?%elem_of_nil.
  - intros [(st1 & v & H1 & H2) | (v & _ & ?)]%bind_Some; [| done].
    apply IH in H2 as (Hext2 & evs2 & Hl2 & Hin2).
    apply call_trans in H1 as Ht. apply call_applied in H1 as (evs1 & Hl1).
    split; [eapply extends_trans; [by apply trans_extends | done] |].
    exists (evs2 ++ evs1 ++ [EvApply f]). split.
    { rewrite Hl2, Hl1. unfold id. by rewrite <- !app_assoc. }
    intros c [-> | Hc]%elem_of_cons.
    + rewrite !elem_of_app, list_elem_of_singleton. auto.
    + apply elem_of_app. left. by apply Hin2.
Qed.

(** X10. The disposer calls every cleanup the effect holds and leaves them
    all in the effect: unlike a run, it does not empty the list.  So a second
    call of the disposer calls every one of them again, and leaves them
    there again. *)
Theorem dispose_keeps_cleanups fuel e ef st st' v :
  effects st !! e = Some ef →
  dispose (call fuel) e st = Some (st', Normal v) →
  cleanups_of e st' = cleanups ef
  ∧ (∃ evs, log st' = evs ++ log st ∧ ∀ c, c ∈ cleanups ef → EvApply c ∈ evs)
  ∧ ∀ fuel' st'' v', dispose (call fuel') e st' = Some (st'', Normal v') →
      cleanups_of e st'' = cleanups ef
      ∧ ∃ evs, log st'' = evs ++ log st' ∧ ∀ c, c ∈ cleanups ef → EvApply c ∈ evs.
Proof.
  assert (∀ fuel ef st st' v,
    effects st !! e = Some ef →
    dispose (call fuel) e st = Some (st', Normal v) →
    (∃ ef', effects st' !! e = Some ef' ∧ cleanups ef' = cleanups ef)
    ∧ ∃ evs, log st' = evs ++ log st ∧ ∀ c, c ∈ cleanups ef → EvApply c ∈ evs) as Hone.
  { clear. intros fuel ef st st' v He. unfold dispose. rewrite He.
    intros [(st0 & u & H1 & H2) | (u & _ & ?)]%bind_Some; [| done].
    injection H2 as <- _.
    apply dispose_cleanups_applied in H1 as ((_ & _ & _ & _ & Hef) & evs & Hl & Hin).
    destruct (Hef _ _ He) as (ef' & He' & _ & Hc'). split.
    - exists ef'. split; [| done]. simpl.
      by destruct (unsubscribe_frame e st0) as (_ & -> & _).
    - exists (EvDispose e :: evs). split.
      + simpl. destruct (unsubscribe_frame e st0) as (_ & _ & _ & _ & _ & _ & _ & ->).
        by rewrite Hl.
      + intros c Hc. right. by apply Hin. }
  intros He Hd. destruct (Hone _ _ _ _ _ He Hd) as ((ef' & He' & Hc') & Hlog).
  split_and!.
  - unfold cleanups_of. by rewrite He'.
  - done.
  - intros fuel' st'' v' Hd'.
    destruct (Hone _ _ _ _ _ He' Hd') as ((ef'' & He'' & Hc'') & Hlog').
    rewrite Hc' in *. split; [| done]. unfold cleanups_of. by rewrite He''.
Qed.

Lemma value_of_unsubscribe e s st : value_of s (unsubscribe e st) = value_of s st.
Proof.
  unfold unsubscribe.
  apply (foldl_frame (value_of s) (λ st s, upd_subs s (set_delete e) st)).
  intros st' s'. unfold value_of, upd_subs. simpl.
  destruct (decide (s' = s)) as [-> | Hne].
  - rewrite list_lookup_alter_eq. by destruct (signals st' !! s).
  - by rewrite list_lookup_alter_ne.
Qed.

(** X11. Once the cleanups have returned, the disposer removes the effect
    from the subscribers of every signal and does nothing else: every other
    effect is a subscriber where it was, the signals hold the values they
    held, the effect keeps its dependency set and its cleanups, and the
    scheduler is untouched, so that a run of the effect that was in the queue
    is still in it. *)
Theorem dispose_removes_only fuel e ef st st0 u :
  consistent st → effects st !! e = Some ef →
  call_each (call fuel) (λ _, id) (cleanups ef) st = Some (st0, Normal u) →
  ∃ st1,
    dispose (call fuel) e st = Some (st1, Normal VUndef)
    ∧ (∀ s e', e' ∈ subs_of s st1 ↔ e' ≠ e ∧ e' ∈ subs_of s st0)
    ∧ (∀ s, value_of s st1 = value_of s st0)
    ∧ effects st1 = effects st0
    ∧ queue st1 = queue st0
    ∧ flushing st1 = flushing st0
    ∧ microtasks st1 = microtasks st0.
Proof.
  intros Hc He H1. exists (record (EvDispose e) (unsubscribe e st0)).
  assert (consistent st0) as Hc0.
  { revert H1 Hc. apply (call_each_rel _ (λ st st', consistent st → consistent st')).
    - done.
    - auto.
    - done.
    - intros ????? ?%call_trans ?. by eapply trans_consistent. }
  destruct (unsubscribe_frame e st0) as (_ & Hef & _ & _ & Hfl & Hq & Hm & _).
  split_and!; try done.
  - unfold dispose. by rewrite He, H1.
  - intros s e'. heap. rewrite subs_of_unsubscribe. split.
    + intros [Hin Hn]. split; [| done]. intros ->. apply Hn. split; [done |].
      by apply consistent_subs_deps.
    + intros [Hne Hin]. split; [done |]. by intros [? _].
  - intros s. heap. apply value_of_unsubscribe.
Qed.

(** ** The dispose of a scope *)

Lemma alter_same {A} (f : A → A) (l : list A) i x :
  l !! i = Some x → f x = x → alter f i l = l.
Proof.
  intros Hl Hf. apply list_eq. intros j. destruct (decide (i = j)) as [<- | Hne].
  - rewrite list_lookup_alter_eq, Hl. simpl. by rewrite Hf.
  - by rewrite list_lookup_alter_ne.
Qed.

(** X12. The [dispose] function that [scope] hands to [fn], called in a
    reachable state, returns [undefined] having called nothing and changed
    nothing: the private array it walks is empty. *)
Theorem scope_dispose_noop fuel c arg st :
  reachable st → is_Some (scopes st !! c) →
  call (S fuel) (VScopeDispose c) arg st
  = Some (record (EvApply (VScopeDispose c)) st, Normal VUndef).
Proof.
  intros Hr [l Hl].
  assert (l = []) as ->.
  { apply reachable_strans, strans_scopes in Hr; [| done].
    by eapply Forall_lookup_1 in Hr. }
  simpl. unfold apply, scope_dispose. simpl. rewrite Hl. simpl. unfold ret. do 2 f_equal.
  unfold upd_scope, upd_scopes. simpl. rewrite (alter_same _ _ _ [] Hl) by done.
  by destruct st.
Qed.

(** ** Between tasks *)

(** X13. Between the tasks and flushes of an execution no effect is the
    tracking context, however those tasks and flushes ended, with an
    exception or not: a read made directly by a task is never tracked. *)
Theorem context_null_between_tasks fuel s st :
  reachable st → is_Some (signals st !! s) →
  currentEffect st = None
  ∧ ∃ st', call (S fuel) (VGetter s) VUndef st = Some (st', Normal (value_of s st))
      ∧ signals st' = signals st ∧ effects st' = effects st.
Proof.
  intros Hr [sg Hs]. pose proof (reachable_currentEffect _ Hr) as Hc.
  split; [done |].
  exists (record (EvRead None s) (record (EvApply (VGetter s)) st)).
  split_and!; [| done | done].
  simpl. unfold apply, getter, value_of. simpl. by rewrite Hs, Hc.
Qed.

(** ** The length of a pass *)

Lemma queue_alloc_frame st st' :
  queue st' = queue st → length (effects st) ≤ length (effects st') →
  queue_alloc st → queue_alloc st'.
Proof. intros Hq Hlen H e. rewrite Hq. intros ?%H. lia. Qed.

Lemma trans_queue_alloc st st' :
  trans st st' → consistent st → queue_alloc st → queue_alloc st'.
Proof.
  induction 1 as [st | st1 st2 st3 Ht1 IH1 Ht2 IH2 | f st | body st | v st | s st Hc
                 | e s st Hc Hs | s v st | s st | e st | c st | st st' Ht IH | st st' Ht IH
                 | f oc st st' Ht IH]; intros Hcons Hq;
    try (by (revert Hq; apply queue_alloc_frame; simpl; rewrite ?length_alter)).
  - apply IH2; [by eapply trans_consistent | by apply IH1].
  - intros e [He | He]%notify_queue.
    + destruct (notify_frame s st) as (_ & _ & -> & _). by apply Hq.
    + destruct (notify_frame s st) as (_ & _ & -> & _). by eapply consistent_subs_alloc.
  - revert Hq. destruct (unsubscribe_frame e st) as (_ & He & _ & _ & _ & Hqq & _).
    apply queue_alloc_frame; simpl; by rewrite ?He, ?Hqq.
  - apply (queue_alloc_frame st'); [done | done |]. apply IH; [| done].
    apply consistent_set_currentEffect; done.
  - apply (queue_alloc_frame st'); [done | done |]. apply IH.
    + apply consistent_frame with (set_currentEffect None st); try done.
      apply consistent_set_currentEffect; done.
    + done.
  - apply (queue_alloc_frame st').
    + by destruct oc.
    + destruct oc; simpl; rewrite ?length_alter; done.
    + apply IH; [by apply consistent_enter_effect |].
      revert Hq. apply queue_alloc_frame; [done |]. unfold enter_effect. simpl.
      rewrite length_app. lia.
Qed.

Lemma queue_alloc_enter_run e st : queue_alloc st → queue_alloc (enter_run e st).
Proof.
  apply queue_alloc_frame; [apply enter_run_sched | by rewrite extends_enter_run_length].
Qed.

Lemma strans_queue_alloc st st' :
  strans st st' → consistent st → queue_alloc st → queue_alloc st'.
Proof.
  induction 1 as [st st' Ht | st1 st2 st3 Ht1 IH1 Ht2 IH2 | e c st | e oc st st' He Ht
                 | e st Hin | st | m st Hm]; intros Hcons Hq; try done.
  - by eapply trans_queue_alloc.
  - apply IH2; [by eapply strans_consistent | by apply IH1].
  - apply (queue_alloc_frame st').
    + by destruct oc.
    + destruct oc; simpl; rewrite ?length_alter; done.
    + eapply trans_queue_alloc; [done | by apply consistent_enter_run |].
      by apply queue_alloc_enter_run.
  - intros e ?%elem_of_nil. done.
Qed.

Lemma reachable_queue_alloc st : reachable st → queue_alloc st.
Proof.
  intros H%reachable_strans. apply (strans_queue_alloc _ _ H); [apply consistent_init |].
  intros e ?%elem_of_nil. done.
Qed.

Lemma NoDup_bounded_length (l : list nat) n :
  NoDup l → (∀ x, x ∈ l → x < n) → length l ≤ n.
Proof.
  intros Hnd Hb. assert (length l ≤ length (seq 0 n)) as Hle; [| by rewrite length_seq in Hle].
  apply submseteq_length.
  apply NoDup_submseteq; [done |]. intros x Hx. apply elem_of_seq. specialize (Hb x Hx). lia.
Qed.

(** X14. A flush invokes no job twice and only runs of effects that exist,
    so the jobs of one pass are at most as many as the effects there are
    when it ends, however the pass ends: effects that write to each other's
    dependencies do not keep a pass going, only the construction of new
    effects lengthens it. *)
Theorem flush_bounded fuel st st' o :
  reachable st → microtask fuel st = Some (st', o) →
  ∃ evs, log st' = evs ++ log st
    ∧ NoDup (jobs_of evs)
    ∧ (∀ e, e ∈ jobs_of evs → e < length (effects st'))
    ∧ length (jobs_of evs) ≤ length (effects st').
Proof.
  intros Hr H.
  assert (∃ evs, log st' = evs ++ log st ∧ NoDup (jobs_of evs)
                 ∧ ∀ e, e ∈ jobs_of evs → e < length (effects st')) as (evs & Hl & Hnd & Hb).
  2: { exists evs. split_and!; try done. by apply NoDup_bounded_length. }
  pose proof (reachable_sched_ok _ Hr) as (Hnd & Hle & Hrest).
  pose proof (reachable_consistent _ Hr) as Hc.
  pose proof (reachable_queue_alloc _ Hr) as Hqa.
  unfold microtask in H. destruct (microtasks st) as [| m] eqn:Hm.
  { injection H as <- _. exists []. split_and!; [done | apply NoDup_nil_2 |].
    by intros e ?%elem_of_nil. }
  assert (m = 0) as -> by lia.
  assert (flushing st = true) as Hf.
  { destruct (flushing st); [done |]. destruct Hrest as [? _]; [done | lia]. }
  set (st0 := upd_microtasks (λ _, 0) st) in *.
  assert (sched_ok st0) as Hok0.
  { split_and!; simpl; [done | lia |]. by rewrite Hf. }
  assert (consistent st0) as Hc0 by (revert Hc; by apply consistent_frame).
  assert (queue_alloc st0) as Hqa0 by done.
  unfold flush in H. apply bind_Some in H as [(st1 & v & H1 & H2) | (v & H1 & ->)].
  - injection H2 as <- _.
    apply flush_from_strans in H1 as Hst.
    apply flush_from_pass in H1 as ((_ & _ & Hok') & evs & Hl & Hj).
    rewrite drop_0 in Hj. exists evs. rewrite Hj. split_and!; [done | by apply Hok' |].
    simpl. by apply (strans_queue_alloc _ _ Hst).
  - apply flush_from_strans in H1 as Hst.
    apply flush_from_pass in H1 as ((_ & _ & Hok') & evs & Hl & ran & job & rest & Hj & Hq).
    rewrite drop_0 in Hq. exists evs. rewrite Hj.
    destruct (Hok' Hok0) as (Hnd' & _). rewrite Hq in Hnd'.
    pose proof (strans_queue_alloc _ _ Hst Hc0 Hqa0) as Hqa'.
    split_and!; [done | |].
    + replace (ran ++ job :: rest) with ((ran ++ [job]) ++ rest) in Hnd'
        by by rewrite <- app_assoc.
      by apply NoDup_app in Hnd' as (? & _).
    + intros e He. apply Hqa'. rewrite Hq.
      replace (ran ++ job :: rest) with ((ran ++ [job]) ++ rest) by by rewrite <- app_assoc.
      apply elem_of_app. by left.
Qed.

(** ** The cleanup of an element set *)

Lemma call_disposer fuel e arg st st' v :
  consistent st → call fuel (VDisposer e) arg st = Some (st', Normal v) →
  e < length (effects st') ∧ ∀ s, e ∉ subs_of s st'.
Proof.
  intros Hc H. pose proof (call_consistent _ _ _ _ _ _ Hc H) as Hc'.
  destruct fuel as [| n]; [done |]. simpl in H. unfold apply, dispose in H. simpl in H.
  destruct (effects st !! e) as [ef |] eqn:He; [| done].
  apply bind_Some in H as [(st0 & u & H1 & H2) | (u & _ & ?)]; [| done].
  injection H2 as <- _. split.
  - simpl. destruct (unsubscribe_frame e st0) as (_ & -> & _).
    assert (extends (record (EvApply (VDisposer e)) st) st0) as (_ & Hlen & _).
    { revert H1. apply call_each_rel.
      - apply extends_refl.
      - apply extends_trans.
      - intros. apply extends_refl.
      - intros ????? ?%call_trans. by apply trans_extends. }
    apply lookup_lt_Some in He. simpl in Hlen. lia.
  - intros s Hin. apply (log_subs _ Hc') in Hin. simpl in Hin.
    by rewrite decide_True in Hin.
Qed.

(** X15. When [cleanup()] of an element set returns, every effect whose
    disposer is among the functions the set registered (the bindings made by
    its methods) is a subscriber of no signal, whatever the other registered
    functions did, provided it is not the effect that is running. *)
Theorem cleanup_disposes fuel cleanups st st' u :
  consistent st → cleanup fuel cleanups st = Some (st', Normal u) →
  ∀ e, VDisposer e ∈ cleanups → currentEffect st ≠ Some e →
    ∀ s, e ∉ subs_of s st'.
Proof.
  unfold cleanup. revert st. induction cleanups as [| f fs IH]; intros st Hc H e Hin Hctx.
  { by apply elem_of_nil in Hin. }
  simpl in H. apply bind_Some in H as [(st1 & v & H1 & H2) | (v & _ & ?)]; [| done].
  unfold id in H1.
  pose proof (call_consistent _ _ _ _ _ _ Hc H1) as Hc1.
  pose proof (trans_currentEffect _ _ (call_trans _ _ _ _ _ _ H1)) as Hctx1.
  destruct (decide (VDisposer e ∈ fs)) as [Hfs | Hfs].
  { apply (IH st1); [done | done | done | congruence]. }
  apply elem_of_cons in Hin as [<- | ?]; [| done].
  destruct (call_disposer _ _ _ _ _ _ Hc H1) as [He1 Hs1].
  assert (trans st1 st') as Ht.
  { revert H2. apply call_each_rel.
    - apply trans_refl.
    - apply trans_trans.
    - intros. apply trans_refl.
    - intros ?????. apply call_trans. }
  intros s Hs. destruct (trans_untracked _ _ e Ht) as [_ Hkeep]; [done | congruence |].
  by apply (Hs1 s), Hkeep.
Qed.

(** * The properties on the sample programs *)

(** ** The claims on sample programs *)

Lemma counter_reachable : reachable counter_state.
Proof.
  apply (reach_task 3 counter init _ (Normal (VDisposer 0)) reach_init).
  vm_compute. reflexivity.
Qed.


(** Writing 0 to the signal of [counter], which holds 0. *)
Lemma setter_identical_noop_witness :
  let st := counter_state in
  setter (call 3) 0 (VNum 0) st = Some (st, Normal VUndef).
Proof.
  intros st.
  apply (setter_identical_noop (call 3) 0 (VNum 0) st st (VNum 0)).
  - vm_compute. by eexists.
  - vm_compute. reflexivity.
  - vm_compute. reflexivity.
Defined.

(** The flush of [throwing]: the first job throws 1; the second, queued
    behind it, is not invoked, and the scheduler is stuck. *)
Lemma flush_failure_witness :
  let st := throwing_state in
  let st1 := state_of (run (call 3) 0 (record (EvJob 0) (upd_microtasks (λ _, 0) st))) in
  queue st1 = [0; 1]
  ∧ microtask 3 st = Some (st1, Thrown (VNum 1))
  ∧ (∃ ran job rest stj,
       [0] = ran ++ [job] ∧ queue st1 = ran ++ job :: rest ∧ NoDup (queue st1)
       ∧ run (call 3) job (record (EvJob job) stj) = Some (st1, Thrown (VNum 1))
       ∧ (∀ j, j ∈ rest → j ∉ [0])
       ∧ ∃ evs, log st1 = evs ++ log st ∧ jobs_of evs = [0])
  ∧ flushing st1 = true ∧ microtasks st1 = 0
  ∧ ∀ st'', later st1 st'' →
      flushing st'' = true ∧ microtasks st'' = 0
      ∧ queue st1 `prefix_of` queue st''
      ∧ jobs_of (log st'') = jobs_of (log st1)
      ∧ ∀ fuel', microtask fuel' st'' = Some (st'', Normal VUndef).
Proof.
  intros st st1. split; [vm_compute; reflexivity |].
  assert (reachable st) as Hr.
  { apply (reach_task 3 throwing init _ (Normal VUndef) reach_init).
    vm_compute. reflexivity. }
  assert (microtasks st ≠ 0) as Hm by (vm_compute; lia).
  apply (proj1 (flush_failure 3 st Hr Hm) [0] st1 (Thrown (VNum 1))); [| simpl; lia].
  apply pass_thrown; vm_compute; reflexivity.
Defined.

(** C5 as stated fails: in [counter], [setN(1)] queues the run of the
    effect and [d()] disposes it, leaving signal 0 without subscriber; the
    flush then invokes the run all the same, which subscribes the effect
    again, and the write [setN(2)] after that queues its run. *)
Lemma dispose_queued_counterexample :
  let st0 := counter_state in
  let st1 := state_of (exec (call 3) write_then_dispose st0) in
  let st2 := state_of (microtask 3 st1) in
  let st3 := state_of (setter (call 3) 0 (VNum 2) st2) in
  outcome_of (exec (call 3) write_then_dispose st0) = Some (Normal VUndef)
  ∧ deps_of 0 st0 = [0] ∧ subs_of 0 st1 = [] ∧ queue st1 = [0]
  ∧ jobs_of (log st2) = [0] ∧ subs_of 0 st2 = [0]
  ∧ queue st2 = [] ∧ queue st3 = [0].
Proof. vm_compute. repeat split. Qed.

(** Why C5 as amended asks that the effect is not the one running: in
    [self_disposing] the body calls the disposer of its own effect during
    the rerun and reads the signal after that (the history has the newest
    event first); the read subscribes the effect again, and the write
    [setN(2)] queues its run. *)
Lemma dispose_while_running :
  let st1 := state_of (exec (call 4) self_disposing init) in
  let st2 := state_of (microtask 4 st1) in
  let st3 := state_of (setter (call 4) 0 (VNum 2) st2) in
  outcome_of (exec (call 4) self_disposing init) = Some (Normal VUndef)
  ∧ queue st1 = [0]
  ∧ outcome_of (microtask 4 st1) = Some (Normal VUndef)
  ∧ take 3 (log st2) = [EvRead (Some 0) 0; EvApply (VGetter 0); EvDispose 0]
  ∧ subs_of 0 st2 = [0]
  ∧ queue st2 = [] ∧ queue st3 = [0].
Proof. vm_compute. repeat split. Qed.

(** C6 as stated fails: on a signal that holds functions, writing the
    function [g] as the new value stores what [g] returned, and the read
    returns 2, not [g]. *)
Lemma setter_function_counterexample :
  let st := state_of (exec (call 3) fn_signal init) in
  let st' := state_of (setter (call 3) 0 (VClos 1) st) in
  value_of 0 st = VClos 0
  ∧ outcome_of (setter (call 3) 0 (VClos 1) st) = Some (Normal VUndef)
  ∧ outcome_of (getter 0 st') = Some (Normal (VNum 2))
  ∧ VNum 2 ≠ VClos 1.
Proof. vm_compute. repeat split. discriminate. Qed.


(** What C8 as amended leaves out: in [stale_sum] the write [setA(1)] queues
    the effect of the computed signal and the effect that copies [a] to
    [b]; the pass invokes the first, which stores 1 + 0, then the second,
    whose write to [b] finds the first still in the queue and appends
    nothing.  The flush ends with the computed signal at 1 while [a] and
    [b] hold 1 each, and nothing is queued. *)
Lemma computed_rerun_missed :
  let st1 := state_of (exec (call 5) stale_sum init) in
  let st2 := state_of (microtask 5 st1) in
  outcome_of (exec (call 5) stale_sum init) = Some (Normal VUndef)
  ∧ deps_of 0 st1 = [0; 1] ∧ queue st1 = [0; 1]
  ∧ outcome_of (microtask 5 st1) = Some (Normal VUndef)
  ∧ jobs_of (log st2) = [0; 1]
  ∧ value_of 0 st2 = VNum 1 ∧ value_of 1 st2 = VNum 1 ∧ value_of 2 st2 = VNum 1
  ∧ sum (value_of 0 st2) (value_of 1 st2) = VNum 2
  ∧ queue st2 = [] ∧ microtasks st2 = 0
  ∧ outcome_of (getter 2 st2) = Some (Normal (VNum 1)).
Proof. vm_compute. by repeat split. Qed.

(** The flush after [setA(1)] in [chain]: the queue holds the first effect;
    its run writes [b] and so appends the second, which the same pass
    invokes. *)
Lemma scheduler_contract_witness :
  let st := state_of (exec (call 3) chain init) in
  let sta := state_of (run (call 3) 0 (record (EvJob 0) st)) in
  let stb := state_of (run (call 3) 1 (record (EvJob 1) sta)) in
  (queue st = [0] ∧ queue sta = [0; 1])
  ∧ flush 3 st = Some (flushed stb, Normal VUndef)
  ∧ [0; 1] = queue stb
  ∧ queue (flushed stb) = [] ∧ flushing (flushed stb) = false.
Proof.
  intros st sta stb. split; [vm_compute; by repeat split |].
  destruct scheduler_contract as (_ & _ & _ & _ & Hflush & _).
  apply (Hflush 3 st [0; 1] stb VUndef); [| simpl; lia].
  apply (pass_next 3 0 st 0 sta VUndef [1] stb (Normal VUndef));
    [vm_compute; reflexivity | vm_compute; reflexivity |].
  apply (pass_next 3 1 sta 1 stb VUndef [] stb (Normal VUndef));
    [vm_compute; reflexivity | vm_compute; reflexivity |].
  apply pass_done. vm_compute. reflexivity.
Defined.

(** Disposing the effect of [cleaning], which holds one cleanup, while its
    run is not queued; the write [setN(1)] after that stores 1 and queues
    nothing. *)
Lemma dispose_stops_reruns_witness :
  let st := state_of (exec (call 3) cleaning init) in
  let st0 := state_of (call 3 (VClos 0) VUndef st) in
  let st1 := record (EvDispose 0) (unsubscribe 0 st0) in
  let st2 := state_of (call 3 (VSetter 0) (VNum 1) st1) in
  (subs_of 0 st = [0] ∧ cleanups_of 0 st = [VClos 0]
   ∧ value_of 0 st2 = VNum 1 ∧ queue st2 = [])
  ∧ dispose (call 3) 0 st = Some (st1, Normal VUndef)
  ∧ (∀ s, 0 ∉ subs_of s st1)
  ∧ dormant 0 st1
  ∧ (dormant 0 st2 ∧ quiet 0 st1 st2)
  ∧ ∀ st3, later st1 st3 → dormant 0 st3 ∧ quiet 0 st1 st3.
Proof.
  intros st st0 st1 st2. split; [vm_compute; by repeat split |].
  destruct dispose_stops_reruns as (Hdis & Hkeep & _).
  destruct (Hdis 3 0 (mkEffect (VClos 1) [0] [VClos 0]) st st0 VUndef)
    as (H1 & H2 & _ & _ & H3).
  - apply reachable_consistent.
    apply (reach_task 3 cleaning init _ (Normal (VDisposer 0)) reach_init).
    vm_compute. reflexivity.
  - vm_compute. reflexivity.
  - apply (each_next _ _ (VClos 0) [] st st0 VUndef st0 (Normal VUndef));
      [vm_compute; reflexivity | apply each_done].
  - assert (dormant 0 st1) as Hd.
    { apply H3; [vm_compute; apply not_elem_of_nil | vm_compute; discriminate]. }
    destruct (Hkeep 0 st1 Hd) as (Hcall & _ & _ & _ & _ & Hlater).
    split; [exact H1 | split; [exact H2 | split; [exact Hd | split; [| exact Hlater]]]].
    apply (Hcall 3 (VSetter 0) (VNum 1) st2 (Normal VUndef)).
    vm_compute. reflexivity.
Defined.

(** Writing the function [g] to the signal of [fn_signal], which holds
    functions: the read returns 2, what [g] returns. *)
Lemma setter_then_getter_witness :
  let st := state_of (exec (call 3) fn_signal init) in
  ∃ st' st'',
    setter (call 3) 0 (VClos 1) st = Some (st', Normal VUndef)
    ∧ getter 0 st' = Some (st'', Normal (VNum 2)).
Proof.
  intros st.
  apply (proj2 (setter_then_getter 3 0 (VClos 1) st ltac:(vm_compute; by eexists))
           eq_refl
           (state_of (call 3 (VClos 1) (value_of 0 st) st))).
  vm_compute. reflexivity.
Defined.



(** [ignore(n)] inside a run of the effect of [counter]. *)
Lemma tracking_context_restored_witness :
  let st := set_currentEffect (Some 0) counter_state in
  let st1 := record (EvRead None 0) (record (EvApply (VGetter 0)) (set_currentEffect None st)) in
  let st' := set_currentEffect (Some 0) st1 in
  ignore (call 3) (VGetter 0) st = Some (st', Normal (VNum 0))
  ∧ currentEffect st' = Some 0
  ∧ (∃ evs, log st' = evs ++ log st ∧ ∀ e s, EvRead (Some e) s ∈ evs → 1 ≤ e)
  ∧ (∀ e, e < 1 → deps_of e st' = deps_of e st ∧ ∀ s, e ∈ subs_of s st' → e ∈ subs_of s st).
Proof.
  intros st st1 st'.
  apply (proj1 tracking_context_restored 3 (VGetter 0) st st1 (Normal (VNum 0))).
  vm_compute. reflexivity.
Defined.

(** [scope(f)] inside a run of effect 0, with [f] constructing an effect. *)
Lemma scope_hook_unreachable_witness :
  let st := set_currentEffect (Some 0) (state_of (exec (call 3) scoped init)) in
  let st2 := state_of (call 3 (VClos 1) (VScopeDispose 0)
                         (upd_scopes (λ l, l ++ [[]]) (set_currentEffect None st))) in
  length (effects st2) = 2
  ∧ currentEffect st2 = None
  ∧ scope (call 3) (VClos 1) st = Some (set_currentEffect (Some 0) st2, Normal VUndef).
Proof.
  intros st st2. split; [vm_compute; reflexivity |].
  apply (proj1 scope_hook_unreachable 3 (VClos 1) st st2 VUndef).
  vm_compute. reflexivity.
Defined.

(** ** The further properties on sample programs *)

(** [setN(1)] in [counter]: the run of the effect is queued, not made. *)
Lemma calls_run_no_effect_witness :
  let st := counter_state in
  let st' := state_of (call 3 (VSetter 0) (VNum 1) st) in
  queue st' = [0]
  ∧ ∃ evs, log st' = evs ++ log st
      ∧ jobs_of evs = []
      ∧ ∀ e, e < length (effects st) →
          (EvBody e ∉ evs) ∧ (EvReset e ∉ evs) ∧ ∀ c, EvCleanup e c ∉ evs.
Proof.
  intros st st'. split; [vm_compute; reflexivity |].
  apply (calls_run_no_effect 3 (VSetter 0) (VNum 1) st st' (Normal VUndef)).
  vm_compute. reflexivity.
Defined.

(** [setN(1)] in [counter], where the flag is unset: one flush is arranged. *)
Lemma calls_only_append_witness :
  let st := counter_state in
  let st' := state_of (call 3 (VSetter 0) (VNum 1) st) in
  flushing st = false
  ∧ queue st `prefix_of` queue st'
  ∧ ((flushing st' = false ∧ microtasks st' = microtasks st ∧ queue st' = queue st)
     ∨ (flushing st' = true ∧ microtasks st' = S (microtasks st))).
Proof.
  intros st st'.
  destruct (calls_only_append 3 (VSetter 0) (VNum 1) st st' (Normal VUndef))
    as (H1 & _ & H3); [vm_compute; reflexivity |].
  split_and!; [vm_compute; reflexivity | exact H1 | apply H3; vm_compute; reflexivity].
Defined.

(** [setN(1)] in [counter]: the queue is the one subscriber. *)
Lemma write_enqueues_witness :
  let st := counter_state in
  ∃ st',
    setter (call 3) 0 (VNum 1) st = Some (st', Normal VUndef)
    ∧ value_of 0 st' = VNum 1
    ∧ queue st' = queue st ++ filter (λ e, e ∉ queue st) [0]
    ∧ flushing st' = (flushing st || bool_decide ([0] ≠ []))
    ∧ microtasks st' =
        (if flushing st || bool_decide ([0] = []) then microtasks st
         else S (microtasks st))
    ∧ (∀ s', subs_of s' st' = subs_of s' st)
    ∧ (∀ s', s' ≠ 0 → value_of s' st' = value_of s' st)
    ∧ effects st' = effects st ∧ currentEffect st' = currentEffect st.
Proof.
  intros st.
  apply (write_enqueues (call 3) 0 (VNum 1) (mkSignal (VNum 0) [0]) st).
  - vm_compute. reflexivity.
  - reflexivity.
  - simpl. discriminate.
  - apply (proj1 (reachable_sets_ok _ counter_reachable) 0).
Defined.


(** [setN(1); setN(0)] in [counter]. *)
Lemma write_back_schedules_witness :
  let st := counter_state in
  ∃ st1 st2,
    setter (call 3) 0 (VNum 1) st = Some (st1, Normal VUndef)
    ∧ setter (call 3) 0 (value_of 0 st) st1 = Some (st2, Normal VUndef)
    ∧ value_of 0 st2 = value_of 0 st
    ∧ 0 ∈ queue st2.
Proof.
  intros st.
  apply (write_back_schedules (call 3) 0 (VNum 1) 0 st).
  - vm_compute. by eexists.
  - reflexivity.
  - vm_compute. reflexivity.
  - vm_compute. discriminate.
  - vm_compute. left.
Defined.

(** [n(); n()] inside a run of the effect of [counter]. *)
Lemma getter_twice_witness :
  let st := set_currentEffect (Some 0) counter_state in
  let st1 := state_of (getter 0 st) in
  ∃ st2, getter 0 st1 = Some (st2, Normal (VNum 0)) ∧ forget st2 = forget st1.
Proof.
  intros st st1. apply (getter_twice 0 st st1 (VNum 0)).
  vm_compute. reflexivity.
Defined.


(** [effect(body)] after [failing_body]: the body reads [n], then throws. *)
Lemma effect_throw_leaves_effect_witness :
  let st := state_of (exec (call 3) failing_body init) in
  let st' := state_of (effect (call 3) (VClos 0) st) in
  deps_of 0 st' = [0]
  ∧ 0 < length (effects st')
  ∧ currentEffect st' = currentEffect st
  ∧ cleanups_of 0 st' = []
  ∧ ∀ s, s ∈ deps_of 0 st' → EvDispose 0 ∉ log st' →
      0 ∈ subs_of s st'
      ∧ ∀ (call' : jsval → jsval → state → result) w,
          is_function w = false → w ≠ value_of s st' →
          ∃ st'', setter call' s w st' = Some (st'', Normal VUndef) ∧ 0 ∈ queue st''.
Proof.
  intros st st'. split; [vm_compute; reflexivity |].
  apply (effect_throw_leaves_effect 3 (VClos 0) st st' (VNum 7)).
  - apply reachable_consistent.
    apply (reach_task 3 failing_body init _ (Normal (VClos 0)) reach_init).
    vm_compute. reflexivity.
  - vm_compute. reflexivity.
Defined.

(** The first effect of [idle_effect], which read nothing: [setN(1)] and
    the flush after it, which runs the second effect, leave it alone. *)
Lemma effect_without_deps_rests_witness :
  let st := state_of (exec (call 3) idle_effect init) in
  let st1 := state_of (exec (call 3) (Call (VSetter 0) (VNum 1) Ret) st) in
  let st' := state_of (microtask 3 st1) in
  jobs_of (log st') = [1]
  ∧ (0 ∉ queue st')
  ∧ ∃ evs, log st' = evs ++ log st ∧ (EvJob 0 ∉ evs) ∧ (EvBody 0 ∉ evs).
Proof.
  intros st st1 st'. split; [vm_compute; reflexivity |].
  apply (effect_without_deps_rests 0 st).
  - apply (reach_task 3 idle_effect init _ (Normal VUndef) reach_init).
    vm_compute. reflexivity.
  - vm_compute. lia.
  - vm_compute. reflexivity.
  - vm_compute. apply not_elem_of_nil.
  - apply (later_microtask 3 st st1 st' (Normal VUndef)).
    + apply (later_task 3 (Call (VSetter 0) (VNum 1) Ret) st st st1 (Normal VUndef)).
      * apply later_refl.
      * vm_compute. reflexivity.
    + vm_compute. reflexivity.
Defined.

(** The disposer of the effect of [with_cleanup], which holds one cleanup. *)
Lemma dispose_keeps_cleanups_witness :
  let st := state_of (exec (call 3) with_cleanup init) in
  let st' := state_of (dispose (call 3) 0 st) in
  cleanups_of 0 st' = [VClos 0]
  ∧ (∃ evs, log st' = evs ++ log st ∧ ∀ c, c ∈ [VClos 0] → EvApply c ∈ evs)
  ∧ ∀ fuel' st'' v', dispose (call fuel') 0 st' = Some (st'', Normal v') →
      cleanups_of 0 st'' = [VClos 0]
      ∧ ∃ evs, log st'' = evs ++ log st' ∧ ∀ c, c ∈ [VClos 0] → EvApply c ∈ evs.
Proof.
  intros st st'.
  apply (dispose_keeps_cleanups 3 0 (mkEffect (VClos 1) [0] [VClos 0]) st st' VUndef).
  - vm_compute. reflexivity.
  - vm_compute. reflexivity.
Defined.

(** The disposer of the effect of [counter]. *)
Lemma dispose_removes_only_witness :
  let st := counter_state in
  ∃ st1,
    dispose (call 3) 0 st = Some (st1, Normal VUndef)
    ∧ (∀ s e', e' ∈ subs_of s st1 ↔ e' ≠ 0 ∧ e' ∈ subs_of s st)
    ∧ (∀ s, value_of s st1 = value_of s st)
    ∧ effects st1 = effects st
    ∧ queue st1 = queue st
    ∧ flushing st1 = flushing st
    ∧ microtasks st1 = microtasks st.
Proof.
  intros st.
  apply (dispose_removes_only 3 0 (mkEffect (VClos 0) [0] []) st st VUndef).
  - apply reachable_consistent, counter_reachable.
  - vm_compute. reflexivity.
  - vm_compute. reflexivity.
Defined.

(** The [dispose] of the scope of [scope_kept], called after [scope]
    returned it. *)
Lemma scope_dispose_noop_witness :
  let st := state_of (exec (call 3) scope_kept init) in
  call 3 (VScopeDispose 0) VUndef st
  = Some (record (EvApply (VScopeDispose 0)) st, Normal VUndef).
Proof.
  intros st. apply (scope_dispose_noop 2 0 VUndef st).
  - apply (reach_task 3 scope_kept init _ (Normal (VScopeDispose 0)) reach_init).
    vm_compute. reflexivity.
  - vm_compute. by eexists.
Defined.

(** After the flush of [throwing] has thrown, a task reads [n]. *)
Lemma context_null_between_tasks_witness :
  let st := state_of (microtask 3 throwing_state) in
  outcome_of (microtask 3 throwing_state) = Some (Thrown (VNum 1))
  ∧ currentEffect st = None
  ∧ ∃ st', call 3 (VGetter 0) VUndef st = Some (st', Normal (value_of 0 st))
      ∧ signals st' = signals st ∧ effects st' = effects st.
Proof.
  intros st. split; [vm_compute; reflexivity |].
  apply (context_null_between_tasks 2 0 st).
  - apply (reach_microtask 3 throwing_state _ (Thrown (VNum 1))).
    + apply (reach_task 3 throwing init _ (Normal VUndef) reach_init).
      vm_compute. reflexivity.
    + vm_compute. reflexivity.
  - vm_compute. by eexists.
Defined.

(** The flush after [setN(1)] in [counter]: one job, one effect. *)
Lemma flush_bounded_witness :
  let st := state_of (exec (call 3) (Call (VSetter 0) (VNum 1) Ret) counter_state) in
  let st' := state_of (microtask 3 st) in
  jobs_of (log st') = [0]
  ∧ ∃ evs, log st' = evs ++ log st
      ∧ NoDup (jobs_of evs)
      ∧ (∀ e, e ∈ jobs_of evs → e < length (effects st'))
      ∧ length (jobs_of evs) ≤ length (effects st').
Proof.
  intros st st'. split; [vm_compute; reflexivity |].
  apply (flush_bounded 3 st st' (Normal VUndef)).
  - apply (reach_task 3 (Call (VSetter 0) (VNum 1) Ret) counter_state _ (Normal VUndef)
             counter_reachable).
    vm_compute. reflexivity.
  - vm_compute. reflexivity.
Defined.

(** [cleanup()] of a set that registered the disposer of the effect of
    [counter]. *)
Lemma cleanup_disposes_witness :
  let st := counter_state in
  let st' := state_of (cleanup 3 [VDisposer 0] st) in
  subs_of 0 st = [0] ∧ ∀ s, 0 ∉ subs_of s st'.
Proof.
  intros st st'. split; [vm_compute; reflexivity |].
  apply (cleanup_disposes 3 [VDisposer 0] st st' VUndef).
  - apply reachable_consistent, counter_reachable.
  - vm_compute. reflexivity.
  - left.
  - vm_compute. discriminate.
Defined.
